(** * Snake reinforcement learning: the headless trainer and its TD update

    A shallow embedding of [train_headless.py] (the headless environment,
    the state encoder, the epsilon-greedy policy, the replay memory and the
    training loop) and of [model.py] ([QTrainer.train_step]).

    Python integers are [Z]; Python lists and deques are [list]; the
    process-wide random generator is an explicit [Rng] value threaded through
    every function that draws from it; an exception is [None].  The two
    loops that nothing bounds, the recursion of [_place_food] and the
    redraws of [random.sample], take a bound and are [None] when they
    reach it. *)

From Stdlib Require Import QArith.
From stdpp Require Import base decidable numbers list option.

Local Open Scope Z_scope.

(** ** The random source

    [random] is the process-wide generator.  It is modelled by the sequence
    of raw values it will produce and a cursor into it, so that every call
    consumes one value and any outcome of a call can be obtained by a
    suitable generator. *)
Module Random.

Record Rng := mkRng { draws : nat → Z; cursor : nat }.

Definition advance (r : Rng) : Rng := mkRng (draws r) (S (cursor r)).

(** [random._randbelow n]: a value of [0, n). *)
Definition randbelow (n : Z) (r : Rng) : Z * Rng :=
  (draws r (cursor r) `mod` n, advance r).

(** [random.randint a b]: a value of the closed range [a, b]. *)
Definition randint (a b : Z) (r : Rng) : Z * Rng :=
  let '(v, r') := randbelow (b - a + 1) r in (a + v, r').

(** A generator whose next values are [vs] (and 0 afterwards). *)
Definition rng_of (vs : list Z) : Rng := mkRng (λ i, nth i vs 0) 0.

End Random.
Import Random.

(** ** The game: [Direction], [Point], [BLOCK_SIZE] and [HeadlessGame] *)
Module Game.

Inductive Direction := RIGHT | LEFT | UP | DOWN.

#[global] Instance Direction_eq_dec : EqDecision Direction.
Proof. solve_decision. Defined.

Record Point := mkPoint { x : Z; y : Z }.

#[global] Instance Point_eq_dec : EqDecision Point.
Proof. solve_decision. Defined.

(** Modelled from the spec: the module [snake_gameai] that exports
    [BLOCK_SIZE] is not part of the sources; the spec fixes the block size
    to 20 (and [snake_game.py] declares the same value). *)
Definition BLOCK_SIZE : Z := 20.

Record HeadlessGame := mkGame {
  direction : Direction;
  head : Point;
  snake : list Point;
  score : Z;
  food : Point;
  frame_iteration : Z
}.

(** The cell drawn by one attempt of [_place_food]. *)
Definition draw_cell (r : Rng) : Point * Rng :=
  let '(cx, r1) := randint 0 ((640 - BLOCK_SIZE) `div` BLOCK_SIZE) r in
  let '(cy, r2) := randint 0 ((480 - BLOCK_SIZE) `div` BLOCK_SIZE) r1 in
  (mkPoint (cx * BLOCK_SIZE) (cy * BLOCK_SIZE), r2).

(** [_place_food]: draw a cell, and draw again (by a recursive call) while
    the cell is on the snake.  [depth] is the number of nested calls the
    interpreter still allows; running out of it is [RecursionError]. *)
Fixpoint _place_food (depth : nat) (r : Rng) (body : list Point)
  : option (Point * Rng) :=
  match depth with
  | O => None
  | S d =>
      let '(f, r') := draw_cell r in
      if bool_decide (f ∈ body) then _place_food d r' body
      else Some (f, r')
  end.

(** [__init__] (and [reset], which calls it). *)
Definition initial_game (f : Point) : HeadlessGame :=
  let h := mkPoint 320 240 in
  {| direction := RIGHT;
     head := h;
     snake := [h; mkPoint (x h - BLOCK_SIZE) (y h);
               mkPoint (x h - 2 * BLOCK_SIZE) (y h)];
     score := 0;
     food := f;
     frame_iteration := 0 |}.

Definition init (depth : nat) (r : Rng) : option (HeadlessGame * Rng) :=
  '(f, r') ← _place_food depth r (snake (initial_game (mkPoint 0 0)));
  Some (initial_game f, r').

Definition reset (depth : nat) (r : Rng) : option (HeadlessGame * Rng) :=
  init depth r.

Definition out_of_bounds (pt : Point) : bool :=
  (640 - BLOCK_SIZE <? x pt) || (x pt <? 0) ||
  (480 - BLOCK_SIZE <? y pt) || (y pt <? 0).

(** [is_collision]: [pt] defaults to the head. *)
Definition is_collision (g : HeadlessGame) (pt : option Point) : bool :=
  let pt := default (head g) pt in
  if out_of_bounds pt then true
  else if bool_decide (pt ∈ drop 1 (snake g)) then true
  else false.

Definition clock_wise : list Direction := [RIGHT; DOWN; LEFT; UP].

(** [list.index]: the position of the first occurrence. *)
Fixpoint index (d : Direction) (l : list Direction) : nat :=
  match l with
  | [] => O
  | d' :: l' => if bool_decide (d' = d) then O else S (index d l')
  end.

Definition array_equal (a b : list Z) : bool := bool_decide (a = b).

Definition _move (g : HeadlessGame) (action : list Z) : HeadlessGame :=
  let idx := Z.of_nat (index (direction g) clock_wise) in
  let new_dir :=
    if array_equal action [1; 0; 0] then
      nth (Z.to_nat idx) clock_wise RIGHT
    else if array_equal action [0; 1; 0] then
      let next_idx := (idx + 1) `mod` 4 in
      nth (Z.to_nat next_idx) clock_wise RIGHT
    else
      let next_idx := (idx - 1) `mod` 4 in
      nth (Z.to_nat next_idx) clock_wise RIGHT in
  let hx := x (head g) in
  let hy := y (head g) in
  let xy :=
    match new_dir with
    | RIGHT => (hx + BLOCK_SIZE, hy)
    | LEFT => (hx - BLOCK_SIZE, hy)
    | DOWN => (hx, hy + BLOCK_SIZE)
    | UP => (hx, hy - BLOCK_SIZE)
    end in
  {| direction := new_dir;
     head := mkPoint xy.1 xy.2;
     snake := snake g;
     score := score g;
     food := food g;
     frame_iteration := frame_iteration g |}.

(** The first three statements of [play_step_headless]: count the frame,
    move the head, and insert the new head at the front of the snake. *)
Definition advance_head (g : HeadlessGame) (action : list Z) : HeadlessGame :=
  let g1 := _move g action in
  {| direction := direction g1;
     head := head g1;
     snake := head g1 :: snake g1;
     score := score g1;
     food := food g1;
     frame_iteration := frame_iteration g + 1 |}.

(** The game-over test of [play_step_headless], on the advanced game. *)
Definition game_over (g : HeadlessGame) : bool :=
  is_collision g None ||
  (100 * Z.of_nat (length (snake g)) <? frame_iteration g).

Definition with_food (g : HeadlessGame) (sc : Z) (f : Point) : HeadlessGame :=
  {| direction := direction g; head := head g; snake := snake g;
     score := sc; food := f; frame_iteration := frame_iteration g |}.

Definition pop_tail (g : HeadlessGame) : HeadlessGame :=
  {| direction := direction g; head := head g;
     snake := removelast (snake g);
     score := score g; food := food g;
     frame_iteration := frame_iteration g |}.

(** The triple [(reward, done, score)] returned by a step. *)
Definition StepResult : Type := Z * bool * Z.

Definition play_step_headless (depth : nat) (r : Rng) (g : HeadlessGame)
    (action : list Z) : option (StepResult * HeadlessGame * Rng) :=
  let g1 := advance_head g action in
  if game_over g1 then Some ((-1, true, score g1), g1, r)
  else if bool_decide (head g1 = food g1) then
    '(f, r') ← _place_food depth r (snake g1);
    let g2 := with_food g1 (score g1 + 1) f in
    Some ((10, false, score g2), g2, r')
  else
    let g2 := pop_tail g1 in
    Some ((0, false, score g2), g2, r).

End Game.
Import Game.

(** ** The state encoder

    [get_state] is written against whatever game object it is given
    ([HeadlessAgent.get_state] receives a [HeadlessGame],
    [TrainedAgent.get_state] the graphical game); it reads the snake, the
    head, the direction and the food, and calls [is_collision]. *)
Module Encoder.

Class GameLike (G : Type) := {
  game_snake : G → list Point;
  game_head : G → Point;
  game_direction : G → Direction;
  game_food : G → Point;
  game_is_collision : G → Point → bool
}.

#[global] Instance HeadlessGame_like : GameLike HeadlessGame := {|
  game_snake := snake;
  game_head := Game.head;
  game_direction := direction;
  game_food := food;
  game_is_collision := λ g pt, is_collision g (Some pt)
|}.

(** [None] is the [IndexError] of [game.snake[0]] on an empty snake. *)
Definition get_state `{GameLike G} (game : G) : option (list Z) :=
  head ← game_snake game !! 0%nat;
  let point_l := mkPoint (x head - BLOCK_SIZE) (y head) in
  let point_r := mkPoint (x head + BLOCK_SIZE) (y head) in
  let point_u := mkPoint (x head) (y head - BLOCK_SIZE) in
  let point_d := mkPoint (x head) (y head + BLOCK_SIZE) in
  let dir_l := bool_decide (game_direction game = LEFT) in
  let dir_r := bool_decide (game_direction game = RIGHT) in
  let dir_u := bool_decide (game_direction game = UP) in
  let dir_d := bool_decide (game_direction game = DOWN) in
  let state := [
    (dir_u && game_is_collision game point_u) ||
    (dir_d && game_is_collision game point_d) ||
    (dir_l && game_is_collision game point_l) ||
    (dir_r && game_is_collision game point_r);

    (dir_u && game_is_collision game point_r) ||
    (dir_d && game_is_collision game point_l) ||
    (dir_u && game_is_collision game point_u) ||
    (dir_d && game_is_collision game point_d);

    (dir_u && game_is_collision game point_r) ||
    (dir_d && game_is_collision game point_l) ||
    (dir_r && game_is_collision game point_u) ||
    (dir_l && game_is_collision game point_d);

    dir_l; dir_r; dir_u; dir_d;

    x (game_food game) <? x (game_head game);
    x (game_head game) <? x (game_food game);
    y (game_food game) <? y (game_head game);
    y (game_head game) <? y (game_food game)
  ] in
  Some (Z.b2z <$> state).

End Encoder.
Import Encoder.

(** ** Tensors

    What the code asks of [torch]: float scalars with their arithmetic and
    comparison, the literal [0.9], the network [Linear_QNet(11, 256, 3)]
    with its forward pass, and the optimiser step.  [Net] stands for the
    parameters of the network together with the state of its optimiser.

    [forward net s] is the forward pass on one state.  The first layer is
    [nn.Linear(11, 256)] and the last one [nn.Linear(256, 3)]: a state of
    11 entries gives three outputs, and any other state is the
    [RuntimeError] of the matrix product, [None] here. *)
Module Torch.

Class Tensors := {
  Scalar : Type;
  of_int : Z → Scalar;
  fadd : Scalar → Scalar → Scalar;
  fmul : Scalar → Scalar → Scalar;
  fgtb : Scalar → Scalar → bool;
  float_0_9 : Scalar;
  Net : Type;
  forward : Net → list Z → option (list Scalar);
  forward_shape : ∀ net s,
    length <$> forward net s
    = if bool_decide (length s = 11%nat) then Some 3%nat else None;
  optimize : Net → list (list Scalar) → list (list Scalar) → Net
}.

Section Reductions.
Context {A : Type} (gtb : A → A → bool).

(** Scan for the first maximal element: [best] at position [best_i] is
    replaced only by a strictly greater element. *)
Fixpoint argmax_from (best_i : nat) (best : A) (i : nat) (l : list A) : nat :=
  match l with
  | [] => best_i
  | a :: l' =>
      if gtb a best then argmax_from i a (S i) l'
      else argmax_from best_i best (S i) l'
  end.

(** [torch.argmax] of a flat tensor; an empty tensor is an error. *)
Definition argmax (l : list A) : option nat :=
  match l with
  | [] => None
  | a :: l' => Some (argmax_from 0 a 1 l')
  end.

(** [torch.max] of a flat tensor. *)
Definition tmax (l : list A) : option A :=
  match l with
  | [] => None
  | a :: l' => Some (foldl (λ m b, if gtb b m then b else m) a l')
  end.
End Reductions.

(** [l[i] = v] on a Python list or a tensor row: [IndexError] when [i] is
    not a position of [l]. *)
Definition setitem {A} (l : list A) (i : nat) (v : A) : option (list A) :=
  if bool_decide (i < length l)%nat then Some (<[i := v]> l) else None.

End Torch.
Import Torch.

(** ** [QTrainer.train_step] *)
Module Trainer.

(** The two ways [train_step] is called: with one transition
    ([train_short_memory]) or with the five columns of a batch
    ([train_long_memory]). *)
Inductive TrainArgs :=
| Single (state action : list Z) (reward : Z) (next_state : list Z)
         (done : bool)
| Batch (states actions : list (list Z)) (rewards : list Z)
        (next_states : list (list Z)) (dones : list bool).

Record Columns := mkColumns {
  col_state : list (list Z);
  col_action : list (list Z);
  col_reward : list Z;
  col_next_state : list (list Z);
  col_done : list bool
}.

(** [np.array] of a sequence of rows makes a matrix: the rows must all have
    the length of the first one. *)
Definition rectangular (rows : list (list Z)) : bool :=
  match rows with
  | [] => true
  | row :: rows' =>
      forallb (λ row', bool_decide (length row' = length row)) rows'
  end.

(** The tensors after the [len(state.shape) == 1] test: one transition is
    turned into a batch of one.  An empty batch is an error (its state
    tensor has one dimension and nothing to evaluate), and so is a batch
    whose states, next states or actions do not make a matrix. *)
Definition unsqueeze (a : TrainArgs) : option Columns :=
  match a with
  | Single s ac rw ns d => Some (mkColumns [s] [ac] [rw] [ns] [d])
  | Batch [] _ _ _ _ => None
  | Batch ss acs rws nss ds =>
      if rectangular ss && rectangular nss && rectangular acs
      then Some (mkColumns ss acs rws nss ds)
      else None
  end.

Section TrainStep.
Context `{Tensors}.
Variables (net : Net) (gamma : Scalar).

Definition Q_new (c : Columns) (idx : nat) : option Scalar :=
  reward ← col_reward c !! idx;
  done ← col_done c !! idx;
  if (done : bool) then Some (of_int reward)
  else
    (next_state ← col_next_state c !! idx;
     out ← forward net next_state;
     best ← tmax fgtb out;
     Some (fadd (of_int reward) (fmul gamma best))).

(** The index [torch.argmax(action).item()]: the position of the first
    maximum of the whole action tensor, read row after row. *)
Definition action_index (c : Columns) : option nat :=
  argmax Z.gtb (concat (col_action c)).

(** One round of the loop: [target[idx][argmax(action)] = Q_new]. *)
Definition assign_target (c : Columns) (target : list (list Scalar))
    (idx : nat) : option (list (list Scalar)) :=
  q ← Q_new c idx;
  k ← action_index c;
  row ← target !! idx;
  row' ← setitem row k q;
  Some (<[idx := row']> target).

Fixpoint assign_targets (c : Columns) (target : list (list Scalar))
    (idxs : list nat) : option (list (list Scalar)) :=
  match idxs with
  | [] => Some target
  | idx :: idxs' =>
      target' ← assign_target c target idx;
      assign_targets c target' idxs'
  end.

(** [pred = self.model(state)]: the forward pass on every row of the state
    tensor. *)
Definition predictions (c : Columns) : option (list (list Scalar)) :=
  mapM (forward net) (col_state c).

(** The target tensor at the end of the loop of [train_step]. *)
Definition train_targets (a : TrainArgs) : option (list (list Scalar)) :=
  c ← unsqueeze a;
  pred ← predictions c;
  assign_targets c pred (seq 0 (length (col_done c))).

Definition train_step (a : TrainArgs) : option Net :=
  c ← unsqueeze a;
  pred ← predictions c;
  target ← train_targets a;
  Some (optimize net target pred).
End TrainStep.

End Trainer.
Import Trainer.

(** ** [collections.deque] with a [maxlen], and [random.sample] *)
Module Memory.

Record deque (A : Type) := mkDeque { maxlen : nat; items : list A }.
Arguments mkDeque {A} _ _.
Arguments maxlen {A} _.
Arguments items {A} _.

Definition new_deque {A} (n : nat) : deque A := mkDeque n [].

(** [deque.append]: add on the right, then drop the leftmost item when the
    length went over [maxlen]. *)
Definition append {A} (d : deque A) (v : A) : deque A :=
  let l := items d ++ [v] in
  mkDeque (maxlen d) (if bool_decide (maxlen d < length l)%nat then drop 1 l else l).

(** [random.sample] has two ways of sampling [k] items of a population of
    [n].  It keeps a pool of the items not selected so far when
    [n <= setsize], where [setsize] is 21, plus
    [4 ** _ceil(_log(k * 3, 4))] when [k > 5]; the exponent is the least
    [e] with [k * 3 <= 4 ** e] ([k * 3] is no power of 4, so the logarithm
    is not an integer). *)
Definition setsize (k : Z) : Z :=
  21 + (if 5 <? k then 4 ^ ((Z.log2_up (k * 3) + 1) `div` 2) else 0).

(** The pool: [k] rounds, each drawing a position of the items not selected
    so far, taking the item there and moving the last of them into the
    vacancy. *)
Fixpoint sample_pool {A} (k : nat) (pool : list A) (r : Rng)
  : option (list A * Rng) :=
  match k with
  | O => Some ([], r)
  | S k' =>
      let '(j, r1) := randbelow (Z.of_nat (length pool)) r in
      a ← pool !! Z.to_nat j;
      z ← pool !! (length pool - 1)%nat;
      '(rest, r2) ← sample_pool k'
         (take (length pool - 1) (<[Z.to_nat j := z]> pool)) r1;
      Some (a :: rest, r2)
  end.

(** The set of selected positions, for a larger population: [k] rounds,
    each drawing a position of the whole population, and drawing again
    while the position drawn has been selected before.  Nothing bounds the
    number of draws: [fuel] is the number of draws still allowed, and
    [None] with [k] items still to select means that the loop is still
    running when they are used up. *)
Fixpoint sample_set {A} (fuel : nat) (population : list A) (k : nat)
    (selected : list nat) (r : Rng) : option (list A * Rng) :=
  match k with
  | O => Some ([], r)
  | S k' =>
      match fuel with
      | O => None
      | S fuel' =>
          let '(j, r1) := randbelow (Z.of_nat (length population)) r in
          if bool_decide (Z.to_nat j ∈ selected)
          then sample_set fuel' population k selected r1
          else
            (a ← population !! Z.to_nat j;
             '(rest, r2) ← sample_set fuel' population k'
                              (Z.to_nat j :: selected) r1;
             Some (a :: rest, r2))
      end
  end.

(** [random.sample population k]: [ValueError] when the sample is larger
    than the population. *)
Definition random_sample {A} (fuel : nat) (population : list A) (k : nat)
    (r : Rng) : option (list A * Rng) :=
  let n := length population in
  if bool_decide (k ≤ n)%nat then
    if bool_decide (Z.of_nat n ≤ setsize (Z.of_nat k))
    then sample_pool k population r
    else sample_set fuel population k [] r
  else None.

End Memory.
Import Memory.

(** ** [HeadlessAgent] *)
Module Agent.

Definition MAX_MEMORY : nat := Z.to_nat 500000.
Definition BATCH_SIZE : nat := 4000.

(** The tuple [(state, action, reward, next_state, done)]. *)
Record Transition := mkTransition {
  t_state : list Z;
  t_action : list Z;
  t_reward : Z;
  t_next_state : list Z;
  t_done : bool
}.

(** [zip( *mini_sample )] unpacked into five names: the five columns of the
    sample; [ValueError] when the sample is empty. *)
Definition unzip (sample : list Transition) : option TrainArgs :=
  match sample with
  | [] => None
  | _ => Some (Batch (t_state <$> sample) (t_action <$> sample)
                     (t_reward <$> sample) (t_next_state <$> sample)
                     (t_done <$> sample))
  end.

(** The sample of [train_long_memory], for any batch size. *)
Definition mini_sample {A} (fuel : nat) (batch_size : nat) (memory : deque A)
    (r : Rng) : option (list A * Rng) :=
  if bool_decide (batch_size < length (items memory))%nat
  then random_sample fuel (items memory) batch_size r
  else Some (items memory, r).

Section Agent.
Context `{Tensors}.

(** The network is one object, held by the agent and by its trainer: the
    field [model] stands for both, and a training step replaces it. *)
Record HeadlessAgent := mkAgent {
  n_game : Z;
  epsilon : Z;
  gamma : Scalar;
  memory : deque Transition;
  model : Net
}.

Definition new_agent (net : Net) : HeadlessAgent :=
  {| n_game := 0; epsilon := 0; gamma := float_0_9;
     memory := new_deque MAX_MEMORY; model := net |}.

Definition set_n_game (a : HeadlessAgent) (n : Z) : HeadlessAgent :=
  {| n_game := n; epsilon := epsilon a; gamma := gamma a;
     memory := memory a; model := model a |}.
Definition set_epsilon (a : HeadlessAgent) (e : Z) : HeadlessAgent :=
  {| n_game := n_game a; epsilon := e; gamma := gamma a;
     memory := memory a; model := model a |}.
Definition set_memory (a : HeadlessAgent) (m : deque Transition)
  : HeadlessAgent :=
  {| n_game := n_game a; epsilon := epsilon a; gamma := gamma a;
     memory := m; model := model a |}.
Definition set_model (a : HeadlessAgent) (net : Net) : HeadlessAgent :=
  {| n_game := n_game a; epsilon := epsilon a; gamma := gamma a;
     memory := memory a; model := net |}.

(** The draw that decides between exploration and exploitation. *)
Definition explore_draw (r : Rng) : Z * Rng := randint 0 200 r.

Definition get_action (a : HeadlessAgent) (state : list Z) (r : Rng)
  : option (list Z * HeadlessAgent * Rng) :=
  let a := set_epsilon a (Z.max 5 (80 - n_game a)) in
  let final_move := [0; 0; 0] in
  let '(d, r1) := explore_draw r in
  if d <? epsilon a then
    let '(move, r2) := randint 0 2 r1 in
    final_move ← setitem final_move (Z.to_nat move) 1;
    Some (final_move, a, r2)
  else
    prediction ← forward (model a) state;
    move ← argmax fgtb prediction;
    final_move ← setitem final_move move 1;
    Some (final_move, a, r1).

Definition remember (a : HeadlessAgent) (t : Transition) : HeadlessAgent :=
  set_memory a (append (memory a) t).

Definition train_long_memory (fuel : nat) (a : HeadlessAgent) (r : Rng)
  : option (HeadlessAgent * Rng) :=
  '(sample, r') ← mini_sample fuel BATCH_SIZE (memory a) r;
  args ← unzip sample;
  net ← train_step (model a) (gamma a) args;
  Some (set_model a net, r').

Definition train_short_memory (a : HeadlessAgent) (t : Transition)
  : option HeadlessAgent :=
  net ← train_step (model a) (gamma a)
           (Single (t_state t) (t_action t) (t_reward t)
                   (t_next_state t) (t_done t));
  Some (set_model a net).
End Agent.

Arguments HeadlessAgent {_}.

End Agent.
Import Agent.

(** ** [train_ultra_fast]: the training loop *)
Module Loop.

Section Loop.
Context `{Tensors}.

Record Training := mkTraining {
  agent : HeadlessAgent;
  game : HeadlessGame;
  rng : Rng;
  game_counter : Z;
  scores : list Z;
  total_score : Z;
  record : Z
}.

(** The statements before [while True]. *)
Definition train_start (depth : nat) (net : Net) (r : Rng) : option Training :=
  '(g, r') ← init depth r;
  Some {| agent := new_agent net; game := g; rng := r';
          game_counter := 0; scores := []; total_score := 0; record := 0 |}.

(** One round of [while True] (printing and saving left out: they change
    nothing of the state).  [depth] bounds the nested calls of
    [_place_food] and [fuel] the draws of [random.sample]. *)
Definition train_iteration (depth fuel : nat) (t : Training)
  : option Training :=
  let game_counter := game_counter t + 1 in
  let a := set_n_game (agent t) (n_game (agent t) + 1) in
  state_old ← get_state (game t);
  '(action, a, r) ← get_action a state_old (rng t);
  '(reward, done, score, g, r) ← play_step_headless depth r (game t) action;
  let reward :=
    if (done : bool) then -10 else if 0 <? reward then 10 else reward in
  state_new ← get_state g;
  let tr := mkTransition state_old action reward state_new done in
  let a := remember a tr in
  a ← train_short_memory a tr;
  if done then
    '(g, r) ← reset depth r;
    '(a, r) ← train_long_memory fuel a r;
    let record := if record t <? score then score else record t in
    Some {| agent := a; game := g; rng := r; game_counter := game_counter;
            scores := scores t ++ [score];
            total_score := total_score t + score; record := record |}
  else
    Some {| agent := a; game := g; rng := r; game_counter := game_counter;
            scores := scores t; total_score := total_score t;
            record := record t |}.

Fixpoint train_iterations (depth fuel : nat) (n : nat) (t : Training)
  : option Training :=
  match n with
  | O => Some t
  | S n' =>
      t' ← train_iteration depth fuel t; train_iterations depth fuel n' t'
  end.

(** The episodes completed so far: one score is recorded per episode. *)
Definition completed_episodes (t : Training) : Z :=
  Z.of_nat (length (scores t)).
End Loop.

Arguments Training {_}.

End Loop.
Import Loop.

(** ** Vocabulary of the statements *)
Module Vocabulary.

(** The cell tried by the [n]-th attempt of [_place_food] (counted from 0)
    when the generator is [r] at its start. *)
Definition skip_cells (n : nat) (r : Rng) : Rng :=
  Nat.iter n (λ r', (draw_cell r').2) r.

Definition attempt (n : nat) (r : Rng) : Point := (draw_cell (skip_cells n r)).1.

(** The three canonical actions. *)
Definition one_hot (a : list Z) : Prop :=
  a = [1; 0; 0] ∨ a = [0; 1; 0] ∨ a = [0; 0; 1].

(** The index of the 1 of an action. *)
Definition hot (a : list Z) : nat := default 0%nat (argmax Z.gtb a).

(** The game-over condition of a step, in terms of the advanced game: the
    head is off the board of 640 x 480 (a block on the board has its corner
    at 0..620 by 0..460), or it is on another segment of the snake, or the
    frame counter is over 100 times the length of the snake. *)
Definition terminal (g1 : HeadlessGame) : Prop :=
  (x (head g1) < 0 ∨ x (head g1) > 620 ∨
   y (head g1) < 0 ∨ y (head g1) > 460) ∨
  head g1 ∈ drop 1 (snake g1) ∨
  frame_iteration g1 > 100 * Z.of_nat (length (snake g1)).

(** A snake that winds through the 24 rows of the board, from (0,0) along
    the first row, back along the second, and so on: cell [i] of its way,
    for [i] from 0 to 767. *)
Definition winding_cell (i : Z) : Point :=
  let row := i `div` 32 in
  let col := i `mod` 32 in
  mkPoint (BLOCK_SIZE * (if Z.even row then col else 31 - col))
          (BLOCK_SIZE * row).

(** The game in which that snake has 767 segments, its head on (20,460)
    heading LEFT, and the food is on the one cell left, (0,460). *)
Definition crowded_game : HeadlessGame :=
  {| direction := LEFT;
     head := winding_cell 766;
     snake := winding_cell <$> reverse (seqZ 0 767);
     score := 764;
     food := winding_cell 767;
     frame_iteration := 766 |}.

(** The positions of the population picked by [random.sample]. *)
Definition sample_positions (fuel n k : nat) (r : Rng) : option (list nat) :=
  fst <$> random_sample fuel (seq 0 n) k r.

(** The outcomes of the [k] calls of [randbelow] made by the pool of
    [random.sample] on a population of [n] items: call [i] draws from
    [0, n - i). *)
Fixpoint choices (n k : nat) (r : Rng) : list Z :=
  match k with
  | O => []
  | S k' => (randbelow (Z.of_nat n) r).1 :: choices (n - 1) k' (advance r)
  end.

(** The positions drawn by the next [m] calls of [randbelow n]. *)
Definition drawn (n m : nat) (r : Rng) : list nat :=
  (λ i, Z.to_nat (draws r (cursor r + i)%nat `mod` Z.of_nat n)) <$> seq 0 m.

(** The positions of [l] that are not in [seen], each one once, in the
    order of their first occurrence. *)
Fixpoint fresh (seen l : list nat) : list nat :=
  match l with
  | [] => []
  | j :: l' =>
      if bool_decide (j ∈ seen) then fresh seen l'
      else j :: fresh (j :: seen) l'
  end.

(** A random source is fair for [n] positions when, from any point on,
    each of them is drawn at some time. *)
Definition fair (n : nat) (r : Rng) : Prop :=
  ∀ c p, (p < n)%nat →
    ∃ i, (c ≤ i)%nat ∧ Z.to_nat (draws r i `mod` Z.of_nat n) = p.

(** [σ] renames the positions of a population of [n]. *)
Definition renaming (n : nat) (σ : nat → nat) : Prop :=
  (∀ p, (p < n)%nat → (σ p < n)%nat) ∧
  (∀ p q, (p < n)%nat → (q < n)%nat → σ p = σ q → p = q).

(** The source [r2] draws position [σ p] whenever [r1] draws [p]. *)
Definition renamed (n : nat) (σ : nat → nat) (r1 r2 : Rng) : Prop :=
  cursor r2 = cursor r1 ∧
  ∀ i, Z.to_nat (draws r2 i `mod` Z.of_nat n)
       = σ (Z.to_nat (draws r1 i `mod` Z.of_nat n)).

(** Arrangements: [k] pairwise distinct positions of a population of [n]. *)
Definition arrangement (n k : nat) (ps : list nat) : Prop :=
  length ps = k ∧ NoDup ps ∧ Forall (λ p, p < n)%nat ps.

(** The five columns of a sample of transitions. *)
Definition columns_of (sample : list Transition) : Columns :=
  mkColumns (t_state <$> sample) (t_action <$> sample) (t_reward <$> sample)
            (t_next_state <$> sample) (t_done <$> sample).

(** The value [Q_new] of one transition. *)
Definition q_of `{Tensors} (net : Net) (gamma : Scalar) (t : Transition)
  : option Scalar :=
  if t_done t then Some (of_int (t_reward t))
  else
    (out ← forward net (t_next_state t);
     best ← tmax fgtb out;
     Some (fadd (of_int (t_reward t)) (fmul gamma best))).

End Vocabulary.
Import Vocabulary.

(** ** Rational tensors

    An instance of the tensor interface that computes, used to run the code
    on concrete inputs: scalars are rationals, the network is a fixed table
    of three outputs per state (the sum of the state's entries shifts them),
    and the optimiser leaves it unchanged. *)
Module Rational.

Definition table_row (net : list Q) (s : list Z) : list Q :=
  let shift := inject_Z (foldr Z.add 0 s) in
  [Qred (nth 0 net 0%Q + shift)%Q; Qred (nth 1 net 0%Q)%Q;
   Qred (nth 2 net 0%Q - shift)%Q].

Definition table_forward (net : list Q) (s : list Z) : option (list Q) :=
  if bool_decide (length s = 11%nat) then Some (table_row net s) else None.

Definition table_forward_shape (net : list Q) (s : list Z) :
  length <$> table_forward net s
  = if bool_decide (length s = 11%nat) then Some 3%nat else None :=
  match bool_decide (length s = 11%nat) as b
    return length <$> (if b then Some (table_row net s) else None)
           = if b then Some 3%nat else None
  with
  | true => eq_refl
  | false => eq_refl
  end.

Definition rational_tensors : Tensors := {|
  Scalar := Q;
  of_int := inject_Z;
  fadd := λ a b, Qred (a + b)%Q;
  fmul := λ a b, Qred (a * b)%Q;
  fgtb := λ a b, negb (Qle_bool a b);
  float_0_9 := (9 # 10)%Q;
  Net := list Q;
  forward := table_forward;
  forward_shape := table_forward_shape;
  optimize := λ net _ _, net
|}.

End Rational.

(** ** [TrainedAgent.get_action]: the policy of the testing script *)
Module Trained.

(** Pure exploitation: the one-hot vector at the argmax of the forward
    pass; no random draw. *)
Definition get_action `{Tensors} (net : Net) (state : list Z)
  : option (list Z) :=
  let final_move := [0; 0; 0] in
  prediction ← forward net state;
  move ← argmax fgtb prediction;
  setitem final_move move 1.

End Trained.

(** ** Games in play, transitions and runs of the loop *)
Module Play.

Definition opposite (d : Direction) : Direction :=
  match d with
  | RIGHT => LEFT | LEFT => RIGHT | UP => DOWN | DOWN => UP
  end.

Definition turn_right (d : Direction) : Direction :=
  match d with
  | RIGHT => DOWN | DOWN => LEFT | LEFT => UP | UP => RIGHT
  end.

Definition turn_left (d : Direction) : Direction :=
  match d with
  | RIGHT => UP | UP => LEFT | LEFT => DOWN | DOWN => RIGHT
  end.

(** The cell one block from [p] in direction [d]. *)
Definition ahead (d : Direction) (p : Point) : Point :=
  match d with
  | RIGHT => mkPoint (x p + BLOCK_SIZE) (y p)
  | LEFT => mkPoint (x p - BLOCK_SIZE) (y p)
  | DOWN => mkPoint (x p) (y p + BLOCK_SIZE)
  | UP => mkPoint (x p) (y p - BLOCK_SIZE)
  end.

(** A cell of the grid: inside the 640 x 480 board and aligned on blocks. *)
Definition on_grid (p : Point) : Prop :=
  0 ≤ x p ≤ 640 - BLOCK_SIZE ∧ 0 ≤ y p ≤ 480 - BLOCK_SIZE ∧
  x p `mod` BLOCK_SIZE = 0 ∧ y p `mod` BLOCK_SIZE = 0.

(** The cell behind the head, against the direction of travel. *)
Definition behind (g : HeadlessGame) : Point :=
  match direction g with
  | RIGHT => mkPoint (x (head g) - BLOCK_SIZE) (y (head g))
  | LEFT => mkPoint (x (head g) + BLOCK_SIZE) (y (head g))
  | DOWN => mkPoint (x (head g)) (y (head g) - BLOCK_SIZE)
  | UP => mkPoint (x (head g)) (y (head g) + BLOCK_SIZE)
  end.

(** [playing n g]: [g] is the game [n] steps after [__init__] (or [reset]),
    none of these steps having ended it. *)
Inductive playing : nat → HeadlessGame → Prop :=
| playing_init depth r g r' :
    init depth r = Some (g, r') → playing 0 g
| playing_step n depth r g action reward sc g' r' :
    playing n g →
    play_step_headless depth r g action = Some ((reward, false, sc), g', r') →
    playing (S n) g'.

(** What a game in play keeps true. *)
Record sound (g : HeadlessGame) : Prop := {
  sound_head : snake g !! 0%nat = Some (head g);
  sound_neck : snake g !! 1%nat = Some (behind g);
  sound_long : (3 ≤ length (snake g))%nat;
  sound_simple : NoDup (snake g);
  sound_inside : Forall on_grid (snake g);
  sound_food : food g ∉ snake g;
  sound_food_grid : on_grid (food g);
  sound_score : score g = Z.of_nat (length (snake g)) - 3;
  sound_frame :
    0 ≤ frame_iteration g ≤ 100 * (Z.of_nat (length (snake g)) + 1)
}.

(** A transition as the loop records it. *)
Definition bits (v : list Z) : Prop :=
  length v = 11%nat ∧ Forall (λ z, z = 0 ∨ z = 1) v.

Record recorded (t : Transition) : Prop := {
  recorded_state : bits (t_state t);
  recorded_next : bits (t_next_state t);
  recorded_action : one_hot (t_action t);
  recorded_reward : t_reward t = -10 ∨ t_reward t = 0 ∨ t_reward t = 10;
  recorded_done : t_done t = true ↔ t_reward t = -10
}.

(** A transition that [train_step] takes in a batch: two states of 11
    entries and a canonical action. *)
Definition shaped (t : Transition) : Prop :=
  length (t_state t) = 11%nat ∧ length (t_next_state t) = 11%nat ∧
  one_hot (t_action t).

(** [training n t]: [t] is the state of [train_ultra_fast] after [n]
    rounds of its loop. *)
Inductive training `{Tensors} : nat → Training → Prop :=
| training_start depth net r t :
    train_start depth net r = Some t → training 0 t
| training_round n depth fuel t t' :
    training n t → train_iteration depth fuel t = Some t' →
    training (S n) t'.

(** What the loop keeps true, after [n] rounds. *)
Record steady `{Tensors} (n : nat) (t : Training) : Prop := {
  steady_game : ∃ m, (m ≤ n)%nat ∧ playing m (game t);
  steady_memory : Forall recorded (items (memory (agent t)));
  steady_maxlen : maxlen (memory (agent t)) = MAX_MEMORY;
  steady_stored :
    length (items (memory (agent t))) = Nat.min n MAX_MEMORY;
  steady_n_game : n_game (agent t) = Z.of_nat n;
  steady_counter : game_counter t = Z.of_nat n;
  steady_total : total_score t = foldr Z.add 0 (scores t);
  steady_record : record t = foldr Z.max 0 (scores t);
  steady_scores : Forall (λ s, 0 ≤ s ≤ 765) (scores t);
  steady_episodes : (length (scores t) ≤ n)%nat;
  steady_epsilon :
    epsilon (agent t)
    = match n with O => 0 | S _ => Z.max 5 (80 - Z.of_nat n) end
}.

End Play.
Import Play.

(** ** Two runs of the loop, used as examples *)
Module Example.

(** A network whose first output is the largest on every encoded state (a
    state has at least one 1, that of the heading): whenever the policy
    exploits, the snake goes straight. *)
Definition straight_net : @Net Rational.rational_tensors :=
  [1 # 2; 1 # 4; 1 # 8]%Q.

(** A random source that puts the first food on (340,240), one step ahead
    of the snake, and draws 150 ever after: the policy always exploits and
    every later food is on (440,120). *)
Definition steady_source : Rng := mkRng (λ i, nth i [17; 12] 150) 0.

(** The loop started on that source, [n] rounds later. *)
Definition steady_run (n : nat)
  : option (@Training Rational.rational_tensors) :=
  train_start 1 straight_net steady_source ≫= train_iterations 1 0 n.



End Example.

(** * Properties *)

(** ** The random source *)
Section RandomFacts.

Lemma randint_range a b r : a ≤ b → a ≤ (randint a b r).1 ≤ b.
Proof.
  intros Hab. unfold randint, randbelow. simpl.
  pose proof (Z.mod_pos_bound (draws r (cursor r)) (b - a + 1)). lia.
Qed.

Lemma randint_rng a b r : (randint a b r).2 = advance r.
Proof. reflexivity. Qed.

(** Every value of the range is the outcome of some generator. *)
Lemma randint_any a b v k : a ≤ v ≤ b → (randint a b (mkRng (λ _, v - a) k)).1 = v.
Proof.
  intros Hv. unfold randint, randbelow. simpl.
  rewrite Z.mod_small by lia. lia.
Qed.

End RandomFacts.

(** ** The environment *)
Section GameFacts.

Lemma index_clock_wise d : (index d clock_wise < 4)%nat.
Proof. destruct d; vm_compute; lia. Qed.

Lemma out_of_bounds_spec pt :
  out_of_bounds pt = true ↔ x pt > 620 ∨ x pt < 0 ∨ y pt > 460 ∨ y pt < 0.
Proof.
  unfold out_of_bounds, BLOCK_SIZE. rewrite !orb_true_iff, !Z.ltb_lt. lia.
Qed.

Lemma game_over_terminal g : game_over g = true ↔ terminal g.
Proof.
  unfold game_over, terminal, is_collision. simpl.
  rewrite orb_true_iff, Z.ltb_lt.
  pose proof (out_of_bounds_spec (head g)) as Hb.
  destruct (out_of_bounds (head g)) eqn:Hout.
  - split; intros _; [left | left; reflexivity].
    destruct Hb as [Hb _]. specialize (Hb eq_refl). lia.
  - assert (Hin_board : ¬ (x (head g) < 0 ∨ x (head g) > 620 ∨
                           y (head g) < 0 ∨ y (head g) > 460)).
    { intros Hc. destruct Hb as [_ Hb]. discriminate Hb. lia. }
    case_bool_decide as Hin; split.
    + intros _. right. left. exact Hin.
    + intros _. left. reflexivity.
    + intros [Hf | Hf]; [discriminate | right; right; lia].
    + intros [Hf | [Hf | Hf]]; [contradiction | contradiction | right; lia].
Qed.

Lemma skip_cells_succ n r : skip_cells (S n) r = skip_cells n (draw_cell r).2.
Proof.
  unfold skip_cells. induction n as [| n IH]; [reflexivity |].
  simpl in *. now rewrite IH.
Qed.

Lemma attempt_succ n r : attempt (S n) r = attempt n (draw_cell r).2.
Proof. unfold attempt. now rewrite skip_cells_succ. Qed.

(** A returned food cell is never on the body it was placed against. *)
Lemma place_food_free depth r body f r' :
  _place_food depth r body = Some (f, r') → f ∉ body.
Proof.
  revert r. induction depth as [| d IH]; intros r; [discriminate |].
  cbn [_place_food]. destruct (draw_cell r) as [c r1].
  case_bool_decide as Hin.
  - apply IH.
  - intros [= <- <-]. exact Hin.
Qed.

(** [_place_food] returns as soon as one of the attempts the interpreter's
    call depth allows for draws a free cell. *)
Lemma place_food_found depth r body n :
  (n < depth)%nat → attempt n r ∉ body →
  ∃ f r', _place_food depth r body = Some (f, r') ∧ f ∉ body.
Proof.
  revert r n. induction depth as [| d IH]; intros r n Hn Hfree; [lia |].
  cbn [_place_food]. destruct (draw_cell r) as [c r1] eqn:Hc.
  case_bool_decide as Hin.
  - destruct n as [| n].
    + change (attempt 0 r) with (draw_cell r).1 in Hfree.
      rewrite Hc in Hfree. simpl in Hfree. contradiction.
    + rewrite attempt_succ, Hc in Hfree. simpl in Hfree.
      apply (IH r1 n); [lia | exact Hfree].
  - eauto.
Qed.

(** Every cell of the grid is drawn by a suitable generator, so a free cell
    can be found at the first attempt whenever there is one. *)
Lemma draw_cell_any cx cy :
  0 ≤ cx ≤ 31 → 0 ≤ cy ≤ 23 →
  (draw_cell (rng_of [cx; cy])).1 = mkPoint (cx * 20) (cy * 20).
Proof.
  intros Hx Hy. unfold draw_cell, randint, randbelow, BLOCK_SIZE. simpl.
  change ((640 - 20) `div` 20 - 0 + 1) with 32.
  change ((480 - 20) `div` 20 - 0 + 1) with 24.
  rewrite !Z.mod_small by lia. reflexivity.
Qed.

Lemma advance_head_frame g action :
  frame_iteration (advance_head g action) = frame_iteration g + 1.
Proof. reflexivity. Qed.

Lemma advance_head_snake g action :
  snake (advance_head g action) = head (advance_head g action) :: snake g.
Proof. reflexivity. Qed.

Lemma advance_head_score g action : score (advance_head g action) = score g.
Proof. reflexivity. Qed.

Lemma advance_head_food g action : food (advance_head g action) = food g.
Proof. reflexivity. Qed.

(** C6: a step returns [done = True] exactly when the new head is outside
    the grid, or on a segment of the snake other than the head just
    inserted, or the frame counter (this step counted) exceeds 100 times the
    length of the snake (new head included); it then returns the reward -1,
    [done = True] and the score it had before the step. *)
Theorem step_terminal_iff depth r g action :
  let g1 := advance_head g action in
  (frame_iteration g1 = frame_iteration g + 1 ∧
   snake g1 = head g1 :: snake g) ∧
  (terminal g1 →
   play_step_headless depth r g action = Some ((-1, true, score g), g1, r)) ∧
  (∀ reward done sc g' r',
     play_step_headless depth r g action = Some ((reward, done, sc), g', r') →
     (done = true ↔ terminal g1)).
Proof.
  intros g1. split; [split; reflexivity |].
  unfold play_step_headless. fold g1.
  destruct (game_over g1) eqn:Hover.
  - split.
    + intros _. reflexivity.
    + intros reward done sc g' r' [= <- <- <- <- <-].
      split; [intros _; now apply game_over_terminal | reflexivity].
  - assert (Hnot : ¬ terminal g1).
    { rewrite <- game_over_terminal, Hover. discriminate. }
    split; [intros Ht; contradiction |].
    intros reward done sc g' r'. case_bool_decide as Hfood.
    + destruct (_place_food depth r (snake g1)) as [[f r2] |]; simpl;
        [| discriminate].
      intros [= <- <- <- <- <-]. split; [discriminate | contradiction].
    + intros [= <- <- <- <- <-]. split; [discriminate | contradiction].
Qed.

Lemma step_terminal_iff_witness :
  let g := mkGame LEFT (mkPoint 0 240)
                  [mkPoint 0 240; mkPoint 20 240; mkPoint 40 240]
                  2 (mkPoint 100 100) 7 in
  terminal (advance_head g [1; 0; 0]) ∧
  play_step_headless 1 (rng_of []) g [1; 0; 0]
  = Some ((-1, true, 2), advance_head g [1; 0; 0], rng_of []).
Proof.
  intros g.
  assert (Ht : terminal (advance_head g [1; 0; 0])).
  { left. left. vm_compute. reflexivity. }
  split; [exact Ht |].
  exact (proj1 (proj2 (step_terminal_iff 1 (rng_of []) g [1; 0; 0])) Ht).
Defined.

Lemma draw_cell_on_grid r : on_grid (draw_cell r).1.
Proof.
  unfold draw_cell, randint, randbelow, on_grid, BLOCK_SIZE. cbn.
  change ((640 - 20) `div` 20 - 0 + 1) with 32.
  change ((480 - 20) `div` 20 - 0 + 1) with 24.
  pose proof (Z.mod_pos_bound (draws r (cursor r)) 32 ltac:(lia)).
  pose proof (Z.mod_pos_bound (draws r (S (cursor r))) 24 ltac:(lia)).
  rewrite !Z.mod_mul by lia. lia.
Qed.

Lemma place_food_on_grid depth r body f r' :
  _place_food depth r body = Some (f, r') → on_grid f.
Proof.
  revert r. induction depth as [| d IH]; intros r; [discriminate |].
  cbn [_place_food]. pose proof (draw_cell_on_grid r) as Hgrid.
  destruct (draw_cell r) as [c r1]. case_bool_decide as Hin.
  - apply IH.
  - intros [= <- <-]. exact Hgrid.
Qed.

(** A returned food cell is the cell of one of the attempts made. *)
Lemma place_food_attempt depth r body f r' :
  _place_food depth r body = Some (f, r') →
  ∃ n, (n < depth)%nat ∧ attempt n r = f.
Proof.
  revert r. induction depth as [| d IH]; intros r; [discriminate |].
  cbn [_place_food]. destruct (draw_cell r) as [c r1] eqn:Hc.
  case_bool_decide as Hin.
  - intros Hrec. destruct (IH r1 Hrec) as (n & Hn & Ha).
    exists (S n). split; [lia |]. now rewrite attempt_succ, Hc.
  - intros [= <- <-]. exists 0%nat. split; [lia |].
    change (attempt 0 r) with (draw_cell r).1. now rewrite Hc.
Qed.

(** On a snake that covers the grid every attempt draws a cell of the
    snake: the placement never returns. *)
Lemma place_food_crowded depth r body :
  (∀ c, on_grid c → c ∈ body) → _place_food depth r body = None.
Proof.
  intros Hfull. revert r. induction depth as [| d IH]; intros r;
    [reflexivity |].
  cbn [_place_food]. pose proof (draw_cell_on_grid r) as Hg.
  destruct (draw_cell r) as [c r1].
  rewrite bool_decide_eq_true_2 by (apply Hfull, Hg). apply IH.
Qed.

Lemma on_grid_cell c :
  on_grid c →
  ∃ cx cy, 0 ≤ cx ≤ 31 ∧ 0 ≤ cy ≤ 23 ∧ c = mkPoint (cx * 20) (cy * 20).
Proof.
  destruct c as [px py]. unfold on_grid, BLOCK_SIZE. cbn [x y].
  intros (Hx & Hy & Hmx & Hmy).
  exists (px `div` 20), (py `div` 20).
  pose proof (Z.div_mod px 20 ltac:(lia)).
  pose proof (Z.div_mod py 20 ltac:(lia)).
  repeat split; try (f_equal; lia);
    first [apply Z.div_pos; lia | apply Z.div_le_upper_bound; lia].
Qed.

(** A free cell of the grid is the cell of the first attempt of a suitable
    random source. *)
Lemma place_food_reaches depth body c :
  on_grid c → c ∉ body → (0 < depth)%nat →
  ∃ r0 r', _place_food depth r0 body = Some (c, r').
Proof.
  intros Hgrid Hfree Hd. destruct depth as [| d]; [lia |].
  destruct (on_grid_cell c Hgrid) as (cx & cy & Hx & Hy & ->).
  exists (rng_of [cx; cy]). cbn [_place_food].
  pose proof (draw_cell_any cx cy Hx Hy) as Hdraw.
  destruct (draw_cell (rng_of [cx; cy])) as [c' r1]. simpl in Hdraw.
  subst c'. rewrite bool_decide_eq_false_2 by exact Hfree. eauto.
Qed.

Lemma winding_on_grid i : 0 ≤ i < 768 → on_grid (winding_cell i).
Proof.
  intros Hi. unfold winding_cell, on_grid, BLOCK_SIZE. cbn [x y].
  pose proof (Z.mod_pos_bound i 32 ltac:(lia)).
  assert (0 ≤ i `div` 32) by (apply Z.div_pos; lia).
  assert (i `div` 32 < 24) by (apply Z.div_lt_upper_bound; lia).
  rewrite !(Z.mul_comm 20), !Z.mod_mul by lia.
  destruct (Z.even (i `div` 32)); lia.
Qed.

Lemma crowded_game_sound : sound crowded_game.
Proof.
  split.
  - vm_compute. reflexivity.
  - vm_compute. reflexivity.
  - replace (length (snake crowded_game)) with 767%nat
      by (vm_compute; reflexivity).
    lia.
  - apply (bool_decide_unpack _). vm_compute. exact I.
  - unfold crowded_game. cbn [snake]. apply list.Forall_forall.
    intros p Hp. apply list_elem_of_fmap in Hp as (i & -> & Hi).
    rewrite elem_of_reverse, elem_of_seqZ in Hi.
    apply winding_on_grid. lia.
  - apply (bool_decide_eq_false_1 _). vm_compute. reflexivity.
  - apply winding_on_grid. lia.
  - vm_compute. reflexivity.
  - vm_compute. split; intros Hc; discriminate Hc.
Qed.

(** After the step onto the food the snake of [crowded_game] is on every
    cell of the grid. *)
Lemma crowded_board_full c :
  on_grid c → c ∈ snake (advance_head crowded_game [1; 0; 0]).
Proof.
  intros Hgrid. destruct (on_grid_cell c Hgrid) as (cx & cy & Hx & Hy & ->).
  assert (Hall :
    Forall (λ cx, Forall (λ cy, mkPoint (cx * 20) (cy * 20)
                                ∈ snake (advance_head crowded_game [1; 0; 0]))
                         (seqZ 0 24)) (seqZ 0 32)).
  { apply (bool_decide_unpack _). vm_compute. exact I. }
  rewrite list.Forall_forall in Hall.
  specialize (Hall cx ltac:(apply elem_of_seqZ; lia)).
  rewrite list.Forall_forall in Hall.
  apply Hall, elem_of_seqZ. lia.
Qed.

(** C5, as stated, fails on a board that the step fills.  In
    [crowded_game] the snake is on every cell but the one of the food, one
    step ahead of its head, and the game has all that a game in play has.
    The step onto the food is not terminal and puts the head on the food;
    but no cell is left for the new food, every attempt of [_place_food]
    draws a cell of the snake, and the step returns nothing, whatever the
    call depth and the random source: no reward, no new food. *)
Lemma crowded_step_never_returns :
  let g := crowded_game in
  let g1 := advance_head g [1; 0; 0] in
  sound g ∧ length (snake g) = 767%nat ∧
  ¬ terminal g1 ∧ head g1 = food g ∧
  ∀ depth r, play_step_headless depth r g [1; 0; 0] = None.
Proof.
  intros g g1.
  assert (Hover : game_over g1 = false) by (vm_compute; reflexivity).
  split; [exact crowded_game_sound |].
  split; [vm_compute; reflexivity |].
  split; [rewrite <- game_over_terminal, Hover; discriminate |].
  split; [vm_compute; reflexivity |].
  intros depth r. unfold play_step_headless. fold g g1. rewrite Hover.
  rewrite bool_decide_eq_true_2 by (vm_compute; reflexivity).
  rewrite (place_food_crowded depth r (snake g1) crowded_board_full).
  reflexivity.
Qed.

(** C5 (amended): take a step that is not terminal and whose new head is on
    the food.  It returns exactly when one of the attempts of [_place_food]
    that fit in the interpreter's call depth draws a cell off the snake
    (new head included).  When it returns, it returns the reward 10,
    [done = False] and the score plus 1, the new food is on a cell of the
    grid that is not on the snake, and the tail is kept: the snake is one
    segment longer.  Every free cell of the grid is the new food for some
    random source; and when the snake leaves no cell free, the step does
    not return. *)
Theorem step_eats_food depth r g action :
  let g1 := advance_head g action in
  ¬ terminal g1 → head g1 = food g →
  (is_Some (play_step_headless depth r g action) ↔
   ∃ n, (n < depth)%nat ∧ attempt n r ∉ snake g1) ∧
  (∀ res g' r',
     play_step_headless depth r g action = Some (res, g', r') →
     res = (10, false, score g + 1) ∧
     score g' = score g + 1 ∧
     (food g' ∉ snake g') ∧ on_grid (food g') ∧
     snake g' = head g1 :: snake g ∧
     length (snake g') = S (length (snake g))) ∧
  (∀ c, on_grid c → c ∉ snake g1 → (0 < depth)%nat →
     ∃ r0 g' r',
       play_step_headless depth r0 g action
       = Some ((10, false, score g + 1), g', r') ∧
       food g' = c ∧ snake g' = head g1 :: snake g) ∧
  ((∀ c, on_grid c → c ∈ snake g1) →
   play_step_headless depth r g action = None).
Proof.
  intros g1 Hnot Hfood.
  assert (Hover : game_over g1 = false).
  { apply not_true_iff_false. now rewrite game_over_terminal. }
  assert (Hstep : ∀ r0,
    play_step_headless depth r0 g action
    = '(f, r') ← _place_food depth r0 (snake g1);
      Some ((10, false, score g + 1), with_food g1 (score g + 1) f, r')).
  { intros r0. unfold play_step_headless. fold g1. rewrite Hover.
    rewrite bool_decide_eq_true_2 by exact Hfood. reflexivity. }
  split; [| split; [| split]].
  - rewrite Hstep. split.
    + intros [res Hres].
      destruct (_place_food depth r (snake g1)) as [[f r'] |] eqn:Hplace;
        [| discriminate].
      destruct (place_food_attempt _ _ _ _ _ Hplace) as (n & Hn & Ha).
      exists n. split; [exact Hn |]. rewrite Ha.
      eapply place_food_free, Hplace.
    + intros (n & Hn & Hfree).
      destruct (place_food_found depth r (snake g1) n Hn Hfree)
        as (f & r' & Hplace & _).
      rewrite Hplace. simpl. eauto.
  - intros res g' r'. rewrite Hstep.
    destruct (_place_food depth r (snake g1)) as [[f r2] |] eqn:Hplace;
      [| discriminate].
    simpl. intros [= <- <- <-].
    split; [reflexivity |]. split; [reflexivity |].
    split; [eapply place_food_free, Hplace |].
    split; [eapply place_food_on_grid, Hplace |].
    split; reflexivity.
  - intros c Hgrid Hfree Hd.
    destruct (place_food_reaches depth (snake g1) c Hgrid Hfree Hd)
      as (r0 & r' & Hplace).
    exists r0, (with_food g1 (score g + 1) c), r'.
    rewrite Hstep, Hplace. repeat split.
  - intros Hfull. rewrite Hstep.
    now rewrite (place_food_crowded depth r (snake g1) Hfull).
Qed.

Lemma step_eats_food_witness :
  let g := initial_game (mkPoint 340 240) in
  let g1 := advance_head g [1; 0; 0] in
  let r := rng_of [3; 4] in
  ¬ terminal g1 ∧ head g1 = food g ∧
  play_step_headless 1 r g [1; 0; 0]
  = Some ((10, false, 1), with_food g1 1 (mkPoint 60 80), advance (advance r)) ∧
  ∃ n, (n < 1)%nat ∧ attempt n r ∉ snake g1.
Proof.
  intros g g1 r.
  assert (Hnot : ¬ terminal g1).
  { rewrite <- game_over_terminal. vm_compute. discriminate. }
  assert (Hfood : head g1 = food g) by reflexivity.
  assert (Hstep : play_step_headless 1 r g [1; 0; 0]
                  = Some ((10, false, 1), with_food g1 1 (mkPoint 60 80),
                          advance (advance r)))
    by reflexivity.
  split; [exact Hnot |]. split; [exact Hfood |]. split; [exact Hstep |].
  apply (proj1 (proj1 (step_eats_food 1 r g [1; 0; 0] Hnot Hfood))).
  rewrite Hstep. eauto.
Defined.

(** The scenario state: the snake as [__init__] builds it, with the food on
    [f]. *)
Lemma initial_game_snake f :
  snake (initial_game f) = [mkPoint 320 240; mkPoint 300 240; mkPoint 280 240]
  ∧ direction (initial_game f) = RIGHT ∧ frame_iteration (initial_game f) = 0.
Proof. repeat split. Qed.

(** C4, as stated, fails when the food lies on the cell below the head: the
    game as [__init__] builds it can have its food on (320,260), and turning
    right then eats it, with reward 10 and a snake of four segments. *)
Lemma scenario_turn_right_onto_food :
  init 1 (rng_of [16; 13])
  = Some (initial_game (mkPoint 320 260), advance (advance (rng_of [16; 13])))
  ∧ ∃ g' r',
      play_step_headless 1 (rng_of [0; 0]) (initial_game (mkPoint 320 260))
                         [0; 1; 0]
      = Some ((10, false, 1), g', r')
      ∧ length (snake g') = 4%nat.
Proof.
  split; [reflexivity |].
  eexists _, _. split; [vm_compute; reflexivity | reflexivity].
Qed.

(** C4 (amended): on the initial snake heading RIGHT, with the food anywhere
    but on (320,260), the action [0,1,0] is decoded to DOWN (one position
    further in the clockwise order), and the step moves the head to
    (320,260) without collision, returns reward 0, [done = False], and pops
    the tail: the snake keeps three segments. *)
Theorem scenario_turn_right depth r f :
  f ≠ mkPoint 320 260 →
  let g := initial_game f in
  nth (Z.to_nat ((Z.of_nat (index (direction g) clock_wise) + 1) `mod` 4))
      clock_wise RIGHT = DOWN ∧
  direction (_move g [0; 1; 0]) = DOWN ∧
  head (advance_head g [0; 1; 0]) = mkPoint 320 260 ∧
  is_collision (advance_head g [0; 1; 0]) None = false ∧
  play_step_headless depth r g [0; 1; 0]
  = Some ((0, false, 0),
          mkGame DOWN (mkPoint 320 260)
                 [mkPoint 320 260; mkPoint 320 240; mkPoint 300 240]
                 0 f 1,
          r).
Proof.
  intros Hf g. repeat split.
  unfold play_step_headless.
  replace (game_over (advance_head g [0; 1; 0])) with false
    by (vm_compute; reflexivity).
  rewrite bool_decide_eq_false_2; [reflexivity |].
  intros Heq. apply Hf. symmetry. exact Heq.
Qed.

Lemma scenario_turn_right_witness :
  mkPoint 100 100 ≠ mkPoint 320 260 ∧
  play_step_headless 1 (rng_of []) (initial_game (mkPoint 100 100)) [0; 1; 0]
  = Some ((0, false, 0),
          mkGame DOWN (mkPoint 320 260)
                 [mkPoint 320 260; mkPoint 320 240; mkPoint 300 240]
                 0 (mkPoint 100 100) 1,
          rng_of []).
Proof.
  assert (Hne : mkPoint 100 100 ≠ mkPoint 320 260) by discriminate.
  split; [exact Hne |].
  exact (proj2 (proj2 (proj2 (proj2
    (scenario_turn_right 1 (rng_of []) (mkPoint 100 100) Hne))))).
Defined.

End GameFacts.

(** ** The state encoder *)
Section EncoderFacts.
Context `{GameLike G}.

Lemma get_state_total (game : G) :
  game_snake game ≠ [] → is_Some (get_state game).
Proof.
  intros Hne. unfold get_state.
  destruct (game_snake game) as [| h t]; [contradiction |].
  simpl. eauto.
Qed.

(** C10: in the encoded state of a game heading LEFT or RIGHT, the entry
    of index 1 is 0; it is 1 only in a game heading UP or DOWN. *)
Theorem danger_right_gated (game : G) (state : list Z) :
  get_state game = Some state →
  (game_direction game = LEFT ∨ game_direction game = RIGHT →
   state !! 1%nat = Some 0) ∧
  (state !! 1%nat = Some 1 →
   game_direction game = UP ∨ game_direction game = DOWN).
Proof.
  unfold get_state. destruct (game_snake game !! 0%nat) as [h |]; simpl;
    [| discriminate].
  intros [= <-]. simpl.
  destruct (game_direction game) eqn:Hdir; simpl;
    (split; [intros [Hd | Hd]; try discriminate; reflexivity |]);
    intros Hone; try discriminate; auto.
Qed.
End EncoderFacts.

Lemma danger_right_gated_witness :
  let g := mkGame RIGHT (mkPoint 620 240)
                  [mkPoint 620 240; mkPoint 600 240; mkPoint 580 240]
                  0 (mkPoint 100 100) 15 in
  get_state g = Some [1; 0; 0; 0; 1; 0; 0; 1; 0; 1; 0] ∧
  ((direction g = LEFT ∨ direction g = RIGHT →
    [1; 0; 0; 0; 1; 0; 0; 1; 0; 1; 0] !! 1%nat = Some 0) ∧
   ([1; 0; 0; 0; 1; 0; 0; 1; 0; 1; 0] !! 1%nat = Some 1 →
    direction g = UP ∨ direction g = DOWN)).
Proof.
  intros g.
  assert (Hs : get_state g = Some [1; 0; 0; 0; 1; 0; 0; 1; 0; 1; 0])
    by (vm_compute; reflexivity).
  split; [exact Hs |].
  exact (danger_right_gated g _ Hs).
Defined.

(** ** The replay memory *)
Section MemoryFacts.
Context {A : Type}.
Implicit Types (d : deque A) (v : A) (xs : list A).

Lemma append_maxlen d v : maxlen (append d v) = maxlen d.
Proof. reflexivity. Qed.

Lemma append_items d v :
  items (append d v)
  = if bool_decide (maxlen d < length (items d ++ [v]))%nat
    then drop 1 (items d ++ [v]) else items d ++ [v].
Proof. reflexivity. Qed.

Lemma foldl_append_maxlen d xs : maxlen (foldl append d xs) = maxlen d.
Proof.
  revert d. induction xs as [| v xs IH]; intros d; [reflexivity |].
  simpl. now rewrite IH.
Qed.

Lemma append_bounded d v :
  (length (items d) ≤ maxlen d)%nat →
  (length (items (append d v)) ≤ maxlen d)%nat.
Proof.
  intros Hd. unfold append. simpl. case_bool_decide as Hlt.
  - rewrite length_drop, length_app. simpl. lia.
  - lia.
Qed.

Lemma foldl_append_bounded d xs :
  (length (items d) ≤ maxlen d)%nat →
  (length (items (foldl append d xs)) ≤ maxlen d)%nat.
Proof.
  revert d. induction xs as [| v xs IH]; intros d Hd; [exact Hd |].
  simpl. rewrite <- (append_maxlen d v). apply IH.
  rewrite append_maxlen. now apply append_bounded.
Qed.

(** After any pushes into a new deque, it holds the last [maxlen] of
    them, oldest first. *)
Lemma foldl_append_items (C : nat) xs :
  items (foldl append (new_deque C) xs) = drop (length xs - C) xs.
Proof.
  induction xs as [| v xs IH] using rev_ind; [reflexivity |].
  rewrite foldl_app. cbn [foldl].
  rewrite append_items, foldl_append_maxlen, IH.
  change (maxlen (new_deque C)) with C.
  rewrite !length_app, length_drop. simpl length.
  case_bool_decide as Hlt.
  - rewrite <- drop_app_le by lia. rewrite drop_drop. f_equal. lia.
  - replace (length xs - C)%nat with 0%nat by lia.
    replace (length xs + 1 - C)%nat with 0%nat by lia.
    reflexivity.
Qed.

(** C8: whatever is pushed, a deque that is within its capacity stays
    within it; and [C + 1] pushes into a new deque of capacity [C] leave
    exactly the [C] transitions pushed after the first, in the order of
    their insertion: the first one pushed has been dropped. *)
Theorem replay_buffer_fifo (C : nat) :
  (∀ d xs, maxlen d = C → (length (items d) ≤ C)%nat →
           (length (items (foldl append d xs)) ≤ C)%nat) ∧
  (∀ xs, (length (items (foldl append (new_deque C) xs)) ≤ C)%nat) ∧
  (∀ x0 xs, length xs = C →
            items (foldl append (new_deque C) (x0 :: xs)) = xs) ∧
  (∀ x0 xs, length xs = C → x0 ∉ xs →
            x0 ∉ items (foldl append (new_deque C) (x0 :: xs))).
Proof.
  assert (Hfifo : ∀ x0 xs, length xs = C →
            items (foldl append (new_deque C) (x0 :: xs)) = xs).
  { intros x0 xs Hlen. rewrite foldl_append_items. simpl length.
    replace (S (length xs) - C)%nat with 1%nat by lia. reflexivity. }
  repeat split.
  - intros d xs <- Hd. now apply foldl_append_bounded.
  - intros xs. apply (foldl_append_bounded (new_deque C)). simpl. lia.
  - exact Hfifo.
  - intros x0 xs Hlen Hnew. now rewrite Hfifo.
Qed.
End MemoryFacts.

Lemma replay_buffer_fifo_witness :
  length [20; 30] = 2%nat ∧
  items (foldl append (new_deque 2) [10; 20; 30]) = [20; 30].
Proof.
  assert (Hlen : length [20; 30] = 2%nat) by reflexivity.
  split; [exact Hlen |].
  exact (proj1 (proj2 (proj2 (replay_buffer_fifo 2))) 10 [20; 30] Hlen).
Defined.

(** ** Sampling from the replay memory *)
Section SamplingFacts.

(** [random.sample] treats the items of the population alike: sampling
    commutes with renaming them. *)
Lemma sample_pool_fmap {A B} (f : A → B) k (pool : list A) r :
  sample_pool k (f <$> pool) r
  = prod_map (fmap (M := list) f) (@id Rng) <$> sample_pool k pool r.
Proof.
  revert pool r. induction k as [| k IH]; intros pool r; [reflexivity |].
  cbn [sample_pool]. rewrite length_fmap.
  destruct (randbelow (Z.of_nat (length pool)) r) as [j r1].
  rewrite !list_lookup_fmap.
  destruct (pool !! Z.to_nat j) as [a |]; [| reflexivity].
  destruct (pool !! (length pool - 1)%nat) as [z |]; [| reflexivity].
  simpl. rewrite <- list_fmap_insert, <- fmap_take, IH.
  destruct (sample_pool k _ r1) as [[rest r2] |]; reflexivity.
Qed.

Lemma fmap_lookup_seq {A} (l : list A) :
  Some <$> l = (l !!.) <$> seq 0 (length l).
Proof.
  apply list_eq. intros i. rewrite !list_lookup_fmap.
  destruct (decide (i < length l)%nat) as [Hi | Hi].
  - rewrite lookup_seq_lt by exact Hi. simpl.
    destruct (lookup_lt_is_Some_2 l i Hi) as [a Ha]. now rewrite Ha.
  - rewrite lookup_seq_ge by lia. rewrite lookup_ge_None_2 by lia.
    reflexivity.
Qed.

(** One round: the item taken and the items left are the pool. *)
Lemma swap_remove_perm {A} (pool : list A) j a z :
  pool !! j = Some a → pool !! (length pool - 1)%nat = Some z →
  pool ≡ₚ a :: take (length pool - 1) (<[j := z]> pool).
Proof.
  intros Hj Hz.
  assert (Hlt : (j < length pool)%nat) by (eapply lookup_lt_Some; eauto).
  destruct (decide (j = length pool - 1)%nat) as [-> | Hne].
  - rewrite list_insert_id by exact Hz.
    rewrite <- (take_drop_middle pool (length pool - 1) z Hz) at 1.
    rewrite Hj in Hz. injection Hz as ->.
    rewrite drop_ge by lia.
    symmetry. apply Permutation_cons_append.
  - rewrite take_insert_lt by lia.
    set (front := take (length pool - 1) pool).
    assert (Hfj : front !! j = Some a).
    { unfold front. rewrite lookup_take_lt by lia. exact Hj. }
    rewrite <- (take_drop_middle pool (length pool - 1) z Hz) at 1.
    rewrite drop_ge by lia. fold front.
    rewrite <- (take_drop_middle front j a Hfj) at 1.
    rewrite insert_take_drop
      by (unfold front; rewrite length_take; lia).
    rewrite <- !app_assoc. simpl.
    rewrite <- Permutation_middle. apply perm_skip.
    apply Permutation_app_head.
    rewrite <- Permutation_cons_append. reflexivity.
Qed.

Lemma randbelow_range n r : 0 < n → 0 ≤ (randbelow n r).1 < n.
Proof. intros Hn. unfold randbelow. simpl. now apply Z.mod_pos_bound. Qed.

Lemma sample_pool_succ {A} k (pool : list A) r :
  sample_pool (S k) pool r
  = (a ← pool !! Z.to_nat (randbelow (Z.of_nat (length pool)) r).1;
     z ← pool !! (length pool - 1)%nat;
     '(rest, r2) ← sample_pool k
        (take (length pool - 1)
           (<[Z.to_nat (randbelow (Z.of_nat (length pool)) r).1 := z]> pool))
        (advance r);
     Some (a :: rest, r2)).
Proof. reflexivity. Qed.

(** What one round does to a pool without duplicates. *)
Lemma swap_remove_NoDup {A} (pool : list A) j a z :
  NoDup pool → pool !! j = Some a →
  pool !! (length pool - 1)%nat = Some z →
  let pool' := take (length pool - 1) (<[j := z]> pool) in
  NoDup pool' ∧ (a ∉ pool') ∧ length pool = S (length pool') ∧
  (∀ p, p ∈ pool ↔ p = a ∨ p ∈ pool').
Proof.
  intros Hnd Hj Hz pool'.
  pose proof (swap_remove_perm pool j a z Hj Hz) as Hperm. fold pool' in Hperm.
  rewrite Hperm in Hnd. apply list.NoDup_cons in Hnd as [Ha Hnd'].
  repeat split; try assumption.
  - now rewrite (Permutation_length Hperm).
  - intros Hp. rewrite Hperm in Hp. now apply elem_of_cons in Hp.
  - intros Hp. rewrite Hperm. now apply elem_of_cons.
Qed.

(** [random.sample] never fails on a population that is large enough, and
    picks pairwise distinct items of it. *)
Lemma sample_pool_arrangement {A} k (pool : list A) r :
  NoDup pool → (k ≤ length pool)%nat →
  ∃ ps r', sample_pool k pool r = Some (ps, r') ∧
           length ps = k ∧ NoDup ps ∧ ps ⊆ pool.
Proof.
  revert pool r. induction k as [| k IH]; intros pool r Hnd Hk.
  { exists [], r. repeat split; [constructor | apply list_subseteq_nil]. }
  rewrite sample_pool_succ.
  set (j := Z.to_nat (randbelow (Z.of_nat (length pool)) r).1).
  assert (Hj : (j < length pool)%nat).
  { pose proof (randbelow_range (Z.of_nat (length pool)) r). lia. }
  destruct (lookup_lt_is_Some_2 pool j Hj) as [a Ha].
  destruct (lookup_lt_is_Some_2 pool (length pool - 1)) as [z Hz]; [lia |].
  rewrite Ha, Hz. simpl.
  destruct (swap_remove_NoDup pool j a z Hnd Ha Hz)
    as (Hnd' & Hfresh & Hlen & Hmem).
  destruct (IH (take (length pool - 1) (<[j := z]> pool)) (advance r) Hnd')
    as (ps & r' & Hs & Hlps & Hndps & Hsub); [lia |].
  rewrite Hs. simpl. exists (a :: ps), r'. repeat split.
  - simpl. now rewrite Hlps.
  - apply list.NoDup_cons. split; [| exact Hndps].
    intros Hin. apply Hfresh, Hsub, Hin.
  - intros p Hp. apply Hmem. apply elem_of_cons in Hp as [-> | Hp];
      [now left | right; now apply Hsub].
Qed.

(** Two runs that pick the same items made the same draws. *)
Lemma sample_pool_choices {A} k (pool : list A) r1 r2 ps r1' r2' :
  NoDup pool → (k ≤ length pool)%nat →
  sample_pool k pool r1 = Some (ps, r1') →
  sample_pool k pool r2 = Some (ps, r2') →
  choices (length pool) k r1 = choices (length pool) k r2.
Proof.
  revert pool r1 r2 ps. induction k as [| k IH];
    intros pool r1 r2 ps Hnd Hk H1 H2; [reflexivity |].
  rewrite sample_pool_succ in H1, H2. cbn [choices].
  pose proof (randbelow_range (Z.of_nat (length pool)) r1 ltac:(lia)) as Hb1.
  pose proof (randbelow_range (Z.of_nat (length pool)) r2 ltac:(lia)) as Hb2.
  set (j1 := (randbelow (Z.of_nat (length pool)) r1).1) in *.
  set (j2 := (randbelow (Z.of_nat (length pool)) r2).1) in *.
  destruct (pool !! Z.to_nat j1) as [a1 |] eqn:Ha1; [| discriminate].
  destruct (pool !! Z.to_nat j2) as [a2 |] eqn:Ha2; [| discriminate].
  destruct (pool !! (length pool - 1)%nat) as [z |] eqn:Hz; [| discriminate].
  simpl in H1, H2.
  destruct (sample_pool k _ (advance r1)) as [[rest1 q1] |] eqn:Hs1;
    [| discriminate].
  destruct (sample_pool k _ (advance r2)) as [[rest2 q2] |] eqn:Hs2;
    [| discriminate].
  simpl in H1, H2. injection H1 as <- <-. injection H2 as Ha Hrest <-.
  subst a2 rest2.
  assert (Hjj : Z.to_nat j1 = Z.to_nat j2)
    by (eapply NoDup_lookup; eauto).
  assert (Hj : j1 = j2) by lia.
  rewrite Hj in *. f_equal.
  destruct (swap_remove_NoDup pool (Z.to_nat j2) a1 z Hnd Ha2 Hz)
    as (Hnd' & _ & Hlen & _).
  assert (Hl : (length pool - 1)%nat
               = length (take (length pool - 1) (<[Z.to_nat j2 := z]> pool)))
    by lia.
  rewrite Hl. eapply IH; eauto. lia.
Qed.

(** Every choice of pairwise distinct items is picked by suitable draws. *)
Lemma sample_pool_reaches {A} k (pool ps : list A) :
  NoDup pool → length ps = k → NoDup ps → ps ⊆ pool →
  ∃ js, ∀ r, (∀ i, (i < k)%nat → draws r (cursor r + i)%nat = nth i js 0) →
             fst <$> sample_pool k pool r = Some ps.
Proof.
  revert pool ps. induction k as [| k IH]; intros pool ps Hnd Hlen Hndps Hsub.
  { destruct ps; [| discriminate]. exists []. reflexivity. }
  destruct ps as [| a ps]; [discriminate |].
  injection Hlen as Hlen.
  apply list.NoDup_cons in Hndps as [Ha Hndps].
  assert (Hin : a ∈ pool) by (apply Hsub; left).
  apply list_elem_of_lookup_1 in Hin as [j Hj].
  assert (Hlt : (j < length pool)%nat) by (eapply lookup_lt_Some; eauto).
  destruct (lookup_lt_is_Some_2 pool (length pool - 1)) as [z Hz]; [lia |].
  destruct (swap_remove_NoDup pool j a z Hnd Hj Hz)
    as (Hnd' & Hfresh & Hlen' & Hmem).
  destruct (IH (take (length pool - 1) (<[j := z]> pool)) ps Hnd' Hlen Hndps)
    as [js Hjs].
  { intros p Hp. destruct (proj1 (Hmem p)) as [-> | Hp'];
      [apply Hsub; now right | contradiction | exact Hp']. }
  exists (Z.of_nat j :: js). intros r Hr.
  rewrite sample_pool_succ.
  assert (Hdraw : Z.to_nat (randbelow (Z.of_nat (length pool)) r).1 = j).
  { unfold randbelow. simpl. specialize (Hr 0%nat ltac:(lia)).
    rewrite Nat.add_0_r in Hr. rewrite Hr. simpl.
    rewrite Z.mod_small by lia. lia. }
  rewrite Hdraw, Hj, Hz. simpl.
  assert (Hr' : ∀ i, (i < k)%nat →
            draws (advance r) (cursor (advance r) + i)%nat = nth i js 0).
  { intros i Hi. specialize (Hr (S i) ltac:(lia)). cbn [nth] in Hr.
    rewrite <- Hr. simpl. f_equal. lia. }
  specialize (Hjs (advance r) Hr').
  destruct (sample_pool k _ (advance r)) as [[rest r2] |]; simpl in *;
    [| discriminate].
  injection Hjs as ->. reflexivity.
Qed.

Lemma arrangement_seq n k ps :
  arrangement n k ps ↔ length ps = k ∧ NoDup ps ∧ ps ⊆ seq 0 n.
Proof.
  unfold arrangement. rewrite list.Forall_forall.
  split; intros (Hlen & Hnd & Hin); repeat split; try assumption.
  - intros p Hp. apply elem_of_seq. specialize (Hin p Hp). lia.
  - intros p Hp. apply Hin, elem_of_seq in Hp. lia.
Qed.

Lemma choices_range k : ∀ n r i c,
  (k ≤ n)%nat → choices n k r !! i = Some c → 0 ≤ c < Z.of_nat (n - i).
Proof.
  induction k as [| k IH]; intros n r i c Hk Hc; [discriminate |].
  cbn [choices] in Hc. destruct i as [| i]; simpl in Hc.
  - injection Hc as <-. rewrite Nat.sub_0_r. apply randbelow_range. lia.
  - apply IH in Hc; [| lia]. replace (n - S i)%nat with (n - 1 - i)%nat by lia.
    exact Hc.
Qed.

(** *** The set of selected positions *)

Lemma sample_set_succ {A} fuel (pop : list A) k sel r :
  sample_set (S fuel) pop (S k) sel r
  = let j := Z.to_nat (randbelow (Z.of_nat (length pop)) r).1 in
    if bool_decide (j ∈ sel) then sample_set fuel pop (S k) sel (advance r)
    else
      (a ← pop !! j;
       '(rest, r2) ← sample_set fuel pop k (j :: sel) (advance r);
       Some (a :: rest, r2)).
Proof. reflexivity. Qed.

Lemma sample_set_fmap {A B} (f : A → B) fuel : ∀ k (pop : list A) sel r,
  sample_set fuel (f <$> pop) k sel r
  = prod_map (fmap (M := list) f) (@id Rng) <$> sample_set fuel pop k sel r.
Proof.
  induction fuel as [| fuel IH]; intros [| k] pop sel r; try reflexivity.
  rewrite !sample_set_succ, length_fmap. cbv zeta.
  case_bool_decide; [apply IH |].
  rewrite list_lookup_fmap.
  destruct (pop !! _) as [a |]; [| reflexivity].
  simpl. rewrite IH.
  destruct (sample_set fuel pop k _ _) as [[rest r2] |]; reflexivity.
Qed.

Lemma random_sample_fmap {A B} (f : A → B) fuel (pop : list A) k r :
  random_sample fuel (f <$> pop) k r
  = prod_map (fmap (M := list) f) (@id Rng) <$> random_sample fuel pop k r.
Proof.
  unfold random_sample. cbv zeta. rewrite length_fmap.
  repeat case_bool_decide;
    [apply sample_pool_fmap | apply sample_set_fmap | reflexivity].
Qed.

(** The sample of a population is read off the sample of its positions. *)
Lemma random_sample_at {A} fuel k (l : list A) r s r' :
  random_sample fuel l k r = Some (s, r') →
  ∃ ps, random_sample fuel (seq 0 (length l)) k r = Some (ps, r') ∧
        Some <$> s = (l !!.) <$> ps.
Proof.
  intros Hs.
  pose proof (random_sample_fmap Some fuel l k r) as H1.
  pose proof (random_sample_fmap (l !!.) fuel (seq 0 (length l)) k r) as H2.
  rewrite <- fmap_lookup_seq, H1, Hs in H2. simpl in H2.
  destruct (random_sample fuel (seq 0 (length l)) k r) as [[ps r2] |];
    simpl in H2; [| discriminate].
  injection H2 as Hps Hr. subst r2. eauto.
Qed.

Lemma random_sample_is_Some {A} fuel k (l : list A) r :
  is_Some (random_sample fuel l k r)
  ↔ is_Some (sample_positions fuel (length l) k r).
Proof.
  unfold sample_positions.
  pose proof (random_sample_fmap Some fuel l k r) as H1.
  pose proof (random_sample_fmap (l !!.) fuel (seq 0 (length l)) k r) as H2.
  rewrite <- fmap_lookup_seq, H1 in H2.
  destruct (random_sample fuel l k r) as [[s r1] |],
           (random_sample fuel (seq 0 (length l)) k r) as [[ps r2] |];
    simpl in *; try discriminate; split; intros [? Hx]; eauto; discriminate.
Qed.

Lemma sample_positions_pool fuel n k r :
  (k ≤ n)%nat → Z.of_nat n ≤ setsize (Z.of_nat k) →
  sample_positions fuel n k r = fst <$> sample_pool k (seq 0 n) r.
Proof.
  intros Hk Hpool. unfold sample_positions, random_sample. cbv zeta.
  rewrite length_seq.
  rewrite bool_decide_eq_true_2 by exact Hk.
  rewrite bool_decide_eq_true_2 by exact Hpool. reflexivity.
Qed.

Lemma sample_positions_set fuel n k r :
  (k ≤ n)%nat → ¬ Z.of_nat n ≤ setsize (Z.of_nat k) →
  sample_positions fuel n k r = fst <$> sample_set fuel (seq 0 n) k [] r.
Proof.
  intros Hk Hset. unfold sample_positions, random_sample. cbv zeta.
  rewrite length_seq.
  rewrite bool_decide_eq_true_2 by exact Hk.
  rewrite bool_decide_eq_false_2 by exact Hset. reflexivity.
Qed.

Lemma drawn_succ n m r :
  drawn n (S m) r
  = Z.to_nat (randbelow (Z.of_nat n) r).1 :: drawn n m (advance r).
Proof.
  unfold drawn, randbelow. cbn [seq fmap list_fmap fst].
  rewrite Nat.add_0_r. f_equal.
  rewrite <- fmap_S_seq, <- list_fmap_compose.
  apply list_fmap_ext. intros i j _. simpl.
  replace (cursor r + S j)%nat with (S (cursor r + j)) by lia. reflexivity.
Qed.

Lemma drawn_lt n m r p : (0 < n)%nat → p ∈ drawn n m r → (p < n)%nat.
Proof.
  intros Hn Hp. unfold drawn in Hp.
  apply list_elem_of_fmap in Hp as (i & -> & _).
  pose proof (Z.mod_pos_bound (draws r (cursor r + i)) (Z.of_nat n)). lia.
Qed.

Lemma fresh_spec l : ∀ sel,
  NoDup (fresh sel l) ∧ ∀ p, p ∈ fresh sel l ↔ p ∈ l ∧ p ∉ sel.
Proof.
  induction l as [| j l IH]; intros sel.
  { split; [constructor |]. intros p. split; [inversion 1 | intros [Hp _]].
    inversion Hp. }
  cbn [fresh]. case_bool_decide as Hj.
  - destruct (IH sel) as [Hnd Hmem]. split; [exact Hnd |].
    intros p. rewrite Hmem, elem_of_cons. split; [tauto |].
    intros [[-> | Hp] Hsel]; [contradiction | tauto].
  - destruct (IH (j :: sel)) as [Hnd Hmem]. split.
    + apply list.NoDup_cons. split; [| exact Hnd].
      rewrite Hmem, elem_of_cons. tauto.
    + intros p. rewrite !elem_of_cons, Hmem, elem_of_cons.
      destruct (decide (p = j)) as [-> | Hne]; tauto.
Qed.

Lemma fresh_id l : ∀ sel,
  NoDup l → (∀ p, p ∈ l → p ∉ sel) → fresh sel l = l.
Proof.
  induction l as [| j l IH]; intros sel Hnd Hsel; [reflexivity |].
  apply list.NoDup_cons in Hnd as [Hj Hnd]. cbn [fresh].
  rewrite bool_decide_eq_false_2 by (apply Hsel; left).
  f_equal. apply IH; [exact Hnd |].
  intros p Hp. rewrite elem_of_cons. intros [-> | Hin]; [contradiction |].
  apply (Hsel p); [now right | exact Hin].
Qed.

(** What the set of [random.sample] returns, in terms of the positions
    drawn: the first [k] of them that are new. *)
Lemma sample_set_fresh n fuel : ∀ k sel r,
  (0 < n)%nat →
  fst <$> sample_set fuel (seq 0 n) k sel r
  = if bool_decide (k ≤ length (fresh sel (drawn n fuel r)))%nat
    then Some (take k (fresh sel (drawn n fuel r))) else None.
Proof.
  induction fuel as [| fuel IH]; intros [| k] sel r Hn.
  - rewrite bool_decide_eq_true_2 by lia. reflexivity.
  - rewrite bool_decide_eq_false_2 by (simpl; lia). reflexivity.
  - rewrite bool_decide_eq_true_2 by lia. reflexivity.
  - rewrite sample_set_succ, drawn_succ, length_seq. cbv zeta.
    set (j := Z.to_nat (randbelow (Z.of_nat n) r).1).
    assert (Hj : (j < n)%nat).
    { pose proof (randbelow_range (Z.of_nat n) r). lia. }
    cbn [fresh]. case_bool_decide as Hsel; [apply IH, Hn |].
    rewrite lookup_seq_lt by exact Hj. simpl.
    specialize (IH k (j :: sel) (advance r) Hn).
    destruct (sample_set fuel (seq 0 n) k (j :: sel) (advance r))
      as [[rest r2] |]; simpl in *.
    + case_bool_decide as Hk; [| discriminate]. injection IH as ->.
      rewrite bool_decide_eq_true_2 by lia. reflexivity.
    + case_bool_decide as Hk; [discriminate |].
      rewrite bool_decide_eq_false_2 by lia. reflexivity.
Qed.

(** The set consumes at least [k] draws, and no more than it is allowed. *)
Lemma sample_set_draws {A} fuel : ∀ k (pop : list A) sel r s r',
  sample_set fuel pop k sel r = Some (s, r') →
  length s = k ∧ ∃ m, (k ≤ m ≤ fuel)%nat ∧ r' = Nat.iter m advance r.
Proof.
  induction fuel as [| fuel IH]; intros [| k] pop sel r s r' Hs;
    try discriminate.
  - injection Hs as <- <-. split; [reflexivity |]. exists 0%nat. split; [lia |].
    reflexivity.
  - injection Hs as <- <-. split; [reflexivity |]. exists 0%nat. split; [lia |].
    reflexivity.
  - rewrite sample_set_succ in Hs. cbv zeta in Hs.
    case_bool_decide as Hsel.
    + apply IH in Hs as (Hlen & m & Hm & ->). split; [exact Hlen |].
      exists (S m). split; [lia |]. now rewrite Nat.iter_succ_r.
    + destruct (pop !! _) as [a |]; [| discriminate]. simpl in Hs.
      destruct (sample_set fuel pop k _ _) as [[rest r2] |] eqn:Hrest;
        [| discriminate].
      simpl in Hs. injection Hs as <- <-.
      apply IH in Hrest as (Hlen & m & Hm & ->). split; [simpl; lia |].
      exists (S m). split; [lia |]. now rewrite Nat.iter_succ_r.
Qed.

Lemma sample_set_arrangement n fuel k r ps :
  (0 < n)%nat →
  fst <$> sample_set fuel (seq 0 n) k [] r = Some ps → arrangement n k ps.
Proof.
  intros Hn. rewrite sample_set_fresh by exact Hn.
  case_bool_decide as Hk; [| discriminate]. intros [= <-].
  destruct (fresh_spec (drawn n fuel r) []) as [Hnd Hmem].
  split; [rewrite length_take; lia |]. split.
  - eapply sublist_NoDup; [exact Hnd | apply sublist_take].
  - apply list.Forall_forall. intros p Hp.
    apply subseteq_take, Hmem in Hp as [Hp _].
    eapply drawn_lt; eauto.
Qed.

(** Every choice of pairwise distinct positions is picked by the set when
    they are the positions drawn. *)
Lemma sample_set_reaches n k ps :
  (0 < n)%nat → arrangement n k ps →
  fst <$> sample_set k (seq 0 n) k [] (rng_of (Z.of_nat <$> ps)) = Some ps.
Proof.
  intros Hn (Hlen & Hnd & Hlt). rewrite sample_set_fresh by exact Hn.
  assert (Hdrawn : drawn n k (rng_of (Z.of_nat <$> ps)) = ps).
  { apply list_eq. intros i. unfold drawn, rng_of. cbn [draws cursor].
    rewrite list_lookup_fmap.
    destruct (decide (i < k)%nat) as [Hi | Hi].
    - rewrite lookup_seq_lt by exact Hi. simpl.
      destruct (lookup_lt_is_Some_2 ps i) as [p Hp]; [lia |].
      rewrite Hp, nth_lookup, list_lookup_fmap, Hp. simpl. f_equal.
      rewrite list.Forall_forall in Hlt.
      specialize (Hlt p (list_elem_of_lookup_2 _ _ _ Hp)).
      rewrite Z.mod_small by lia. lia.
    - rewrite lookup_seq_ge by lia. rewrite lookup_ge_None_2 by lia.
      reflexivity. }
  rewrite Hdrawn, fresh_id; [| exact Hnd | intros p _; apply not_elem_of_nil].
  rewrite bool_decide_eq_true_2 by lia. now rewrite take_ge by lia.
Qed.

(** Renaming the positions drawn renames the positions selected. *)
Lemma drawn_renamed n m σ r1 r2 :
  renamed n σ r1 r2 → drawn n m r2 = σ <$> drawn n m r1.
Proof.
  intros [Hc Hd]. unfold drawn. rewrite Hc, <- list_fmap_compose.
  apply list_fmap_ext. intros i j _. simpl. apply Hd.
Qed.

Lemma fresh_fmap n σ l : ∀ sel,
  renaming n σ → (∀ p, p ∈ sel ∨ p ∈ l → (p < n)%nat) →
  fresh (σ <$> sel) (σ <$> l) = σ <$> fresh sel l.
Proof.
  induction l as [| j l IH]; intros sel Hσ Hlt; [reflexivity |].
  rewrite fmap_cons. cbn [fresh].
  assert (Hmem : σ j ∈ σ <$> sel ↔ j ∈ sel).
  { split; [| apply list_elem_of_fmap_2].
    intros Hin. apply list_elem_of_fmap in Hin as (q & Heq & Hq).
    apply (proj2 Hσ) in Heq; [now subst | |].
    - apply Hlt. right. left.
    - apply Hlt. now left. }
  rewrite (bool_decide_ext _ _ Hmem). case_bool_decide as Hj.
  - apply IH; [exact Hσ |]. intros p [Hp | Hp]; apply Hlt; [now left |].
    right. now right.
  - rewrite fmap_cons. f_equal. rewrite <- fmap_cons. apply IH; [exact Hσ |].
    intros p [Hp | Hp]; apply Hlt.
    + apply elem_of_cons in Hp as [-> | Hp]; [right; left | now left].
    + right. now right.
Qed.

Lemma sample_set_renamed n fuel k σ r1 r2 :
  (0 < n)%nat → renaming n σ → renamed n σ r1 r2 →
  fst <$> sample_set fuel (seq 0 n) k [] r2
  = fmap (M := list) σ <$> (fst <$> sample_set fuel (seq 0 n) k [] r1).
Proof.
  intros Hn Hσ Hr. rewrite !sample_set_fresh by exact Hn.
  rewrite (drawn_renamed n fuel σ r1 r2 Hr).
  assert (Hf : fresh [] (σ <$> drawn n fuel r1)
               = σ <$> fresh [] (drawn n fuel r1)).
  { apply (fresh_fmap n σ (drawn n fuel r1) [] Hσ).
    intros p [Hp | Hp]; [inversion Hp | eapply drawn_lt; eauto]. }
  rewrite Hf, length_fmap. case_bool_decide; [| reflexivity].
  simpl. now rewrite fmap_take.
Qed.

(** Every source has its renamed source. *)
Lemma renamed_exists n σ r1 :
  (0 < n)%nat → renaming n σ → ∃ r2, renamed n σ r1 r2.
Proof.
  intros Hn [Hσ _].
  exists (mkRng (λ i, Z.of_nat (σ (Z.to_nat (draws r1 i `mod` Z.of_nat n))))
                (cursor r1)).
  split; [reflexivity |]. intros i. cbn [draws].
  pose proof (Z.mod_pos_bound (draws r1 i) (Z.of_nat n) ltac:(lia)) as Hb.
  specialize (Hσ (Z.to_nat (draws r1 i `mod` Z.of_nat n)) ltac:(lia)).
  rewrite Z.mod_small by lia. lia.
Qed.

(** Fewer than [n] positions selected leave one to select. *)
Lemma unselected_position n sel :
  (length sel < n)%nat → ∃ p, (p < n)%nat ∧ p ∉ sel.
Proof.
  intros Hlen.
  destruct (decide (Forall (λ p, p ∈ sel) (seq 0 n))) as [Hall | Hex].
  - exfalso. rewrite list.Forall_forall in Hall.
    pose proof (submseteq_length _ _
                  (NoDup_submseteq _ _ (NoDup_seq 0 n) Hall)) as Hle.
    rewrite length_seq in Hle. lia.
  - apply not_Forall_Exists in Hex; [| intros p; apply _].
    apply list.Exists_exists in Hex as (p & Hp & Hnot).
    exists p. split; [apply elem_of_seq in Hp; lia | exact Hnot].
Qed.

(** The source that counts 0, 1, 2, ... is fair. *)
Lemma counting_source_fair n c : (0 < n)%nat → fair n (mkRng Z.of_nat c).
Proof.
  intros Hn c0 p Hp. exists (c0 * n + p)%nat. split; [nia |].
  cbn [draws]. rewrite Nat2Z.inj_add, Nat2Z.inj_mul.
  rewrite Z.add_comm, Z.mod_add by lia. rewrite Z.mod_small by lia. lia.
Qed.

(** With a fair random source the set ends: each of its redraw loops meets
    a position not selected before. *)
Lemma sample_set_fair n : ∀ k sel r,
  (0 < n)%nat → fair n r → (length sel + k ≤ n)%nat →
  ∃ fuel, is_Some (sample_set fuel (seq 0 n) k sel r).
Proof.
  induction k as [| k IHk]; intros sel r Hn Hfair Hlen.
  { exists 0%nat. simpl. eauto. }
  destruct (unselected_position n sel ltac:(lia)) as (p & Hp & Hfree).
  destruct (Hfair (cursor r) p Hp) as (i & Hi & Hdraw).
  assert (Hsearch : ∀ d r0, draws r0 = draws r → (cursor r0 + d)%nat = i →
            ∃ fuel, is_Some (sample_set fuel (seq 0 n) (S k) sel r0)).
  { induction d as [| d IHd]; intros r0 Hdr Hc;
      set (j := Z.to_nat (randbelow (Z.of_nat n) r0).1);
      (assert (Hj : (j < n)%nat)
         by (pose proof (randbelow_range (Z.of_nat n) r0); lia));
      (assert (Hpick : j ∉ sel →
                ∃ fuel, is_Some (sample_set fuel (seq 0 n) (S k) sel r0));
       [intros Hsel;
        destruct (IHk (j :: sel) (advance r0) Hn) as [fuel Hfuel];
        [intros c q Hq; cbn [advance draws]; rewrite Hdr; now apply Hfair
        | simpl; lia |];
        exists (S fuel); rewrite sample_set_succ, length_seq; cbv zeta;
        fold j; rewrite bool_decide_eq_false_2 by exact Hsel;
        rewrite lookup_seq_lt by exact Hj; simpl;
        destruct Hfuel as [[rest r2] ->]; simpl; eauto |]).
    - apply Hpick. unfold j, randbelow. cbn [fst]. rewrite Hdr.
      replace (cursor r0) with i by lia. now rewrite Hdraw.
    - destruct (decide (j ∈ sel)) as [Hsel | Hsel]; [| now apply Hpick].
      destruct (IHd (advance r0)) as [fuel Hfuel];
        [exact Hdr | simpl; lia |].
      exists (S fuel). rewrite sample_set_succ, length_seq. cbv zeta.
      fold j. now rewrite bool_decide_eq_true_2 by exact Hsel. }
  apply (Hsearch (i - cursor r)%nat r); [reflexivity | lia].
Qed.

Lemma sample_positions_arrangement fuel n k r ps :
  (k ≤ n)%nat → sample_positions fuel n k r = Some ps → arrangement n k ps.
Proof.
  intros Hk.
  destruct (decide (Z.of_nat n ≤ setsize (Z.of_nat k))) as [Hpool | Hset].
  - rewrite sample_positions_pool by assumption.
    destruct (sample_pool_arrangement k (seq 0 n) r)
      as (ps' & r' & Hps & Hlen & Hnd & Hsub);
      [apply NoDup_seq | rewrite length_seq; lia |].
    rewrite Hps. intros [= <-]. apply arrangement_seq. auto.
  - rewrite sample_positions_set by assumption.
    destruct n as [| n].
    + replace k with 0%nat by lia. destruct fuel; intros [= <-];
        repeat constructor.
    + apply sample_set_arrangement. lia.
Qed.

(** With the set, the sample returns exactly when enough distinct positions
    have been drawn. *)
Lemma random_sample_set_returns {A} fuel (l : list A) k r :
  (k ≤ length l)%nat → ¬ Z.of_nat (length l) ≤ setsize (Z.of_nat k) →
  is_Some (random_sample fuel l k r)
  ↔ (k ≤ length (fresh [] (drawn (length l) fuel r)))%nat.
Proof.
  intros Hk Hset. rewrite random_sample_is_Some.
  rewrite sample_positions_set by assumption.
  destruct (length l) as [| n] eqn:Hn.
  - assert (k = 0%nat) as -> by lia. destruct fuel; simpl; split; eauto; lia.
  - rewrite sample_set_fresh by lia.
    case_bool_decide as Hd; split; intros Hx; try lia; eauto.
    destruct Hx as [? Hx]. discriminate.
Qed.

Lemma sample_positions_reaches n k ps :
  (k ≤ n)%nat → arrangement n k ps →
  ∃ r0, sample_positions k n k r0 = Some ps.
Proof.
  intros Hk Harr.
  destruct (decide (Z.of_nat n ≤ setsize (Z.of_nat k))) as [Hpool | Hset].
  - pose proof Harr as Harr'.
    apply arrangement_seq in Harr' as (Hlen & Hnd & Hsub).
    destruct (sample_pool_reaches k (seq 0 n) ps
                (NoDup_seq 0 n) Hlen Hnd Hsub) as [js Hjs].
    exists (rng_of js). rewrite sample_positions_pool by assumption.
    apply Hjs. intros i _. reflexivity.
  - exists (rng_of (Z.of_nat <$> ps)).
    rewrite sample_positions_set by assumption.
    destruct n as [| n].
    + destruct Harr as (Hlen & _). assert (k = 0%nat) as -> by lia.
      destruct ps; [reflexivity | discriminate].
    + apply sample_set_reaches; [lia | exact Harr].
Qed.

Lemma mini_sample_large {A} fuel batch_size (mem : deque A) r :
  (batch_size < length (items mem))%nat →
  mini_sample fuel batch_size mem r
  = random_sample fuel (items mem) batch_size r.
Proof.
  intros Hlt. unfold mini_sample.
  now rewrite bool_decide_eq_true_2 by exact Hlt.
Qed.

(** C9: the sample of [train_long_memory] never raises.  A memory of at
    most [batch_size] transitions is returned whole, as it is.  On a larger
    one, whatever is returned is [batch_size] transitions standing at
    pairwise distinct positions of the memory, and every such choice of
    positions is produced by some draws.  When the pool is used the sample
    always returns, the positions produced determine the draws, and draw
    [i] ranges over the [n - i] items still unselected.  When the set is
    used the sample returns as soon as [batch_size] distinct positions have
    been drawn, which a fair random source does (the source that counts is
    one), and renaming the positions drawn renames the positions produced.
    With uniform draws, either way makes all choices equally likely. *)
Theorem long_memory_sample {A} (fuel batch_size : nat) (mem : deque A)
    (r : Rng) :
  let n := length (items mem) in
  let pool := Z.of_nat n ≤ setsize (Z.of_nat batch_size) in
  ((n ≤ batch_size)%nat →
   mini_sample fuel batch_size mem r = Some (items mem, r)) ∧
  ((batch_size < n)%nat →
   (∀ s r', mini_sample fuel batch_size mem r = Some (s, r') →
      ∃ ps, sample_positions fuel n batch_size r = Some ps ∧
            arrangement n batch_size ps ∧
            length s = batch_size ∧
            Some <$> s = (items mem !!.) <$> ps) ∧
   (∀ ps, arrangement n batch_size ps →
          ∃ r0, sample_positions batch_size n batch_size r0 = Some ps) ∧
   (pool →
    is_Some (mini_sample fuel batch_size mem r) ∧
    (∀ r1 r2 ps,
       sample_positions fuel n batch_size r1 = Some ps →
       sample_positions fuel n batch_size r2 = Some ps →
       choices n batch_size r1 = choices n batch_size r2) ∧
    (∀ r1 i c, choices n batch_size r1 !! i = Some c →
               0 ≤ c < Z.of_nat (n - i))) ∧
   (¬ pool →
    (is_Some (mini_sample fuel batch_size mem r) ↔
     (batch_size ≤ length (fresh [] (drawn n fuel r)))%nat) ∧
    (∃ r0, fair n r0) ∧
    (fair n r → ∃ fuel', is_Some (mini_sample fuel' batch_size mem r)) ∧
    (∀ σ r1, renaming n σ →
       (∃ r2, renamed n σ r1 r2) ∧
       ∀ r2, renamed n σ r1 r2 →
         sample_positions fuel n batch_size r2
         = fmap (M := list) σ <$> sample_positions fuel n batch_size r1))).
Proof.
  intros n pool. split.
  { intros Hle. unfold mini_sample.
    rewrite bool_decide_eq_false_2 by (fold n; lia). reflexivity. }
  intros Hlt. assert (Hn : (0 < n)%nat) by lia.
  split; [| split; [| split]].
  - intros s r'. rewrite mini_sample_large by exact Hlt. intros Hs.
    destruct (random_sample_at _ _ _ _ _ _ Hs) as (ps & Hps & Hmap).
    fold n in Hps.
    assert (Hpos : sample_positions fuel n batch_size r = Some ps)
      by (unfold sample_positions; now rewrite Hps).
    exists ps. split; [exact Hpos |].
    split; [eapply sample_positions_arrangement; [| exact Hpos]; lia |].
    split; [| exact Hmap].
    apply sample_positions_arrangement in Hpos as (Hlen & _); [| lia].
    apply (f_equal length) in Hmap. rewrite !length_fmap in Hmap. lia.
  - intros ps. apply sample_positions_reaches. lia.
  - intros Hpool. split; [| split].
    + rewrite mini_sample_large by exact Hlt.
      apply random_sample_is_Some. fold n.
      rewrite sample_positions_pool by (lia || exact Hpool).
      destruct (sample_pool_arrangement batch_size (seq 0 n) r)
        as (ps & r' & Hps & _);
        [apply NoDup_seq | rewrite length_seq; lia |].
      rewrite Hps. simpl. eauto.
    + intros r1 r2 ps.
      rewrite !sample_positions_pool by (lia || exact Hpool).
      destruct (sample_pool batch_size (seq 0 n) r1) as [[ps1 q1] |] eqn:Hs1;
        [| discriminate].
      destruct (sample_pool batch_size (seq 0 n) r2) as [[ps2 q2] |] eqn:Hs2;
        [| discriminate].
      simpl. intros [= ->] [= ->].
      pose proof (sample_pool_choices batch_size (seq 0 n) r1 r2 ps q1 q2
                    (NoDup_seq 0 n)) as Hc.
      rewrite length_seq in Hc. apply Hc; [lia | assumption | assumption].
    + intros r1 i c. apply choices_range. lia.
  - intros Hset. split; [| split; [| split]].
    + rewrite mini_sample_large by exact Hlt.
      apply random_sample_set_returns; [lia | exact Hset].
    + exists (mkRng Z.of_nat 0). now apply counting_source_fair.
    + intros Hfair.
      destruct (sample_set_fair n batch_size [] r Hn Hfair) as [fuel' Hf];
        [simpl; lia |].
      exists fuel'. rewrite mini_sample_large by exact Hlt.
      apply random_sample_is_Some. fold n.
      rewrite sample_positions_set by (lia || exact Hset).
      destruct Hf as [[ps r'] ->]. simpl. eauto.
    + intros σ r1 Hσ. split; [now apply renamed_exists |].
      intros r2 Hr.
      rewrite !sample_positions_set by (lia || exact Hset).
      now apply sample_set_renamed.
Qed.
End SamplingFacts.

Lemma long_memory_sample_witness :
  let mem := mkDeque 100 (seqZ 0 30) in
  let r := rng_of [7; 7; 3] in
  (2 < length (items mem))%nat ∧
  ¬ Z.of_nat (length (items mem)) ≤ setsize (Z.of_nat 2) ∧
  (2 ≤ length (fresh [] (drawn (length (items mem)) 3 r)))%nat ∧
  mini_sample 3 2 mem r = Some ([7; 3], Nat.iter 3 advance r) ∧
  is_Some (mini_sample 3 2 mem r).
Proof.
  intros mem r.
  assert (Hlt : (2 < length (items mem))%nat) by (vm_compute; lia).
  assert (Hset : ¬ Z.of_nat (length (items mem)) ≤ setsize (Z.of_nat 2))
    by (vm_compute; intros Hc; apply Hc; reflexivity).
  assert (Hdrawn : (2 ≤ length (fresh [] (drawn (length (items mem)) 3 r)))%nat)
    by (vm_compute; lia).
  split; [exact Hlt |]. split; [exact Hset |]. split; [exact Hdrawn |].
  split; [reflexivity |].
  exact (proj2 (proj1 (proj2 (proj2 (proj2
           (proj2 (long_memory_sample 3 2 mem r) Hlt))) Hset)) Hdrawn).
Defined.

(** ** The temporal-difference targets *)
Section ArgmaxFacts.

Lemma argmax_from_le best_i best i l :
  Forall (λ v, v ≤ best) l → argmax_from Z.gtb best_i best i l = best_i.
Proof.
  revert i. induction l as [| v l IH]; intros i Hl; [reflexivity |].
  apply list.Forall_cons in Hl as [Hv Hl]. simpl.
  rewrite Z.gtb_ltb, (proj2 (Z.ltb_ge best v) Hv).
  now apply IH.
Qed.

Lemma one_hot_le_1 a : one_hot a → Forall (λ v, v ≤ 1) a.
Proof. intros [-> | [-> | ->]]; repeat constructor; lia. Qed.

Lemma one_hot_rows_le_1 rows :
  Forall one_hot rows → Forall (λ v, v ≤ 1) (concat rows).
Proof.
  induction 1 as [| a rows Ha _ IH]; [constructor |].
  simpl. apply list.Forall_app. split; [now apply one_hot_le_1 | exact IH].
Qed.

Lemma hot_lt_3 a : one_hot a → (hot a < 3)%nat.
Proof. intros [-> | [-> | ->]]; vm_compute; lia. Qed.

(** The flat argmax of a batch of canonical actions is the index of the 1
    of its first row, whatever the other rows are. *)
Lemma argmax_first_row a0 rows :
  one_hot a0 → Forall one_hot rows →
  argmax Z.gtb (concat (a0 :: rows)) = Some (hot a0).
Proof.
  intros Ha0 Hrows. pose proof (one_hot_rows_le_1 rows Hrows) as Hle.
  destruct Ha0 as [-> | [-> | ->]]; simpl.
  - f_equal. apply argmax_from_le. repeat constructor; try lia. exact Hle.
  - f_equal. apply argmax_from_le. repeat constructor; try lia. exact Hle.
  - f_equal. now apply argmax_from_le.
Qed.
End ArgmaxFacts.

Section TrainerFacts.
Context `{Tensors}.
Variables (net : Net) (gamma : Scalar).

Lemma forward_Some s :
  length s = 11%nat → ∃ out, forward net s = Some out ∧ length out = 3%nat.
Proof.
  intros Hs. pose proof (forward_shape net s) as Hf.
  rewrite bool_decide_eq_true_2 in Hf by exact Hs.
  destruct (forward net s) as [out |]; [| discriminate].
  injection Hf as Hf. eauto.
Qed.

Lemma forward_None s : length s ≠ 11%nat → forward net s = None.
Proof.
  intros Hs. pose proof (forward_shape net s) as Hf.
  rewrite bool_decide_eq_false_2 in Hf by exact Hs.
  destruct (forward net s); [discriminate | reflexivity].
Qed.

Lemma forward_Some_inv s out :
  forward net s = Some out → length s = 11%nat ∧ length out = 3%nat.
Proof.
  intros Hout. pose proof (forward_shape net s) as Hf.
  rewrite Hout in Hf. simpl in Hf.
  case_bool_decide; [| discriminate]. injection Hf as Hf. auto.
Qed.

Lemma tmax_total (out : list Scalar) :
  length out = 3%nat → is_Some (tmax fgtb out).
Proof. destruct out; [discriminate | simpl; eauto]. Qed.

Lemma q_of_total t :
  (t_done t = false → length (t_next_state t) = 11%nat) →
  is_Some (q_of net gamma t).
Proof.
  intros Hns. unfold q_of. destruct (t_done t); [eauto |].
  destruct (forward_Some (t_next_state t) (Hns eq_refl)) as (out & -> & Hlen).
  simpl. destruct (tmax_total out Hlen) as [best ->]. simpl. eauto.
Qed.

Lemma q_of_done t : t_done t = true → q_of net gamma t = Some (of_int (t_reward t)).
Proof. intros Hd. unfold q_of. now rewrite Hd. Qed.

Lemma Q_new_columns sample idx :
  Q_new net gamma (columns_of sample) idx = sample !! idx ≫= q_of net gamma.
Proof.
  unfold Q_new, columns_of, q_of. simpl. rewrite !list_lookup_fmap.
  destruct (sample !! idx) as [t |]; simpl; [| reflexivity].
  destruct (t_done t); reflexivity.
Qed.

Lemma assign_target_eq c target idx q k row :
  Q_new net gamma c idx = Some q → action_index c = Some k →
  target !! idx = Some row → (k < length row)%nat →
  assign_target net gamma c target idx
  = Some (<[idx := <[k := q]> row]> target).
Proof.
  intros Hq Hk Hrow Hlt. unfold assign_target, setitem.
  rewrite Hq, Hk. simpl. rewrite Hrow. simpl.
  rewrite bool_decide_eq_true_2 by exact Hlt. reflexivity.
Qed.

(** The loop of [train_step] over the rows [i, i + m): each of them is
    overwritten at the one index [k], the others are left as they are. *)
Lemma assign_targets_seq c k m : ∀ i target,
  action_index c = Some k →
  (∀ j, (i ≤ j < i + m)%nat →
        ∃ q row, Q_new net gamma c j = Some q ∧ target !! j = Some row ∧
                 (k < length row)%nat) →
  ∃ target',
    assign_targets net gamma c target (seq i m) = Some target' ∧
    ∀ j, target' !! j =
         if decide (i ≤ j < i + m)%nat
         then row ← target !! j; q ← Q_new net gamma c j;
              Some (<[k := q]> row)
         else target !! j.
Proof.
  induction m as [| m IH]; intros i target Hk Hrows.
  { exists target. split; [reflexivity |]. intros j.
    destruct (decide _); [lia | reflexivity]. }
  destruct (Hrows i ltac:(lia)) as (q & row & Hq & Hrow & Hlt).
  cbn [seq assign_targets].
  rewrite (assign_target_eq c target i q k row Hq Hk Hrow Hlt). simpl.
  destruct (IH (S i) (<[i := <[k := q]> row]> target) Hk)
    as (target' & Hrun & Hget).
  { intros j Hj. destruct (Hrows j ltac:(lia)) as (q' & row' & ? & ? & ?).
    exists q', row'. rewrite list_lookup_insert_ne by lia. auto. }
  exists target'. split; [exact Hrun |]. intros j. rewrite Hget.
  destruct (decide (j = i)) as [-> | Hne].
  - destruct (decide (S i ≤ i < S i + m)%nat); [lia |].
    destruct (decide (i ≤ i < i + S m)%nat); [| lia].
    rewrite list_lookup_insert_eq by (eapply lookup_lt_Some; eauto).
    rewrite Hrow, Hq. reflexivity.
  - rewrite list_lookup_insert_ne by lia.
    destruct (decide (S i ≤ j < S i + m)%nat);
      destruct (decide (i ≤ j < i + S m)%nat); try lia; reflexivity.
Qed.

Lemma length_by_lookup {A} (l : list A) n :
  (∀ i, is_Some (l !! i) ↔ (i < n)%nat) → length l = n.
Proof.
  intros Hl. destruct (Nat.lt_trichotomy (length l) n) as [Hlt | [Heq | Hgt]];
    [| exact Heq |].
  - apply Hl, lookup_lt_is_Some in Hlt. lia.
  - apply lookup_lt_is_Some_2, Hl in Hgt. lia.
Qed.

(** The forward pass on the states of a sample. *)
Lemma predictions_rows (sample : list Transition) :
  Forall (λ t, length (t_state t) = 11%nat) sample →
  ∃ preds,
    predictions net (columns_of sample) = Some preds ∧
    length preds = length sample ∧
    ∀ idx, preds !! idx = (t ← sample !! idx; forward net (t_state t)).
Proof.
  unfold predictions, columns_of. cbn [col_state].
  induction 1 as [| t sample Ht _ (preds & Hp & Hlen & Hget)].
  - exists []. repeat split.
  - destruct (forward_Some (t_state t) Ht) as (p & Hf & _).
    exists (p :: preds). split; [| split].
    + rewrite fmap_cons. simpl. rewrite Hf. simpl. rewrite Hp. reflexivity.
    + simpl. now rewrite Hlen.
    + intros [| idx]; simpl; [now rewrite Hf | apply Hget].
Qed.

(** What [train_step] computes on a sample of transitions with states of
    11 entries and canonical actions: every row of the target is the
    prediction for its state with the entry at the index of the 1 of the
    FIRST action of the sample overwritten by the row's [Q_new]. *)
Lemma train_targets_rows (sample : list Transition) args a0 :
  unsqueeze args = Some (columns_of sample) →
  t_action <$> sample !! 0%nat = Some a0 →
  Forall (λ t, one_hot (t_action t)) sample →
  Forall (λ t, length (t_state t) = 11%nat) sample →
  Forall (λ t, t_done t = false → length (t_next_state t) = 11%nat) sample →
  ∃ preds target,
    predictions net (columns_of sample) = Some preds ∧
    train_targets net gamma args = Some target ∧
    length preds = length sample ∧
    length target = length sample ∧
    ∀ idx t, sample !! idx = Some t →
      ∃ q pred,
        q_of net gamma t = Some q ∧
        forward net (t_state t) = Some pred ∧ length pred = 3%nat ∧
        preds !! idx = Some pred ∧
        target !! idx = Some (<[hot a0 := q]> pred).
Proof.
  intros Hargs Ha0 Hhot Hstate Hnext.
  destruct (predictions_rows sample Hstate) as (preds & Hp & Hlen & Hpget).
  assert (Hrow : ∀ idx t, sample !! idx = Some t →
            ∃ q pred,
              q_of net gamma t = Some q ∧
              forward net (t_state t) = Some pred ∧ length pred = 3%nat ∧
              preds !! idx = Some pred).
  { intros idx t Ht.
    rewrite list.Forall_forall in Hstate, Hnext.
    pose proof (list_elem_of_lookup_2 _ _ _ Ht) as Hin.
    destruct (q_of_total t (Hnext t Hin)) as [q Hq].
    destruct (forward_Some (t_state t) (Hstate t Hin)) as (pred & Hf & Hl).
    exists q, pred. rewrite Hpget, Ht. simpl. auto. }
  unfold train_targets. rewrite Hargs. simpl. rewrite Hp. simpl.
  rewrite length_fmap.
  assert (Hk : action_index (columns_of sample) = Some (hot a0)).
  { unfold action_index. simpl. destruct sample as [| t0 sample];
      [discriminate |].
    simpl in Ha0. injection Ha0 as <-.
    apply list.Forall_cons in Hhot as [Ht0 Hrest].
    rewrite fmap_cons. apply argmax_first_row; [exact Ht0 |].
    apply list.Forall_fmap. exact Hrest. }
  assert (Hk3 : (hot a0 < 3)%nat).
  { destruct sample as [| t0 sample]; [discriminate |].
    simpl in Ha0. injection Ha0 as <-.
    apply list.Forall_cons in Hhot as [Ht0 _]. now apply hot_lt_3. }
  destruct (assign_targets_seq (columns_of sample) (hot a0) (length sample)
              0%nat preds Hk)
    as (target & Hrun & Hget).
  { intros j Hj. destruct (lookup_lt_is_Some_2 sample j) as [t Ht]; [lia |].
    destruct (Hrow j t Ht) as (q & pred & Hq & Hf & Hl & Hpj).
    exists q, pred. rewrite Q_new_columns, Ht.
    split; [exact Hq |]. split; [exact Hpj | lia]. }
  assert (Htarget : ∀ idx t, sample !! idx = Some t →
            ∃ q pred,
              q_of net gamma t = Some q ∧
              forward net (t_state t) = Some pred ∧ length pred = 3%nat ∧
              preds !! idx = Some pred ∧
              target !! idx = Some (<[hot a0 := q]> pred)).
  { intros idx t Ht. destruct (Hrow idx t Ht) as (q & pred & Hq & Hf & Hl & Hpj).
    exists q, pred. repeat (split; [assumption |]).
    rewrite Hget. destruct (decide _) as [_ | Hout].
    - rewrite Hpj, Q_new_columns, Ht. simpl. rewrite Hq. reflexivity.
    - apply lookup_lt_Some in Ht. lia. }
  exists preds, target. split; [reflexivity |]. split; [exact Hrun |].
  split; [exact Hlen |]. split; [| exact Htarget].
  apply length_by_lookup. intros idx. split.
  - intros Hsome. apply Nat.nle_gt. intros Hge.
    rewrite Hget in Hsome. destruct (decide _) as [? | _]; [lia |].
    apply lookup_lt_is_Some in Hsome. lia.
  - intros Hlt. destruct (lookup_lt_is_Some_2 sample idx Hlt) as [t Ht].
    destruct (Htarget idx t Ht) as (q & pred & _ & _ & _ & _ & ->). eauto.
Qed.

Lemma rectangular_lengths rows n :
  Forall (λ row : list Z, length row = n) rows → rectangular rows = true.
Proof.
  destruct 1 as [| row rows Hrow Hrows]; [reflexivity |].
  simpl. induction Hrows as [| row' rows' Hr' _ IH]; [reflexivity |].
  simpl. rewrite bool_decide_eq_true_2 by congruence. exact IH.
Qed.

Lemma one_hot_length a : one_hot a → length a = 3%nat.
Proof. intros [-> | [-> | ->]]; reflexivity. Qed.

Lemma unsqueeze_unzip sample args :
  unzip sample = Some args → Forall shaped sample →
  unsqueeze args = Some (columns_of sample).
Proof.
  intros Hz Hshape.
  assert (R1 : rectangular (t_state <$> sample) = true).
  { apply (rectangular_lengths _ 11), list.Forall_fmap.
    eapply Forall_impl; [| exact Hshape]. now intros t (? & ? & ?). }
  assert (R2 : rectangular (t_next_state <$> sample) = true).
  { apply (rectangular_lengths _ 11), list.Forall_fmap.
    eapply Forall_impl; [| exact Hshape]. now intros t (? & ? & ?). }
  assert (R3 : rectangular (t_action <$> sample) = true).
  { apply (rectangular_lengths _ 3), list.Forall_fmap.
    eapply Forall_impl; [| exact Hshape].
    intros t (_ & _ & Hhot). now apply one_hot_length. }
  destruct sample as [| t sample]; [discriminate |].
  injection Hz as <-.
  change (unsqueeze _)
    with (if rectangular (t_state <$> t :: sample)
             && rectangular (t_next_state <$> t :: sample)
             && rectangular (t_action <$> t :: sample)
          then Some (columns_of (t :: sample)) else None).
  now rewrite R1, R2, R3.
Qed.

Lemma unsqueeze_single t :
  unsqueeze (Single (t_state t) (t_action t) (t_reward t) (t_next_state t)
                    (t_done t))
  = Some (columns_of [t]).
Proof. reflexivity. Qed.

Lemma unsqueeze_nonempty args sample :
  unsqueeze args = Some (columns_of sample) → sample ≠ [].
Proof.
  intros Hargs ->. destruct args as [| [| s ss] acs rws nss ds];
    try discriminate.
  simpl in Hargs. destruct (_ && _); discriminate.
Qed.

(** C7: on a batch whose transitions all have [done = True] (with states
    of 11 entries and canonical actions), [train_step] produces its
    targets, and the value it writes into each row is exactly the reward
    of the row's transition: the row is the prediction with that one entry
    replaced by the reward, and [gamma] and the forward pass on the next
    state take no part in it. *)
Theorem done_targets_are_rewards (sample : list Transition) args :
  unsqueeze args = Some (columns_of sample) →
  Forall (λ t, length (t_state t) = 11%nat) sample →
  Forall (λ t, one_hot (t_action t)) sample →
  Forall (λ t, t_done t = true) sample →
  ∃ target k,
    train_targets net gamma args = Some target ∧
    action_index (columns_of sample) = Some k ∧
    length target = length sample ∧
    ∀ idx t, sample !! idx = Some t →
      ∃ pred,
        forward net (t_state t) = Some pred ∧
        target !! idx = Some (<[k := of_int (t_reward t)]> pred) ∧
        (target !! idx ≫= (.!! k)) = Some (of_int (t_reward t)).
Proof.
  intros Hargs Hstate Hhot Hdone.
  destruct sample as [| t0 rest] eqn:Hs;
    [now apply unsqueeze_nonempty in Hargs |].
  rewrite <- Hs in *.
  assert (Ha0 : t_action <$> sample !! 0%nat = Some (t_action t0))
    by (rewrite Hs; reflexivity).
  destruct (train_targets_rows sample args (t_action t0) Hargs Ha0 Hhot Hstate)
    as (preds & target & _ & Hrun & _ & Hlen & Hget).
  { eapply Forall_impl; [| exact Hdone]. intros t Ht Hf. simpl in *. congruence. }
  assert (Ht0 : one_hot (t_action t0)).
  { rewrite Hs in Hhot. now apply list.Forall_cons in Hhot as [? _]. }
  exists target, (hot (t_action t0)). split; [exact Hrun |]. split; [| split].
  - unfold action_index. rewrite Hs. simpl. rewrite Hs in Hhot.
    apply list.Forall_cons in Hhot as [_ Hrest].
    apply (argmax_first_row (t_action t0) (t_action <$> rest) Ht0).
    apply list.Forall_fmap. exact Hrest.
  - exact Hlen.
  - intros idx t Ht.
    destruct (Hget idx t Ht) as (q & pred & Hq & Hf & Hl & _ & Hrow).
    rewrite q_of_done in Hq.
    + injection Hq as <-. exists pred. split; [exact Hf |].
      split; [exact Hrow |]. rewrite Hrow. simpl.
      apply list_lookup_insert_eq. rewrite Hl. now apply hot_lt_3.
    + rewrite list.Forall_forall in Hdone. apply Hdone.
      eapply list_elem_of_lookup_2, Ht.
Qed.
End TrainerFacts.

Lemma done_targets_are_rewards_witness :
  let sample :=
    [mkTransition [0; 0; 0; 0; 1; 0; 0; 1; 0; 1; 0] [0; 1; 0] (-10)
                  [1; 0; 0; 0; 0; 0; 1; 1; 0; 1; 0] true;
     mkTransition [1; 0; 0; 1; 0; 0; 0; 0; 1; 0; 1] [0; 0; 1] (-10)
                  [0; 0; 0; 0; 0; 1; 0; 0; 1; 0; 1] true] in
  let net := [1 # 2; 1 # 4; 1 # 8]%Q in
  ∃ args,
    unzip sample = Some args ∧
    ∃ target k,
      train_targets (H := Rational.rational_tensors) net (9 # 10)%Q args
      = Some target ∧
      action_index (columns_of sample) = Some k ∧
      length target = length sample ∧
      ∀ idx t, sample !! idx = Some t →
        ∃ pred,
          Rational.table_forward net (t_state t) = Some pred ∧
          target !! idx = Some (<[k := inject_Z (t_reward t)]> pred) ∧
          (target !! idx ≫= (.!! k)) = Some (inject_Z (t_reward t)).
Proof.
  intros sample net. eexists. split; [reflexivity |].
  apply (done_targets_are_rewards (H := Rational.rational_tensors) net
           (9 # 10)%Q sample).
  - reflexivity.
  - apply list.Forall_cons. split; [reflexivity |].
    apply list.Forall_cons. split; [reflexivity |].
    apply list.Forall_nil. exact I.
  - apply list.Forall_cons. split; [right; left; reflexivity |].
    apply list.Forall_cons. split; [right; right; reflexivity |].
    apply list.Forall_nil. exact I.
  - apply list.Forall_cons. split; [reflexivity |].
    apply list.Forall_cons. split; [reflexivity |].
    apply list.Forall_nil. exact I.
Defined.

(** C1 fails on batches: with two transitions whose actions are [1,0,0] and
    [0,1,0], [train_step] overwrites index 0 in BOTH rows.  The second row
    keeps its prediction at index 1, the index of its own action, and has
    its [Q_new] written at index 0, the index of the first row's action. *)
Lemma batch_rows_share_first_action_index :
  let t0 := mkTransition [0; 0; 0; 0; 1; 0; 0; 1; 0; 1; 0] [1; 0; 0] 10
                         [0; 0; 0; 0; 1; 0; 0; 0; 1; 1; 0] false in
  let t1 := mkTransition [1; 0; 0; 1; 0; 0; 0; 0; 1; 0; 1] [0; 1; 0] (-10)
                         [0; 0; 0; 0; 0; 1; 0; 0; 1; 0; 1] true in
  let net := [1 # 2; 1 # 4; 1 # 8]%Q in
  let predict := Rational.table_forward net in
  predict (t_state t1) = Some [9 # 2; 1 # 4; -31 # 8]%Q ∧
  hot (t_action t1) = 1%nat ∧
  ∃ args target row1,
    unzip [t0; t1] = Some args ∧
    train_targets (H := Rational.rational_tensors) net (9 # 10)%Q args
    = Some target ∧
    target !! 1%nat = Some row1 ∧
    row1 = [-10 # 1; 1 # 4; -31 # 8]%Q ∧
    Some row1
    ≠ (insert (hot (t_action t1)) (-10 # 1)%Q <$> predict (t_state t1)) ∧
    Some row1
    = (insert (hot (t_action t0)) (-10 # 1)%Q <$> predict (t_state t1)).
Proof.
  intros t0 t1 net predict. split; [reflexivity |]. split; [reflexivity |].
  eexists _, _, _. split; [reflexivity |].
  split; [vm_compute; reflexivity |].
  split; [reflexivity |]. split; [reflexivity |].
  split; [intros Hc; vm_compute in Hc; discriminate Hc | reflexivity].
Qed.

(** ** The policy *)
Section PolicyFacts.
Context `{Tensors}.

Lemma argmax_from_lt {A} (gtb : A → A → bool) l : ∀ best_i best i,
  (best_i < i)%nat → (argmax_from gtb best_i best i l < i + length l)%nat.
Proof.
  induction l as [| a l IH]; intros best_i best i Hlt; simpl; [lia |].
  destruct (gtb a best).
  - specialize (IH i a (S i) ltac:(lia)). lia.
  - specialize (IH best_i best (S i) ltac:(lia)). lia.
Qed.

Lemma argmax_lt {A} (gtb : A → A → bool) l k :
  argmax gtb l = Some k → (k < length l)%nat.
Proof.
  destruct l as [| a l]; [discriminate |]. intros [= <-].
  apply (argmax_from_lt gtb l 0%nat a 1%nat). lia.
Qed.

Lemma argmax_forward net s out :
  forward net s = Some out →
  ∃ k, argmax fgtb out = Some k ∧ (k < 3)%nat.
Proof.
  intros Hout. apply forward_Some_inv in Hout as [_ Hlen].
  destruct (argmax fgtb out) as [k |] eqn:Hk.
  - exists k. split; [reflexivity |]. apply argmax_lt in Hk. lia.
  - destruct out; discriminate.
Qed.

(** C3, as stated, fails on the range of the draw: it is the closed range
    [0, 200], and 200 is drawn. *)
Lemma explore_draw_reaches_200 : ¬ (∀ r, 0 ≤ (explore_draw r).1 < 200).
Proof.
  intros Hall. specialize (Hall (rng_of [200])).
  vm_compute in Hall. destruct Hall as [_ Hlt]. discriminate.
Qed.

(** C3 (amended): action selection sets epsilon to
    [max(5, 80 - n_game)] and draws an integer of the closed range
    [0, 200], each of whose 201 values can come out; when the draw is
    below epsilon it returns the one-hot vector of a second draw from
    {0, 1, 2}, and otherwise the one-hot vector at the argmax of the
    forward pass on the state (a state of 11 entries: on any other the
    forward pass raises). *)
Theorem get_action_policy (a : HeadlessAgent) (state : list Z) (r : Rng) :
  let eps := Z.max 5 (80 - n_game a) in
  let d := (explore_draw r).1 in
  let r1 := (explore_draw r).2 in
  0 ≤ d ≤ 200 ∧
  (∀ v, 0 ≤ v ≤ 200 → ∃ r0, (explore_draw r0).1 = v) ∧
  (d < eps →
   let move := (randint 0 2 r1).1 in
   0 ≤ move ≤ 2 ∧
   get_action a state r
   = Some (<[Z.to_nat move := 1]> [0; 0; 0], set_epsilon a eps,
           (randint 0 2 r1).2)) ∧
  (eps ≤ d → length state = 11%nat →
   ∃ prediction k,
     forward (model a) state = Some prediction ∧
     argmax fgtb prediction = Some k ∧ (k < 3)%nat ∧
     get_action a state r
     = Some (<[k := 1]> [0; 0; 0], set_epsilon a eps, r1)) ∧
  (eps ≤ d → length state ≠ 11%nat → get_action a state r = None).
Proof.
  intros eps d r1.
  assert (Hd : 0 ≤ d ≤ 200) by (apply randint_range; lia).
  split; [exact Hd |]. split; [| split; [| split]].
  - intros v Hv. exists (mkRng (λ _, v - 0) 0).
    apply (randint_any 0 200 v 0%nat Hv).
  - intros Hlt move.
    assert (Hm : 0 ≤ move ≤ 2) by (apply randint_range; lia).
    split; [exact Hm |]. unfold get_action.
    change (explore_draw r) with (d, r1). cbn [epsilon set_epsilon].
    fold eps. rewrite (proj2 (Z.ltb_lt d eps) Hlt).
    change (randint 0 2 r1) with (move, (randint 0 2 r1).2).
    cbn beta iota. unfold setitem.
    rewrite bool_decide_eq_true_2 by (simpl; lia). reflexivity.
  - intros Hge Hlen.
    destruct (forward_Some (model a) state Hlen) as (prediction & Hf & _).
    destruct (argmax_forward (model a) state prediction Hf) as (k & Hk & Hk3).
    exists prediction, k. split; [exact Hf |].
    split; [exact Hk |]. split; [exact Hk3 |].
    unfold get_action.
    change (explore_draw r) with (d, r1). cbn [epsilon set_epsilon].
    fold eps. rewrite (proj2 (Z.ltb_ge d eps) Hge).
    change (model (set_epsilon a eps)) with (model a).
    rewrite Hf. simpl. rewrite Hk. simpl. unfold setitem.
    rewrite bool_decide_eq_true_2 by (simpl; lia). reflexivity.
  - intros Hge Hlen. unfold get_action.
    change (explore_draw r) with (d, r1). cbn [epsilon set_epsilon].
    fold eps. rewrite (proj2 (Z.ltb_ge d eps) Hge).
    change (model (set_epsilon a eps)) with (model a).
    now rewrite (forward_None (model a) state Hlen).
Qed.
End PolicyFacts.

Lemma get_action_policy_witness :
  let a := mkAgent (H := Rational.rational_tensors) 100 0 (9 # 10)%Q
                   (new_deque MAX_MEMORY) [1 # 2; 3 # 4; 1 # 8]%Q in
  let state := [0; 0; 0; 0; 1; 0; 0; 0; 0; 0; 0] in
  5 ≤ (explore_draw (rng_of [7])).1 ∧ length state = 11%nat ∧
  ∃ prediction k,
    forward (model a) state = Some prediction ∧
    argmax fgtb prediction = Some k ∧ (k < 3)%nat ∧
    get_action a state (rng_of [7])
    = Some (<[k := 1]> [0; 0; 0], set_epsilon a 5,
            (explore_draw (rng_of [7])).2).
Proof.
  intros a state.
  assert (Hge : 5 ≤ (explore_draw (rng_of [7])).1) by (vm_compute; discriminate).
  assert (Hlen : length state = 11%nat) by reflexivity.
  split; [exact Hge |]. split; [exact Hlen |].
  exact (proj1 (proj2 (proj2 (proj2 (get_action_policy a state (rng_of [7])))))
           Hge Hlen).
Defined.

(** ** The training loop *)
Section LoopFacts.
Context `{Tensors}.

Lemma get_action_n_game (a a' : HeadlessAgent) state r move r' :
  get_action a state r = Some (move, a', r') → n_game a' = n_game a.
Proof.
  unfold get_action. destruct (explore_draw r) as [d r1].
  destruct (d <? _).
  - destruct (randint 0 2 r1) as [m r2].
    destruct (setitem _ _ _); simpl; [| discriminate].
    intros [= _ <- _]. reflexivity.
  - destruct (forward _ _); simpl; [| discriminate].
    destruct (argmax _ _); simpl; [| discriminate].
    destruct (setitem _ _ _); simpl; [| discriminate].
    intros [= _ <- _]. reflexivity.
Qed.

Lemma train_short_memory_n_game (a a' : HeadlessAgent) t :
  train_short_memory a t = Some a' → n_game a' = n_game a.
Proof.
  unfold train_short_memory. destruct (train_step _ _ _); simpl;
    [| discriminate].
  intros [= <-]. reflexivity.
Qed.

Lemma train_long_memory_n_game fuel (a a' : HeadlessAgent) r r' :
  train_long_memory fuel a r = Some (a', r') → n_game a' = n_game a.
Proof.
  unfold train_long_memory.
  destruct (mini_sample _ _ _ _) as [[sample r1] |]; simpl; [| discriminate].
  destruct (unzip sample); simpl; [| discriminate].
  destruct (train_step _ _ _); simpl; [| discriminate].
  intros [= <- _]. reflexivity.
Qed.

(** The replay memory of the agent is the deque made by [__init__], and
    [remember] is its [append]. *)
Lemma memory_remember (a : HeadlessAgent) ts :
  memory (foldl remember a ts) = foldl append (memory a) ts.
Proof.
  revert a. induction ts as [| t ts IH]; intros a; [reflexivity |].
  simpl. now rewrite IH.
Qed.

(** Every round of the loop adds one to [n_game], whether or not the game
    ended in it. *)
Lemma train_iteration_n_game depth fuel (t t' : Training) :
  train_iteration depth fuel t = Some t' →
  n_game (agent t') = n_game (agent t) + 1.
Proof.
  unfold train_iteration.
  destruct (get_state (game t)) as [state_old |]; simpl; [| discriminate].
  destruct (get_action _ state_old (rng t)) as [[[action a1] r1] |] eqn:Hact;
    simpl; [| discriminate].
  apply get_action_n_game in Hact. simpl in Hact.
  destruct (play_step_headless depth r1 (game t) action)
    as [[[[[reward done] sc] g1] r2] |]; simpl; [| discriminate].
  destruct (get_state g1) as [state_new |]; simpl; [| discriminate].
  destruct (train_short_memory _ _) as [a2 |] eqn:Hshort; simpl;
    [| discriminate].
  apply train_short_memory_n_game in Hshort. simpl in Hshort.
  destruct done.
  - destruct (reset depth r2) as [[g2 r3] |]; simpl; [| discriminate].
    destruct (train_long_memory fuel a2 r3) as [[a3 r4] |] eqn:Hlong; simpl;
      [| discriminate].
    apply train_long_memory_n_game in Hlong.
    intros [= <-]. simpl. lia.
  - intros [= <-]. simpl. lia.
Qed.

Lemma train_iterations_n_game depth fuel n : ∀ (t t' : Training),
  train_iterations depth fuel n t = Some t' →
  n_game (agent t') = n_game (agent t) + Z.of_nat n.
Proof.
  induction n as [| n IH]; intros t t'; simpl.
  - intros [= <-]. lia.
  - destruct (train_iteration depth fuel t) as [t1 |] eqn:Hit; simpl;
      [| discriminate].
    intros Hrest. apply IH in Hrest.
    apply train_iteration_n_game in Hit. lia.
Qed.
End LoopFacts.

(** C2 fails on the code: [n_game] counts the rounds of the loop, that is
    the steps.  Two steps into the first game, no episode is complete, and
    [n_game] is 2 and epsilon has gone from 80 to 78. *)
Lemma n_game_counts_steps :
  let start :=
    train_start (H := Rational.rational_tensors) 1 [1 # 2; 1 # 4; 1 # 8]%Q
                (rng_of [5; 5; 150; 150]) in
  let after := start ≫= train_iterations 1 1 2 in
  (n_game ∘ agent <$> start) = Some 0 ∧
  (n_game ∘ agent <$> after) = Some 2 ∧
  (epsilon ∘ agent <$> after) = Some 78 ∧
  (completed_episodes <$> after) = Some 0 ∧
  (snake ∘ game <$> after)
  = Some [mkPoint 360 240; mkPoint 340 240; mkPoint 320 240].
Proof.
  intros start after. repeat split; vm_compute; reflexivity.
Qed.


(** * Further properties of the code *)

(** ** Moving and turning *)
Section MoveFacts.

Lemma move_direction g action :
  direction (_move g action)
  = if array_equal action [1; 0; 0] then direction g
    else if array_equal action [0; 1; 0] then turn_right (direction g)
    else turn_left (direction g).
Proof.
  unfold _move. cbn [direction].
  destruct (array_equal action [1; 0; 0]);
    [| destruct (array_equal action [0; 1; 0])];
    destruct (direction g); reflexivity.
Qed.

Lemma move_head g action :
  head (_move g action) = ahead (direction (_move g action)) (head g).
Proof.
  unfold _move. cbn [direction head].
  match goal with |- context [match ?d with RIGHT => _ | _ => _ end] =>
    destruct d end; reflexivity.
Qed.

(** [_move] decodes every action that is neither [1,0,0] nor [0,1,0] as a
    left turn, whatever it holds; a right turn and a left turn undo each
    other in either order, and four right turns come back to the heading
    one started from. *)
Theorem turns_compose g action :
  action ≠ [1; 0; 0] → action ≠ [0; 1; 0] →
  direction (_move g action) = turn_left (direction g) ∧
  direction (_move (_move g [0; 1; 0]) action) = direction g ∧
  direction (_move (_move g action) [0; 1; 0]) = direction g ∧
  direction (_move (_move (_move (_move g [0; 1; 0]) [0; 1; 0]) [0; 1; 0])
                   [0; 1; 0]) = direction g.
Proof.
  intros H1 H2.
  assert (Hl : ∀ g', direction (_move g' action) = turn_left (direction g')).
  { intros g'. rewrite move_direction. unfold array_equal.
    rewrite !bool_decide_eq_false_2 by assumption. reflexivity. }
  assert (Hr : ∀ g', direction (_move g' [0; 1; 0]) = turn_right (direction g')).
  { intros g'. rewrite move_direction. reflexivity. }
  rewrite !Hl, !Hr, !Hl. destruct (direction g); repeat split.
Qed.

Lemma turns_compose_witness :
  let g := initial_game (mkPoint 100 100) in
  direction (_move g [1; 1; 1]) = turn_left (direction g) ∧
  direction (_move (_move g [0; 1; 0]) [1; 1; 1]) = direction g ∧
  direction (_move (_move g [1; 1; 1]) [0; 1; 0]) = direction g ∧
  direction (_move (_move (_move (_move g [0; 1; 0]) [0; 1; 0]) [0; 1; 0])
                   [0; 1; 0]) = direction g.
Proof.
  intros g. apply (turns_compose g [1; 1; 1]); discriminate.
Defined.

Lemma move_never_reverses g action :
  direction (_move g action) ≠ opposite (direction g).
Proof.
  rewrite move_direction.
  destruct (array_equal action [1; 0; 0]);
    [| destruct (array_equal action [0; 1; 0])];
    destruct (direction g); discriminate.
Qed.

(** Whatever the action, [_move] never turns the snake back on itself, and
    it moves the head by exactly one block along the new heading: one
    coordinate changes by 20, the other one is kept. *)
Theorem move_one_block g action :
  let g' := _move g action in
  direction g' ≠ opposite (direction g) ∧
  head g' = ahead (direction g') (head g) ∧
  Z.abs (x (head g') - x (head g)) + Z.abs (y (head g') - y (head g))
  = BLOCK_SIZE ∧
  snake g' = snake g ∧ score g' = score g ∧ food g' = food g.
Proof.
  intros g'. split; [| split; [apply move_head | split; [| repeat split]]].
  - apply move_never_reverses.
  - unfold g'. rewrite move_head.
    destruct (direction (_move g action)); unfold ahead, BLOCK_SIZE;
      cbn [x y]; lia.
Qed.

End MoveFacts.

(** ** Games in play *)
Section PlayFacts.

Lemma on_grid_bounds p : on_grid p → out_of_bounds p = false.
Proof.
  intros (Hx & Hy & _). apply not_true_is_false.
  rewrite out_of_bounds_spec. unfold BLOCK_SIZE in *. lia.
Qed.

Lemma ahead_on_grid d p :
  on_grid p → out_of_bounds (ahead d p) = false → on_grid (ahead d p).
Proof.
  intros (Hx & Hy & Hmx & Hmy) Hout.
  apply not_true_iff_false in Hout. rewrite out_of_bounds_spec in Hout.
  unfold on_grid, BLOCK_SIZE in *.
  destruct d; unfold ahead, BLOCK_SIZE in *; cbn [x y] in *;
    repeat split; try lia; Z.div_mod_to_equations; lia.
Qed.

Lemma behind_ahead g action :
  behind (advance_head g action) = head g.
Proof.
  unfold behind. cbn [advance_head direction head].
  rewrite move_head. destruct (head g) as [hx hy].
  destruct (direction (_move g action)); unfold ahead; cbn [x y];
    f_equal; lia.
Qed.

Lemma removelast_take {A} (l : list A) :
  removelast l = take (length l - 1) l.
Proof.
  rewrite removelast_firstn_len. f_equal. lia.
Qed.

(** The grid has 32 x 24 cells: pairwise distinct cells are at most 768. *)
Lemma grid_capacity (l : list Point) :
  NoDup l → Forall on_grid l → (length l ≤ 768)%nat.
Proof.
  intros Hnd Hgrid.
  set (cell := λ p : Point, Z.to_nat (x p `div` 20 * 24 + y p `div` 20)).
  assert (Hinj : ∀ p q, p ∈ l → q ∈ l → cell p = cell q → p = q).
  { intros [px py] [qx qy] Hp Hq Hc.
    rewrite list.Forall_forall in Hgrid.
    destruct (Hgrid _ Hp) as (Hpx & Hpy & Hpmx & Hpmy).
    destruct (Hgrid _ Hq) as (Hqx & Hqy & Hqmx & Hqmy).
    unfold cell, BLOCK_SIZE in *. cbn [x y] in *.
    pose proof (Z.div_mod px 20 ltac:(lia)).
    pose proof (Z.div_mod py 20 ltac:(lia)).
    pose proof (Z.div_mod qx 20 ltac:(lia)).
    pose proof (Z.div_mod qy 20 ltac:(lia)).
    assert (0 ≤ px `div` 20 ≤ 31) by (split; [apply Z.div_pos | apply Z.div_le_upper_bound]; lia).
    assert (0 ≤ py `div` 20 ≤ 23) by (split; [apply Z.div_pos | apply Z.div_le_upper_bound]; lia).
    assert (0 ≤ qx `div` 20 ≤ 31) by (split; [apply Z.div_pos | apply Z.div_le_upper_bound]; lia).
    assert (0 ≤ qy `div` 20 ≤ 23) by (split; [apply Z.div_pos | apply Z.div_le_upper_bound]; lia).
    f_equal; lia. }
  assert (Hnd' : NoDup (cell <$> l)) by (now apply NoDup_fmap_2_strong).
  assert (Hsub : cell <$> l ⊆ seq 0 768).
  { intros c Hc. apply list_elem_of_fmap in Hc as (p & -> & Hp).
    rewrite list.Forall_forall in Hgrid.
    destruct (Hgrid _ Hp) as (Hpx & Hpy & _).
    apply elem_of_seq. unfold cell, BLOCK_SIZE in *.
    assert (0 ≤ x p `div` 20 ≤ 31) by (split; [apply Z.div_pos | apply Z.div_le_upper_bound]; lia).
    assert (0 ≤ y p `div` 20 ≤ 23) by (split; [apply Z.div_pos | apply Z.div_le_upper_bound]; lia).
    lia. }
  pose proof (submseteq_length _ _ (NoDup_submseteq _ _ Hnd' Hsub)) as Hlen.
  rewrite length_fmap, length_seq in Hlen. exact Hlen.
Qed.

Lemma sound_initial f :
  on_grid f → f ∉ snake (initial_game f) → sound (initial_game f).
Proof.
  intros Hgrid Hfree. split.
  - reflexivity.
  - reflexivity.
  - simpl. lia.
  - repeat (apply NoDup_cons_2 || apply NoDup_nil_2);
      rewrite ?elem_of_cons, ?elem_of_nil; unfold BLOCK_SIZE; cbn;
      intuition discriminate.
  - repeat (apply Forall_cons_2 || apply Forall_nil_2);
      unfold on_grid, BLOCK_SIZE; cbn; repeat split; lia.
  - exact Hfree.
  - exact Hgrid.
  - reflexivity.
  - simpl. lia.
Qed.

Lemma sound_init depth r g r' : init depth r = Some (g, r') → sound g.
Proof.
  unfold init.
  destruct (_place_food depth r _) as [[f r1] |] eqn:Hplace; simpl;
    [| discriminate].
  intros [= <- <-]. apply sound_initial.
  - eapply place_food_on_grid, Hplace.
  - eapply place_food_free, Hplace.
Qed.

(** The three outcomes of a step. *)
Lemma play_step_cases depth r g action res g' r' :
  play_step_headless depth r g action = Some (res, g', r') →
  let g1 := advance_head g action in
  (game_over g1 = true ∧ res = (-1, true, score g) ∧ g' = g1 ∧ r' = r) ∨
  (game_over g1 = false ∧ head g1 = food g ∧
   ∃ f, _place_food depth r (snake g1) = Some (f, r') ∧
        res = (10, false, score g + 1) ∧
        g' = with_food g1 (score g + 1) f) ∨
  (game_over g1 = false ∧ head g1 ≠ food g ∧
   res = (0, false, score g) ∧ g' = pop_tail g1 ∧ r' = r).
Proof.
  intros Hstep g1. unfold play_step_headless in Hstep. fold g1 in Hstep.
  destruct (game_over g1) eqn:Hover.
  - injection Hstep as <- <- <-. left. auto.
  - right. case_bool_decide as Hfood.
    + destruct (_place_food depth r (snake g1)) as [[f r2] |] eqn:Hplace;
        simpl in Hstep; [| discriminate].
      injection Hstep as <- <- <-. left. eauto 10.
    + injection Hstep as <- <- <-. right. auto.
Qed.

Lemma game_over_false g :
  game_over g = false →
  out_of_bounds (head g) = false ∧ (head g ∉ drop 1 (snake g)) ∧
  frame_iteration g ≤ 100 * Z.of_nat (length (snake g)).
Proof.
  intros Hover. apply not_true_iff_false in Hover.
  rewrite game_over_terminal in Hover. unfold terminal in Hover.
  repeat split.
  - apply not_true_iff_false. rewrite out_of_bounds_spec.
    intros Hout. apply Hover. left. lia.
  - tauto.
  - lia.
Qed.

Lemma sound_step depth r g action reward sc g' r' :
  sound g →
  play_step_headless depth r g action = Some ((reward, false, sc), g', r') →
  sound g'.
Proof.
  intros Hs Hstep. destruct Hs as [Hh Hn Hl Hnd Hin Hf Hfg Hsc Hfr].
  apply play_step_cases in Hstep. cbn zeta in Hstep.
  set (g1 := advance_head g action) in *.
  assert (Hsn : snake g1 = head g1 :: snake g) by reflexivity.
  assert (Hhg : on_grid (head g)).
  { rewrite list.Forall_forall in Hin. apply Hin.
    eapply list_elem_of_lookup_2, Hh. }
  destruct Hstep as [(_ & Hres & _) | [(Hover & Hfood & f & Hplace & _ & ->)
                                      | (Hover & Hfood & _ & -> & _)]];
    [discriminate | |];
    apply game_over_false in Hover as (Hout & Hself & Hframe);
    rewrite Hsn in Hself, Hframe; cbn [drop] in Hself;
    rewrite drop_0 in Hself;
    (assert (Hg1 : on_grid (head g1));
     [unfold g1; cbn [advance_head head]; rewrite move_head;
      apply ahead_on_grid; [exact Hhg |];
      rewrite <- move_head; exact Hout |]).
  - set (g2 := with_food g1 (score g + 1) f).
    assert (Hsn2 : snake g2 = head g1 :: snake g) by reflexivity.
    split; rewrite ?Hsn2.
    + reflexivity.
    + change ((head g1 :: snake g) !! 1%nat) with (snake g !! 0%nat).
      rewrite Hh. f_equal. symmetry. exact (behind_ahead g action).
    + cbn [length]. lia.
    + now apply NoDup_cons_2.
    + now apply Forall_cons_2.
    + change (food g2) with f. rewrite <- Hsn.
      eapply place_food_free, Hplace.
    + change (food g2) with f. eapply place_food_on_grid, Hplace.
    + cbn [length]. change (score g2) with (score g + 1). lia.
    + cbn [length] in *.
      change (frame_iteration g2) with (frame_iteration g + 1).
      change (frame_iteration g1) with (frame_iteration g + 1) in Hframe.
      lia.
  - set (g2 := pop_tail g1).
    assert (Hsn2 : snake g2
                   = head g1 :: take (length (snake g) - 1) (snake g)).
    { unfold g2. cbn [pop_tail snake]. rewrite Hsn, removelast_take.
      cbn [length].
      replace (S (length (snake g)) - 1)%nat
        with (S (length (snake g) - 1)) by lia.
      reflexivity. }
    split; rewrite ?Hsn2.
    + reflexivity.
    + change ((head g1 :: take (length (snake g) - 1) (snake g)) !! 1%nat)
        with (take (length (snake g) - 1) (snake g) !! 0%nat).
      rewrite lookup_take_lt by lia. rewrite Hh. f_equal.
      symmetry. exact (behind_ahead g action).
    + cbn [length]. rewrite length_take. lia.
    + apply NoDup_cons_2.
      * intros Hin'. apply Hself. eapply subseteq_take, Hin'.
      * eapply sublist_NoDup; [exact Hnd | apply sublist_take].
    + apply Forall_cons_2; [exact Hg1 | now apply Forall_take].
    + change (food g2) with (food g). intros Hin'.
      apply elem_of_cons in Hin' as [Heq | Hin'].
      * apply Hfood. symmetry. exact Heq.
      * apply Hf. eapply subseteq_take, Hin'.
    + exact Hfg.
    + cbn [length]. rewrite length_take. change (score g2) with (score g). lia.
    + cbn [length] in *. rewrite length_take.
      change (frame_iteration g2) with (frame_iteration g + 1).
      change (frame_iteration g1) with (frame_iteration g + 1) in Hframe.
      lia.
Qed.

(** A game in play is sound, and its frame counter is the number of steps
    played since the reset. *)
Lemma playing_sound n g :
  playing n g → sound g ∧ frame_iteration g = Z.of_nat n.
Proof.
  induction 1 as [depth r g r' Hinit | n depth r g action reward sc g' r' _ [IHs IHf] Hstep].
  - split; [eapply sound_init, Hinit |].
    unfold init in Hinit. destruct (_place_food _ _ _) as [[f r1] |];
      simpl in Hinit; [| discriminate].
    injection Hinit as <- _. reflexivity.
  - split; [eapply sound_step; eauto |].
    apply play_step_cases in Hstep. cbn zeta in Hstep.
    destruct Hstep as [(_ & Hres & _) | [(_ & _ & f & _ & _ & ->)
                                        | (_ & _ & _ & -> & _)]];
      [discriminate | |];
      cbn [with_food pop_tail frame_iteration advance_head]; lia.
Qed.

Lemma is_collision_point g p :
  is_collision g (Some p)
  = out_of_bounds p || bool_decide (p ∈ drop 1 (snake g)).
Proof.
  unfold is_collision. change (default (head g) (Some p)) with p.
  destruct (out_of_bounds p); [reflexivity |].
  destruct (bool_decide _); reflexivity.
Qed.

Lemma is_collision_head g :
  is_collision g None = is_collision g (Some (head g)).
Proof. reflexivity. Qed.

(** While a game is in play, its food lies on a cell of the grid that no
    segment of the snake occupies, so that stepping on the food is never a
    collision. *)
Theorem food_is_a_free_cell n g :
  playing n g →
  (food g ∉ snake g) ∧ on_grid (food g) ∧
  is_collision g (Some (food g)) = false.
Proof.
  intros Hp. destruct (playing_sound n g Hp) as [Hs _].
  destruct Hs as [Hh Hn Hl Hnd Hin Hf Hfg Hsc Hfr].
  split; [exact Hf |]. split; [exact Hfg |].
  rewrite is_collision_point, (on_grid_bounds _ Hfg).
  rewrite bool_decide_eq_false_2; [reflexivity |].
  intros Hin'. apply Hf. eapply subseteq_drop, Hin'.
Qed.

Lemma food_is_a_free_cell_witness :
  let g := initial_game (mkPoint 100 100) in
  (food g ∉ snake g) ∧ on_grid (food g) ∧
  is_collision g (Some (food g)) = false.
Proof.
  intros g. apply (food_is_a_free_cell 0 g).
  apply (playing_init 1 (rng_of [5; 5]) g (advance (advance (rng_of [5; 5])))).
  reflexivity.
Defined.

(** While a game is in play, the snake is a list of pairwise distinct cells
    of the grid whose first element is the head: it has between 3 and 768
    segments and the head collides with nothing. *)
Theorem snake_is_a_simple_path n g :
  playing n g →
  snake g !! 0%nat = Some (head g) ∧ NoDup (snake g) ∧
  Forall on_grid (snake g) ∧
  (3 ≤ length (snake g) ≤ 768)%nat ∧
  is_collision g None = false.
Proof.
  intros Hp. destruct (playing_sound n g Hp) as [Hs _].
  destruct Hs as [Hh Hn Hl Hnd Hin Hf Hfg Hsc Hfr].
  split; [exact Hh |]. split; [exact Hnd |]. split; [exact Hin |].
  split; [split; [exact Hl | now apply grid_capacity] |].
  assert (Hhg : on_grid (head g)).
  { rewrite list.Forall_forall in Hin. apply Hin.
    eapply list_elem_of_lookup_2, Hh. }
  rewrite is_collision_head, is_collision_point, (on_grid_bounds _ Hhg).
  rewrite bool_decide_eq_false_2; [reflexivity |].
  destruct (snake g) as [| h s]; [discriminate |].
  injection Hh as ->. cbn [drop]. rewrite drop_0.
  now apply list.NoDup_cons in Hnd as [Hnot _].
Qed.

Lemma snake_is_a_simple_path_witness :
  let g := initial_game (mkPoint 100 100) in
  snake g !! 0%nat = Some (head g) ∧ NoDup (snake g) ∧
  Forall on_grid (snake g) ∧
  (3 ≤ length (snake g) ≤ 768)%nat ∧
  is_collision g None = false.
Proof.
  intros g. apply (snake_is_a_simple_path 0 g).
  apply (playing_init 1 (rng_of [5; 5]) g (advance (advance (rng_of [5; 5])))).
  reflexivity.
Defined.

(** While a game is in play, the score is the number of segments the snake
    has grown by since its initial three; it lies between 0 and 765. *)
Theorem score_counts_growth n g :
  playing n g →
  score g = Z.of_nat (length (snake g)) - 3 ∧ 0 ≤ score g ≤ 765.
Proof.
  intros Hp. destruct (playing_sound n g Hp) as [Hs _].
  pose proof (grid_capacity _ (sound_simple g Hs) (sound_inside g Hs)).
  pose proof (sound_long g Hs). pose proof (sound_score g Hs). lia.
Qed.

Lemma score_counts_growth_witness :
  let g := initial_game (mkPoint 100 100) in
  score g = Z.of_nat (length (snake g)) - 3 ∧ 0 ≤ score g ≤ 765.
Proof.
  intros g. apply (score_counts_growth 0 g).
  apply (playing_init 1 (rng_of [5; 5]) g (advance (advance (rng_of [5; 5])))).
  reflexivity.
Defined.

(** The stall guard bounds every game: [frame_iteration] is the number of
    steps played since the reset, a game still in play has made at most
    [100 * (score + 4)] of them, and never more than 76,900. *)
Theorem episode_is_bounded n g :
  playing n g →
  frame_iteration g = Z.of_nat n ∧
  Z.of_nat n ≤ 100 * (score g + 4) ∧
  Z.of_nat n ≤ 76900.
Proof.
  intros Hp. destruct (playing_sound n g Hp) as [Hs Hfr].
  pose proof (grid_capacity _ (sound_simple g Hs) (sound_inside g Hs)).
  pose proof (sound_frame g Hs). pose proof (sound_score g Hs). lia.
Qed.

Lemma episode_is_bounded_witness :
  let g := mkGame RIGHT (mkPoint 340 240)
                  [mkPoint 340 240; mkPoint 320 240; mkPoint 300 240]
                  0 (mkPoint 100 100) 1 in
  frame_iteration g = Z.of_nat 1 ∧
  Z.of_nat 1 ≤ 100 * (score g + 4) ∧
  Z.of_nat 1 ≤ 76900.
Proof.
  intros g. apply (episode_is_bounded 1 g).
  apply (playing_step 0 1 (rng_of []) (initial_game (mkPoint 100 100))
           [1; 0; 0] 0 0 g (rng_of [])).
  - apply (playing_init 1 (rng_of [5; 5]) _ (advance (advance (rng_of [5; 5])))).
    reflexivity.
  - reflexivity.
Defined.

(** While a game is in play, the second segment of the snake is the cell
    behind the head, and no action moves the head onto it: the snake cannot
    run into its own neck. *)
Theorem head_never_hits_neck n g action :
  playing n g →
  snake g !! 1%nat = Some (behind g) ∧
  head (_move g action) ≠ behind g.
Proof.
  intros Hp. destruct (playing_sound n g Hp) as [Hs _].
  split; [exact (sound_neck g Hs) |].
  rewrite move_head. pose proof (move_never_reverses g action) as Hopp.
  unfold behind.
  destruct (direction (_move g action)), (direction g);
    try (exfalso; apply Hopp; reflexivity);
    unfold ahead, BLOCK_SIZE; destruct (head g) as [hx hy]; cbn [x y];
    intros [=]; lia.
Qed.

Lemma head_never_hits_neck_witness :
  let g := initial_game (mkPoint 100 100) in
  snake g !! 1%nat = Some (behind g) ∧
  head (_move g [0; 0; 1]) ≠ behind g.
Proof.
  intros g. apply (head_never_hits_neck 0 g [0; 0; 1]).
  apply (playing_init 1 (rng_of [5; 5]) g (advance (advance (rng_of [5; 5])))).
  reflexivity.
Defined.

(** The three outcomes of a step, for any game and action.  A terminal step
    returns reward -1 and leaves the score, with the new head inserted and
    nothing popped; eating returns reward 10 with the score and the length
    one higher; otherwise the reward is 0, score and length are kept and
    the random source is untouched.  The score returned is the score of the
    game after the step, and the frame counter went up by one. *)
Theorem step_outcomes depth r g action reward done sc g' r' :
  play_step_headless depth r g action = Some ((reward, done, sc), g', r') →
  sc = score g' ∧ frame_iteration g' = frame_iteration g + 1 ∧
  ((done = true ∧ reward = -1 ∧ score g' = score g ∧
    snake g' = head g' :: snake g ∧ r' = r) ∨
   (done = false ∧ reward = 10 ∧ score g' = score g + 1 ∧
    snake g' = head g' :: snake g ∧ head g' = food g) ∨
   (done = false ∧ reward = 0 ∧ score g' = score g ∧
    length (snake g') = length (snake g) ∧ r' = r)).
Proof.
  intros Hstep. apply play_step_cases in Hstep. cbn zeta in Hstep.
  destruct Hstep as [(_ & [= -> -> ->] & -> & ->)
                    | [(_ & Hfood & f & _ & [= -> -> ->] & ->)
                      | (_ & _ & [= -> -> ->] & -> & ->)]].
  - split; [reflexivity |]. split; [reflexivity |]. left. repeat split.
  - split; [reflexivity |]. split; [reflexivity |]. right. left.
    repeat split. exact Hfood.
  - split; [reflexivity |]. split; [reflexivity |]. right. right.
    repeat split. cbn [pop_tail snake]. rewrite advance_head_snake.
    rewrite removelast_take, length_take. cbn [length]. lia.
Qed.

Lemma step_outcomes_witness :
  let g := mkGame LEFT (mkPoint 0 240)
                  [mkPoint 0 240; mkPoint 20 240; mkPoint 40 240]
                  2 (mkPoint 100 100) 7 in
  ∃ g',
    play_step_headless 1 (rng_of []) g [1; 0; 0]
    = Some ((-1, true, 2), g', rng_of []) ∧
    2 = score g' ∧ frame_iteration g' = frame_iteration g + 1 ∧
    ((true = true ∧ -1 = -1 ∧ score g' = score g ∧
      snake g' = head g' :: snake g ∧ rng_of [] = rng_of []) ∨
     (true = false ∧ -1 = 10 ∧ score g' = score g + 1 ∧
      snake g' = head g' :: snake g ∧ head g' = food g) ∨
     (true = false ∧ -1 = 0 ∧ score g' = score g ∧
      length (snake g') = length (snake g) ∧ rng_of [] = rng_of [])).
Proof.
  intros g. eexists. split; [reflexivity |].
  apply (step_outcomes 1 (rng_of []) g [1; 0; 0] (-1) true 2 _ (rng_of [])).
  reflexivity.
Defined.

End PlayFacts.

(** ** The encoded state *)
Section StateFacts.
Context `{GameLike G}.

(** Evaluate the decisions on closed propositions. *)
Ltac eval_decisions :=
  repeat match goal with
         | |- context [bool_decide ?P] =>
             let b := eval vm_compute in (bool_decide P) in
             progress change (bool_decide P) with b
         end.

Lemma b2z_bit b : Z.b2z b = 0 ∨ Z.b2z b = 1.
Proof. destruct b; auto. Qed.

Lemma get_state_some_bits (game : G) state :
  get_state game = Some state → bits state.
Proof.
  unfold get_state. destruct (game_snake game) as [| h t]; simpl;
    [discriminate |].
  intros [= <-]. split; [reflexivity |].
  repeat (apply Forall_cons_2; [apply b2z_bit |]). apply Forall_nil_2.
Qed.

Lemma get_state_none (game : G) :
  get_state game = None ↔ game_snake game = [].
Proof.
  unfold get_state. destruct (game_snake game) as [| h t]; simpl.
  - split; reflexivity.
  - split; discriminate.
Qed.

(** [get_state] fails only on a game whose snake is empty; otherwise it
    returns 11 entries, each of them 0 or 1. *)
Theorem get_state_bits (game : G) :
  (get_state game = None ↔ game_snake game = []) ∧
  (∀ state, get_state game = Some state → bits state).
Proof.
  split; [apply get_state_none | apply get_state_some_bits].
Qed.

(** Entries 3 to 6 of the encoded state are the flags LEFT, RIGHT, UP, DOWN
    of the heading, in this order: exactly one of them is 1. *)
Theorem direction_flags_one_hot (game : G) (state : list Z) :
  get_state game = Some state →
  ∃ l r u d,
    state !! 3%nat = Some l ∧ state !! 4%nat = Some r ∧
    state !! 5%nat = Some u ∧ state !! 6%nat = Some d ∧
    l + r + u + d = 1 ∧
    (l = 1 ↔ game_direction game = LEFT) ∧
    (r = 1 ↔ game_direction game = RIGHT) ∧
    (u = 1 ↔ game_direction game = UP) ∧
    (d = 1 ↔ game_direction game = DOWN).
Proof.
  unfold get_state. destruct (game_snake game !! 0%nat) as [h |]; simpl;
    [| discriminate].
  intros [= <-]. eexists _, _, _, _.
  do 4 (split; [reflexivity |]).
  destruct (game_direction game); cbn; repeat split; intros;
    first [reflexivity | discriminate | lia].
Qed.

Lemma danger_cells (game : G) (state : list Z) (first : Point) :
  get_state game = Some state →
  game_snake game !! 0%nat = Some first →
  let d := game_direction game in
  let sideways := bool_decide (d = LEFT ∨ d = RIGHT) in
  let danger p := Z.b2z (game_is_collision game p) in
  state !! 0%nat = Some (danger (ahead d first)) ∧
  state !! 2%nat
  = Some (danger (ahead (if sideways then turn_left d else turn_right d)
                        first)) ∧
  state !! 1%nat
  = Some (if sideways then 0
          else Z.max (danger (ahead d first))
                     (danger (ahead (turn_right d) first))).
Proof.
  intros Hstate Hfirst d sideways danger. unfold get_state in Hstate.
  rewrite Hfirst in Hstate. simpl in Hstate. injection Hstate as <-.
  unfold d, sideways, danger.
  destruct (game_direction game); eval_decisions;
    unfold ahead, turn_left, turn_right, BLOCK_SIZE; cbn [andb orb];
    repeat match goal with
           | |- context [game_is_collision game ?p] =>
               destruct (game_is_collision game p)
           end; repeat split; reflexivity.
Qed.

(** The three danger flags, cell by cell.  Entry 0 tests the cell ahead of
    the first segment.  Entry 2 tests the cell to the left of the heading
    when the snake heads LEFT or RIGHT, but the cell to its right when it
    heads UP or DOWN.  Entry 1 is 0 when the snake heads LEFT or RIGHT, and
    the disjunction of entries 0 and 2 when it heads UP or DOWN. *)
Theorem danger_flags_by_cell (game : G) (state : list Z) (first : Point) :
  get_state game = Some state →
  game_snake game !! 0%nat = Some first →
  let d := game_direction game in
  let sideways := bool_decide (d = LEFT ∨ d = RIGHT) in
  let danger p := Z.b2z (game_is_collision game p) in
  state !! 0%nat = Some (danger (ahead d first)) ∧
  state !! 2%nat
  = Some (danger (ahead (if sideways then turn_left d else turn_right d)
                        first)) ∧
  state !! 1%nat
  = Some (if sideways then 0
          else Z.max (danger (ahead d first))
                     (danger (ahead (turn_right d) first))).
Proof. apply danger_cells. Qed.

(** Entries 7 to 10 compare the food with the head: "food left" and "food
    right" are never both 1, nor are "food up" and "food down", and all
    four are 0 exactly when the food is on the head. *)
Theorem food_flags (game : G) (state : list Z) :
  get_state game = Some state →
  ∃ fl fr fu fd,
    state !! 7%nat = Some fl ∧ state !! 8%nat = Some fr ∧
    state !! 9%nat = Some fu ∧ state !! 10%nat = Some fd ∧
    fl + fr ≤ 1 ∧ fu + fd ≤ 1 ∧
    (fl = 1 ↔ x (game_food game) < x (game_head game)) ∧
    (fd = 1 ↔ y (game_head game) < y (game_food game)) ∧
    (fl + fr + fu + fd = 0 ↔ game_food game = game_head game).
Proof.
  unfold get_state. destruct (game_snake game !! 0%nat) as [h |]; simpl;
    [| discriminate].
  intros [= <-]. eexists _, _, _, _.
  do 4 (split; [reflexivity |]).
  destruct (game_food game) as [fx fy], (game_head game) as [hx hy].
  cbn [x y].
  destruct (Z.ltb_spec fx hx), (Z.ltb_spec hx fx),
           (Z.ltb_spec fy hy), (Z.ltb_spec hy fy); cbn;
    repeat split; try lia; try discriminate;
    try (intros [=]; lia); try (intros _; f_equal; lia).
Qed.
End StateFacts.

Lemma direction_flags_one_hot_witness :
  let g := initial_game (mkPoint 100 100) in
  get_state g = Some [0; 0; 0; 0; 1; 0; 0; 1; 0; 1; 0] ∧
  ∃ l r u d,
    [0; 0; 0; 0; 1; 0; 0; 1; 0; 1; 0] !! 3%nat = Some l ∧
    [0; 0; 0; 0; 1; 0; 0; 1; 0; 1; 0] !! 4%nat = Some r ∧
    [0; 0; 0; 0; 1; 0; 0; 1; 0; 1; 0] !! 5%nat = Some u ∧
    [0; 0; 0; 0; 1; 0; 0; 1; 0; 1; 0] !! 6%nat = Some d ∧
    l + r + u + d = 1 ∧
    (l = 1 ↔ direction g = LEFT) ∧
    (r = 1 ↔ direction g = RIGHT) ∧
    (u = 1 ↔ direction g = UP) ∧
    (d = 1 ↔ direction g = DOWN).
Proof.
  intros g. split; [reflexivity |].
  exact (direction_flags_one_hot g [0; 0; 0; 0; 1; 0; 0; 1; 0; 1; 0] eq_refl).
Defined.

Lemma danger_flags_by_cell_witness :
  let g := mkGame DOWN (mkPoint 0 460)
                  [mkPoint 0 460; mkPoint 0 440; mkPoint 0 420]
                  0 (mkPoint 100 100) 9 in
  get_state g = Some [1; 1; 1; 0; 0; 0; 1; 0; 1; 1; 0] ∧
  [1; 1; 1; 0; 0; 0; 1; 0; 1; 1; 0] !! 2%nat
  = Some (Z.b2z (is_collision g (Some (ahead (turn_right DOWN)
                                             (mkPoint 0 460))))).
Proof.
  intros g. split; [reflexivity |].
  exact (proj1 (proj2 (danger_flags_by_cell g _ (mkPoint 0 460)
                         eq_refl eq_refl))).
Defined.

Lemma food_flags_witness :
  let g := initial_game (mkPoint 100 300) in
  get_state g = Some [0; 0; 0; 0; 1; 0; 0; 1; 0; 0; 1] ∧
  ∃ fl fr fu fd,
    [0; 0; 0; 0; 1; 0; 0; 1; 0; 0; 1] !! 7%nat = Some fl ∧
    [0; 0; 0; 0; 1; 0; 0; 1; 0; 0; 1] !! 8%nat = Some fr ∧
    [0; 0; 0; 0; 1; 0; 0; 1; 0; 0; 1] !! 9%nat = Some fu ∧
    [0; 0; 0; 0; 1; 0; 0; 1; 0; 0; 1] !! 10%nat = Some fd ∧
    fl + fr ≤ 1 ∧ fu + fd ≤ 1 ∧
    (fl = 1 ↔ x (food g) < x (head g)) ∧
    (fd = 1 ↔ y (head g) < y (food g)) ∧
    (fl + fr + fu + fd = 0 ↔ food g = head g).
Proof.
  intros g. split; [reflexivity |].
  exact (food_flags g [0; 0; 0; 0; 1; 0; 0; 1; 0; 0; 1] eq_refl).
Defined.

(** ** The replay memory, again *)
Section DequeFacts.
Context {A : Type}.

(** After any number of pushes into a new deque of capacity [C], the deque
    holds the last [min(n, C)] items pushed, oldest first; a deque of
    capacity 0 stays empty. *)
Theorem deque_keeps_last (C : nat) (xs : list A) :
  let d := foldl append (new_deque C) xs in
  maxlen d = C ∧
  items d = drop (length xs - C) xs ∧
  length (items d) = min (length xs) C.
Proof.
  intros d. unfold d.
  split; [apply (foldl_append_maxlen (new_deque C)) |].
  rewrite foldl_append_items. split; [reflexivity |].
  rewrite length_drop. lia.
Qed.

(** [random.sample] on any population, duplicates allowed: it takes [k]
    items and leaves the others, so that the sample together with the
    items left is a rearrangement of the population. *)
Lemma sample_pool_split k : ∀ (pool : list A) r,
  (k ≤ length pool)%nat →
  ∃ s rest,
    sample_pool k pool r = Some (s, Nat.iter k advance r) ∧
    length s = k ∧ s ++ rest ≡ₚ pool.
Proof.
  induction k as [| k IH]; intros pool r Hk.
  { exists [], pool. split; [reflexivity | split; reflexivity]. }
  rewrite sample_pool_succ.
  set (j := Z.to_nat (randbelow (Z.of_nat (length pool)) r).1).
  assert (Hj : (j < length pool)%nat).
  { pose proof (randbelow_range (Z.of_nat (length pool)) r). lia. }
  destruct (lookup_lt_is_Some_2 pool j Hj) as [a Ha].
  destruct (lookup_lt_is_Some_2 pool (length pool - 1)) as [z Hz]; [lia |].
  rewrite Ha, Hz. simpl.
  pose proof (swap_remove_perm pool j a z Ha Hz) as Hperm.
  destruct (IH (take (length pool - 1) (<[j := z]> pool)) (advance r))
    as (s & rest & Hs & Hlen & Hsplit).
  { apply Permutation_length in Hperm. simpl in Hperm. lia. }
  rewrite Hs. simpl. exists (a :: s), rest. split; [| split].
  - rewrite <- Nat.iter_succ_r. reflexivity.
  - simpl. now rewrite Hlen.
  - simpl. rewrite Hsplit. symmetry. exact Hperm.
Qed.

Lemma setsize_min k : 21 ≤ setsize k.
Proof.
  unfold setsize. destruct (5 <? k); [| lia].
  pose proof (Z.pow_nonneg 4 ((Z.log2_up (k * 3) + 1) `div` 2)). lia.
Qed.

Lemma bind_option_list (s : list A) : (Some <$> s) ≫= option_list = s.
Proof.
  induction s as [| a s IH]; [reflexivity |].
  rewrite fmap_cons, bind_cons, IH. reflexivity.
Qed.

(** The items at pairwise distinct positions of a list are part of it,
    each one no more often than it occurs. *)
Lemma positions_submseteq (l s : list A) ps :
  arrangement (length l) (length ps) ps →
  Some <$> s = (l !!.) <$> ps → s ⊆+ l.
Proof.
  intros Harr Hmap. apply arrangement_seq in Harr as (_ & Hnd & Hin).
  pose proof (NoDup_submseteq _ _ Hnd Hin) as Hsub.
  rewrite <- (bind_option_list s), <- (bind_option_list l).
  rewrite Hmap, fmap_lookup_seq. now do 2 f_equiv.
Qed.

Lemma random_sample_selection fuel (population : list A) k r s r' :
  (k ≤ length population)%nat →
  random_sample fuel population k r = Some (s, r') →
  length s = k ∧ (∃ rest, s ++ rest ≡ₚ population) ∧
  ∃ m, (k ≤ m)%nat ∧ r' = Nat.iter m advance r.
Proof.
  intros Hk Hs.
  destruct (random_sample_at _ _ _ _ _ _ Hs) as (ps & Hps & Hmap).
  assert (Hpos : sample_positions fuel (length population) k r = Some ps)
    by (unfold sample_positions; now rewrite Hps).
  pose proof (sample_positions_arrangement _ _ _ _ _ Hk Hpos) as Harr.
  assert (Hlen : length s = k).
  { destruct Harr as (Hl & _). apply (f_equal length) in Hmap.
    rewrite !length_fmap in Hmap. lia. }
  split; [exact Hlen |]. split.
  - destruct Harr as (Hl & Harr). rewrite <- Hl in Hl at 1.
    assert (Harr' : arrangement (length population) (length ps) ps)
      by (split; [reflexivity | exact Harr]).
    destruct (submseteq_Permutation _ _
                (positions_submseteq population s ps Harr' Hmap))
      as [rest Hrest].
    exists rest. now symmetry.
  - unfold random_sample in Hs. cbv zeta in Hs.
    rewrite bool_decide_eq_true_2 in Hs by exact Hk.
    case_bool_decide as Hpool.
    + destruct (sample_pool_split k population r Hk) as (s0 & rest & Hs0 & _).
      rewrite Hs0 in Hs. injection Hs as _ <-. exists k. split; [lia | reflexivity].
    + apply sample_set_draws in Hs as (_ & m & Hm & ->).
      exists m. split; [lia | reflexivity].
Qed.

(** [random.sample] raises when asked for more items than the population
    has.  Otherwise, what it returns is [k] items that, together with the
    items it leaves, rearrange the population: no item is returned more
    often than it occurs.  With the pool it always returns, having
    consumed [k] draws.  With the set it returns once [k] distinct
    positions have been drawn, having consumed all the draws made until
    then, at least [k] of them. *)
Theorem sample_is_a_selection (fuel : nat) (population : list A) (k : nat)
    (r : Rng) :
  let n := length population in
  let pool := Z.of_nat n ≤ setsize (Z.of_nat k) in
  ((n < k)%nat → random_sample fuel population k r = None) ∧
  ((k ≤ n)%nat →
   (∀ s r', random_sample fuel population k r = Some (s, r') →
      length s = k ∧ (∃ rest, s ++ rest ≡ₚ population) ∧
      ∃ m, (k ≤ m)%nat ∧ r' = Nat.iter m advance r) ∧
   (pool →
    ∃ s, random_sample fuel population k r = Some (s, Nat.iter k advance r)) ∧
   (¬ pool →
    (is_Some (random_sample fuel population k r) ↔
     (k ≤ length (fresh [] (drawn n fuel r)))%nat) ∧
    (∀ s r', random_sample fuel population k r = Some (s, r') →
       ∃ m, (k ≤ m ≤ fuel)%nat ∧ r' = Nat.iter m advance r))).
Proof.
  intros n pool. split.
  { intros Hlt. unfold random_sample. cbv zeta.
    now rewrite bool_decide_eq_false_2 by (fold n; lia). }
  intros Hk. split; [| split].
  - intros s r'. now apply random_sample_selection.
  - intros Hpool. unfold random_sample. cbv zeta.
    rewrite bool_decide_eq_true_2 by exact Hk.
    rewrite bool_decide_eq_true_2 by exact Hpool.
    destruct (sample_pool_split k population r Hk) as (s & rest & Hs & _).
    eauto.
  - intros Hset.
    assert (Hn : (0 < n)%nat).
    { pose proof (setsize_min (Z.of_nat k)). unfold pool in Hset. lia. }
    split.
    + apply random_sample_set_returns; assumption.
    + intros s r'. unfold random_sample. cbv zeta.
      rewrite bool_decide_eq_true_2 by exact Hk.
      rewrite bool_decide_eq_false_2 by exact Hset.
      intros Hs. apply sample_set_draws in Hs as (_ & m & Hm & ->). eauto.
Qed.
End DequeFacts.

Lemma sample_is_a_selection_witness :
  let population := [10; 20; 20; 30; 40] in
  let r := rng_of [2; 0; 4] in
  (3 ≤ length population)%nat ∧
  Z.of_nat (length population) ≤ setsize (Z.of_nat 3) ∧
  random_sample 0 population 3 r = Some ([20; 10; 20], Nat.iter 3 advance r) ∧
  ∃ s, random_sample 0 population 3 r = Some (s, Nat.iter 3 advance r).
Proof.
  intros population r.
  assert (Hk : (3 ≤ length population)%nat) by (simpl; lia).
  assert (Hpool : Z.of_nat (length population) ≤ setsize (Z.of_nat 3))
    by (vm_compute; discriminate).
  split; [exact Hk |]. split; [exact Hpool |]. split; [reflexivity |].
  exact (proj1 (proj2 (proj2 (sample_is_a_selection 0 population 3 r) Hk))
           Hpool).
Defined.

(** ** The two policies *)
Section PolicyShape.
Context `{Tensors}.

Lemma one_hot_insert k : (k < 3)%nat → one_hot (<[k := 1]> [0; 0; 0]).
Proof.
  intros Hk. destruct k as [| [| [| k]]]; [| | | lia]; unfold one_hot; cbn; auto.
Qed.

Lemma get_action_explore (a : HeadlessAgent) (state : list Z) (r : Rng) :
  (explore_draw r).1 < Z.max 5 (80 - n_game a) →
  ∃ move,
    get_action a state r
    = Some (move, set_epsilon a (Z.max 5 (80 - n_game a)),
            advance (advance r)) ∧
    one_hot move.
Proof.
  intros Hlt. unfold get_action. set (eps := Z.max 5 (80 - n_game a)) in *.
  change (explore_draw r) with ((explore_draw r).1, advance r).
  cbn [epsilon set_epsilon]. rewrite (proj2 (Z.ltb_lt _ _) Hlt).
  set (move := (randint 0 2 (advance r)).1).
  assert (Hm : 0 ≤ move ≤ 2) by (apply randint_range; lia).
  change (randint 0 2 (advance r)) with (move, advance (advance r)).
  cbn beta iota. unfold setitem.
  rewrite bool_decide_eq_true_2
    by (change (length [0; 0; 0]) with 3%nat; lia).
  simpl. eexists. split; [reflexivity | apply one_hot_insert; lia].
Qed.

Lemma get_action_exploit (a : HeadlessAgent) (state : list Z) (r : Rng) :
  Z.max 5 (80 - n_game a) ≤ (explore_draw r).1 →
  get_action a state r
  = (prediction ← forward (model a) state;
     move ← argmax fgtb prediction;
     Some (<[move := 1]> [0; 0; 0],
           set_epsilon a (Z.max 5 (80 - n_game a)), advance r)).
Proof.
  intros Hge. unfold get_action. set (eps := Z.max 5 (80 - n_game a)) in *.
  change (explore_draw r) with ((explore_draw r).1, advance r).
  cbn [epsilon set_epsilon]. rewrite (proj2 (Z.ltb_ge _ _) Hge).
  change (model (set_epsilon a eps)) with (model a).
  destruct (forward (model a) state) as [prediction |] eqn:Hf;
    [| reflexivity].
  destruct (argmax_forward (model a) state prediction Hf) as (k & Hk & Hk3).
  simpl. rewrite Hk. simpl. unfold setitem.
  rewrite bool_decide_eq_true_2 by (simpl; lia). reflexivity.
Qed.

Lemma get_action_shape (a : HeadlessAgent) (state : list Z) (r : Rng) :
  length state = 11%nat →
  ∃ move r',
    get_action a state r
    = Some (move, set_epsilon a (Z.max 5 (80 - n_game a)), r') ∧
    one_hot move ∧
    (r' = advance r ∨ r' = advance (advance r)).
Proof.
  intros Hlen.
  destruct (Z.lt_ge_cases (explore_draw r).1 (Z.max 5 (80 - n_game a)))
    as [Hlt | Hge].
  - destruct (get_action_explore a state r Hlt) as (move & Hact & Hhot).
    eauto 6.
  - rewrite (get_action_exploit a state r Hge).
    destruct (forward_Some (model a) state Hlen) as (prediction & Hf & _).
    destruct (argmax_forward (model a) state prediction Hf) as (k & Hk & Hk3).
    rewrite Hf. simpl. rewrite Hk. simpl. eexists _, _.
    split; [reflexivity |]. split; [now apply one_hot_insert | auto].
Qed.

Lemma get_action_error (a : HeadlessAgent) (state : list Z) (r : Rng) :
  get_action a state r = None ↔
  Z.max 5 (80 - n_game a) ≤ (explore_draw r).1 ∧ length state ≠ 11%nat.
Proof.
  destruct (decide (length state = 11%nat)) as [Hlen | Hlen].
  - destruct (get_action_shape a state r Hlen) as (move & r' & Hact & _).
    rewrite Hact. split; [discriminate | tauto].
  - destruct (Z.lt_ge_cases (explore_draw r).1 (Z.max 5 (80 - n_game a)))
      as [Hlt | Hge].
    + destruct (get_action_explore a state r Hlt) as (move & Hact & _).
      rewrite Hact. split; [discriminate | lia].
    + rewrite (get_action_exploit a state r Hge).
      rewrite (forward_None (model a) state Hlen). tauto.
Qed.

(** [HeadlessAgent.get_action] fails exactly when it exploits on a state
    that has not 11 entries (the forward pass raises).  On a state of 11
    entries it always returns, and whatever it returns is one of the three
    canonical actions; it sets epsilon and changes nothing else of the
    agent, and it consumes one draw (exploitation) or two (exploration) of
    the random source. *)
Theorem get_action_is_canonical (a : HeadlessAgent) (state : list Z) (r : Rng) :
  let eps := Z.max 5 (80 - n_game a) in
  (get_action a state r = None ↔
   eps ≤ (explore_draw r).1 ∧ length state ≠ 11%nat) ∧
  (length state = 11%nat → is_Some (get_action a state r)) ∧
  (∀ move a' r',
     get_action a state r = Some (move, a', r') →
     a' = set_epsilon a eps ∧ one_hot move ∧
     (r' = advance r ∨ r' = advance (advance r))).
Proof.
  intros eps. split; [apply get_action_error |]. split.
  - intros Hlen.
    destruct (get_action_shape a state r Hlen) as (move & r' & -> & _). eauto.
  - intros move a' r' Hact.
    destruct (decide (length state = 11%nat)) as [Hlen | Hlen].
    + destruct (get_action_shape a state r Hlen)
        as (move0 & r0 & Hact0 & Hhot & Hr).
      rewrite Hact in Hact0. injection Hact0 as -> -> ->. auto.
    + destruct (Z.lt_ge_cases (explore_draw r).1 eps) as [Hlt | Hge].
      * destruct (get_action_explore a state r Hlt) as (move0 & Hact0 & Hhot).
        rewrite Hact in Hact0. injection Hact0 as -> -> ->. auto.
      * rewrite (proj2 (get_action_error a state r)) in Hact by auto.
        discriminate.
Qed.

(** [TrainedAgent.get_action] draws nothing.  On a state of 11 entries it
    returns the canonical action at the argmax of the forward pass, which
    is the action [HeadlessAgent.get_action] returns on the same network
    whenever its draw is not below epsilon; on any other state it
    raises. *)
Theorem trained_policy_is_exploitation (net : Net) (state : list Z) :
  (length state ≠ 11%nat → Trained.get_action net state = None) ∧
  (length state = 11%nat →
   ∃ prediction k move,
     forward net state = Some prediction ∧
     argmax fgtb prediction = Some k ∧
     move = <[k := 1]> [0; 0; 0] ∧ one_hot move ∧
     Trained.get_action net state = Some move ∧
     ∀ (a : HeadlessAgent) r,
       model a = net →
       Z.max 5 (80 - n_game a) ≤ (explore_draw r).1 →
       get_action a state r
       = Some (move, set_epsilon a (Z.max 5 (80 - n_game a)), advance r)).
Proof.
  split.
  { intros Hlen. unfold Trained.get_action.
    now rewrite (forward_None net state Hlen). }
  intros Hlen.
  destruct (forward_Some net state Hlen) as (prediction & Hf & _).
  destruct (argmax_forward net state prediction Hf) as (k & Hk & Hk3).
  exists prediction, k, (<[k := 1]> [0; 0; 0]).
  split; [exact Hf |]. split; [exact Hk |].
  split; [reflexivity |]. split; [now apply one_hot_insert |].
  split.
  - unfold Trained.get_action, setitem. rewrite Hf. simpl. rewrite Hk. simpl.
    rewrite bool_decide_eq_true_2 by (simpl; lia). reflexivity.
  - intros a r <- Hge. rewrite (get_action_exploit a state r Hge).
    rewrite Hf. simpl. rewrite Hk. reflexivity.
Qed.
End PolicyShape.

Lemma get_action_is_canonical_witness :
  let a := new_agent (H := Rational.rational_tensors) [1 # 2; 3 # 4; 1 # 8]%Q in
  let state := [0; 0; 0; 0; 1; 0; 0; 1; 0; 1; 0] in
  let r := rng_of [150] in
  length state = 11%nat ∧
  get_action a state r = Some ([1; 0; 0], set_epsilon a 80, advance r) ∧
  is_Some (get_action a state r).
Proof.
  intros a state r.
  assert (Hlen : length state = 11%nat) by reflexivity.
  split; [exact Hlen |]. split; [reflexivity |].
  exact (proj1 (proj2 (get_action_is_canonical a state r)) Hlen).
Defined.

Lemma trained_policy_is_exploitation_witness :
  let net : @Net Rational.rational_tensors := [1 # 2; 3 # 4; 1 # 8]%Q in
  let state := [0; 0; 0; 0; 1; 0; 0; 1; 0; 1; 0] in
  length state = 11%nat ∧
  Trained.get_action net state = Some [1; 0; 0] ∧
  ∃ prediction k move,
    forward net state = Some prediction ∧
    argmax fgtb prediction = Some k ∧
    move = <[k := 1]> [0; 0; 0] ∧ one_hot move ∧
    Trained.get_action net state = Some move ∧
    ∀ (a : HeadlessAgent) r,
      model a = net →
      Z.max 5 (80 - n_game a) ≤ (explore_draw r).1 →
      get_action a state r
      = Some (move, set_epsilon a (Z.max 5 (80 - n_game a)), advance r).
Proof.
  intros net state.
  assert (Hlen : length state = 11%nat) by reflexivity.
  split; [exact Hlen |]. split; [reflexivity |].
  exact (proj2 (trained_policy_is_exploitation
                  (H := Rational.rational_tensors) net state) Hlen).
Defined.

(** ** Targets of single transitions and of batches *)
Section TargetFacts.
Context `{Tensors}.
Variables (net : Net) (gamma : Scalar).

Lemma train_step_targets args c preds target :
  unsqueeze args = Some c → predictions net c = Some preds →
  train_targets net gamma args = Some target →
  train_step net gamma args = Some (optimize net target preds).
Proof.
  intros Hc Hp Ht. unfold train_step. rewrite Hc. simpl. rewrite Hp. simpl.
  rewrite Ht. reflexivity.
Qed.

Lemma shaped_parts (sample : list Transition) :
  Forall shaped sample →
  Forall (λ t, one_hot (t_action t)) sample ∧
  Forall (λ t, length (t_state t) = 11%nat) sample ∧
  Forall (λ t, t_done t = false → length (t_next_state t) = 11%nat) sample.
Proof.
  intros Hs. repeat split; (eapply Forall_impl; [| exact Hs]);
    intros t (? & ? & ?); auto.
Qed.

(** The short-memory update is right: on one transition with a canonical
    action and a state of 11 entries (and a next state of 11 entries if
    the game goes on), [train_step] succeeds, and its target is the
    prediction for the state with the entry at the index of the
    transition's OWN action replaced by [Q_new].  On a state that has not
    11 entries it raises. *)
Theorem single_target_own_index (t : Transition) :
  let args := Single (t_state t) (t_action t) (t_reward t) (t_next_state t)
                     (t_done t) in
  (one_hot (t_action t) → length (t_state t) = 11%nat →
   (t_done t = false → length (t_next_state t) = 11%nat) →
   ∃ q pred,
     q_of net gamma t = Some q ∧
     forward net (t_state t) = Some pred ∧
     train_targets net gamma args = Some [<[hot (t_action t) := q]> pred] ∧
     train_step net gamma args
     = Some (optimize net [<[hot (t_action t) := q]> pred] [pred])) ∧
  (length (t_state t) ≠ 11%nat → train_step net gamma args = None).
Proof.
  intros args. split.
  - intros Hhot Hstate Hnext.
    destruct (train_targets_rows net gamma [t] args (t_action t))
      as (preds & target & Hp & Hrun & Hlp & Hlt & Hget);
      try reflexivity;
      try (apply Forall_cons_2; [assumption | apply Forall_nil_2]).
    destruct (Hget 0%nat t eq_refl) as (q & pred & Hq & Hf & _ & Hp0 & Ht0).
    exists q, pred. split; [exact Hq |]. split; [exact Hf |].
    assert (Hpreds : preds = [pred]).
    { destruct preds as [| p [| p' preds]]; simpl in *; try lia. congruence. }
    assert (Htarget : target = [<[hot (t_action t) := q]> pred]).
    { destruct target as [| row [| row' target]]; simpl in *; try lia.
      congruence. }
    subst preds target. split; [exact Hrun |].
    now apply (train_step_targets args (columns_of [t])).
  - intros Hstate. unfold train_step, predictions. simpl.
    now rewrite (forward_None net (t_state t) Hstate).
Qed.

(** On a batch of transitions with states of 11 entries and canonical
    actions, [train_step] succeeds and EVERY row of its target is the
    prediction for the row's state with [Q_new] written at the index of
    the first transition's action; a row whose own action has another
    index keeps its prediction there. *)
Theorem batch_targets_first_index (sample : list Transition) args :
  unzip sample = Some args →
  Forall shaped sample →
  ∃ t0 preds target,
    sample !! 0%nat = Some t0 ∧
    predictions net (columns_of sample) = Some preds ∧
    train_targets net gamma args = Some target ∧
    train_step net gamma args = Some (optimize net target preds) ∧
    length target = length sample ∧
    ∀ idx t, sample !! idx = Some t →
      ∃ q pred,
        q_of net gamma t = Some q ∧
        forward net (t_state t) = Some pred ∧
        preds !! idx = Some pred ∧
        target !! idx = Some (<[hot (t_action t0) := q]> pred) ∧
        (hot (t_action t) ≠ hot (t_action t0) →
         target !! idx ≫= (.!! hot (t_action t))
         = pred !! hot (t_action t)).
Proof.
  intros Hargs Hshape.
  destruct sample as [| t0 rest] eqn:Hs; [discriminate |]. rewrite <- Hs in *.
  assert (H0 : sample !! 0%nat = Some t0) by (rewrite Hs; reflexivity).
  assert (Hc : unsqueeze args = Some (columns_of sample))
    by (now apply unsqueeze_unzip).
  destruct (shaped_parts sample Hshape) as (Hhot & Hstate & Hnext).
  destruct (train_targets_rows net gamma sample args (t_action t0) Hc)
    as (preds & target & Hp & Hrun & _ & Hlen & Hget);
    [rewrite H0; reflexivity | exact Hhot | exact Hstate | exact Hnext |].
  exists t0, preds, target. split; [exact H0 |]. split; [exact Hp |].
  split; [exact Hrun |].
  split; [now apply (train_step_targets args (columns_of sample)) |].
  split; [exact Hlen |].
  intros idx t Ht.
  destruct (Hget idx t Ht) as (q & pred & Hq & Hf & _ & Hpi & Hrow).
  exists q, pred. split; [exact Hq |]. split; [exact Hf |].
  split; [exact Hpi |]. split; [exact Hrow |].
  intros Hne. rewrite Hrow. simpl.
  apply list_lookup_insert_ne. congruence.
Qed.
End TargetFacts.

Lemma single_target_own_index_witness :
  let t := mkTransition [1; 0; 0; 1; 0; 0; 0; 0; 1; 0; 1] [0; 1; 0] 10
                        [0; 0; 0; 0; 0; 1; 0; 0; 1; 0; 1] false in
  let net : @Net Rational.rational_tensors := [1 # 2; 1 # 4; 1 # 8]%Q in
  (one_hot (t_action t) ∧ length (t_state t) = 11%nat ∧
   (t_done t = false → length (t_next_state t) = 11%nat)) ∧
  ∃ q pred,
    q_of net (9 # 10)%Q t = Some q ∧
    forward net (t_state t) = Some pred ∧
    train_targets net (9 # 10)%Q
      (Single (t_state t) (t_action t) (t_reward t) (t_next_state t)
              (t_done t))
    = Some [<[hot (t_action t) := q]> pred] ∧
    train_step net (9 # 10)%Q
      (Single (t_state t) (t_action t) (t_reward t) (t_next_state t)
              (t_done t))
    = Some net.
Proof.
  intros t net.
  assert (Hhot : one_hot (t_action t)) by (right; left; reflexivity).
  assert (Hstate : length (t_state t) = 11%nat) by reflexivity.
  assert (Hnext : t_done t = false → length (t_next_state t) = 11%nat)
    by reflexivity.
  split; [auto |].
  exact (proj1 (single_target_own_index (H := Rational.rational_tensors) net
                  (9 # 10)%Q t) Hhot Hstate Hnext).
Defined.

Lemma batch_targets_first_index_witness :
  let sample :=
    [mkTransition [0; 0; 0; 0; 1; 0; 0; 1; 0; 1; 0] [1; 0; 0] 10
                  [0; 0; 0; 0; 1; 0; 0; 0; 1; 1; 0] false;
     mkTransition [1; 0; 0; 1; 0; 0; 0; 0; 1; 0; 1] [0; 1; 0] (-10)
                  [0; 0; 0; 0; 0; 1; 0; 0; 1; 0; 1] true] in
  let net : @Net Rational.rational_tensors := [1 # 2; 1 # 4; 1 # 8]%Q in
  Forall shaped sample ∧
  ∃ args,
    unzip sample = Some args ∧
    ∃ t0 preds target,
      sample !! 0%nat = Some t0 ∧
      predictions net (columns_of sample) = Some preds ∧
      train_targets net (9 # 10)%Q args = Some target ∧
      train_step net (9 # 10)%Q args = Some net ∧
      length target = length sample ∧
      ∀ idx t, sample !! idx = Some t →
        ∃ q pred,
          q_of net (9 # 10)%Q t = Some q ∧
          forward net (t_state t) = Some pred ∧
          preds !! idx = Some pred ∧
          target !! idx = Some (<[hot (t_action t0) := q]> pred) ∧
          (hot (t_action t) ≠ hot (t_action t0) →
           target !! idx ≫= (.!! hot (t_action t))
           = pred !! hot (t_action t)).
Proof.
  intros sample net.
  assert (Hshape : Forall shaped sample).
  { apply Forall_cons_2; [repeat split; left; reflexivity |].
    apply Forall_cons_2; [repeat split; right; left; reflexivity |].
    apply Forall_nil_2. }
  split; [exact Hshape |].
  eexists. split; [reflexivity |].
  exact (batch_targets_first_index (H := Rational.rational_tensors) net
           (9 # 10)%Q sample _ eq_refl Hshape).
Defined.

(** ** The long-memory update and the rounds of the loop *)
Section RoundFacts.
Context `{Tensors}.

Lemma train_step_canonical net gamma (sample : list Transition) args :
  unsqueeze args = Some (columns_of sample) →
  Forall shaped sample →
  is_Some (train_step net gamma args).
Proof.
  intros Hc Hshape.
  destruct sample as [| t0 rest] eqn:Hs;
    [now apply unsqueeze_nonempty in Hc |].
  rewrite <- Hs in *.
  destruct (shaped_parts sample Hshape) as (Hhot & Hstate & Hnext).
  destruct (train_targets_rows net gamma sample args (t_action t0) Hc)
    as (preds & target & Hp & Hrun & _);
    [rewrite Hs; reflexivity | exact Hhot | exact Hstate | exact Hnext |].
  rewrite (train_step_targets net gamma args _ preds target Hc Hp Hrun). eauto.
Qed.

Lemma train_short_memory_model (a a' : HeadlessAgent) t :
  train_short_memory a t = Some a' → ∃ net, a' = set_model a net.
Proof.
  unfold train_short_memory. destruct (train_step _ _ _); simpl;
    [| discriminate].
  intros [= <-]. eauto.
Qed.

Lemma train_long_memory_model fuel (a a' : HeadlessAgent) r r' :
  train_long_memory fuel a r = Some (a', r') → ∃ net, a' = set_model a net.
Proof.
  unfold train_long_memory.
  destruct (mini_sample _ _ _ _) as [[sample r1] |]; simpl; [| discriminate].
  destruct (unzip sample); simpl; [| discriminate].
  destruct (train_step _ _ _); simpl; [| discriminate].
  intros [= <- _]. eauto.
Qed.

Lemma mini_sample_from_memory {A} fuel (batch_size : nat) (mem : deque A)
    r s r' :
  mini_sample fuel batch_size mem r = Some (s, r') →
  (∃ rest, s ++ rest ≡ₚ items mem) ∧
  length s = Nat.min batch_size (length (items mem)).
Proof.
  unfold mini_sample. case_bool_decide as Hlt.
  - intros Hs.
    destruct (random_sample_selection fuel (items mem) batch_size r s r'
                ltac:(lia) Hs) as (Hlen & Hrest & _).
    split; [exact Hrest | lia].
  - intros [= <- <-]. split; [exists []; now rewrite app_nil_r | lia].
Qed.

Lemma mini_sample_pool {A} fuel (batch_size : nat) (mem : deque A) r :
  Z.of_nat (length (items mem)) ≤ setsize (Z.of_nat batch_size) →
  is_Some (mini_sample fuel batch_size mem r).
Proof.
  intros Hpool. unfold mini_sample. case_bool_decide as Hlt; [| eauto].
  unfold random_sample. cbv zeta.
  rewrite bool_decide_eq_true_2 by lia.
  rewrite bool_decide_eq_true_2 by exact Hpool.
  destruct (sample_pool_split batch_size (items mem) r)
    as (s & rest & -> & _); [lia | eauto].
Qed.

Lemma setsize_BATCH_SIZE : setsize (Z.of_nat BATCH_SIZE) = 16405.
Proof. vm_compute. reflexivity. Qed.

Lemma long_memory_runs fuel (a : HeadlessAgent) (r : Rng) sample r' :
  items (memory a) ≠ [] →
  Forall shaped (items (memory a)) →
  mini_sample fuel BATCH_SIZE (memory a) r = Some (sample, r') →
  ∃ rest args net,
    sample ++ rest ≡ₚ items (memory a) ∧
    length sample = Nat.min BATCH_SIZE (length (items (memory a))) ∧
    unzip sample = Some args ∧
    train_step (model a) (gamma a) args = Some net ∧
    train_long_memory fuel a r = Some (set_model a net, r').
Proof.
  intros Hne Hshape Hs.
  destruct (mini_sample_from_memory _ _ _ _ _ _ Hs) as ([rest Hperm] & Hlen).
  assert (Hsne : sample ≠ []).
  { intros ->. simpl in Hlen. unfold BATCH_SIZE in Hlen.
    destruct (items (memory a)); [contradiction | simpl in Hlen; lia]. }
  assert (Hsshape : Forall shaped sample).
  { rewrite <- Hperm in Hshape. now apply list.Forall_app in Hshape as [? _]. }
  destruct sample as [| t0 sample'] eqn:Hsample; [contradiction |].
  rewrite <- Hsample in *.
  assert (Hz : unzip sample
               = Some (Batch (t_state <$> sample) (t_action <$> sample)
                             (t_reward <$> sample) (t_next_state <$> sample)
                             (t_done <$> sample)))
    by (rewrite Hsample; reflexivity).
  destruct (train_step_canonical (model a) (gamma a) sample _
              (unsqueeze_unzip sample _ Hz Hsshape) Hsshape) as [net Hnet].
  eexists rest, _, net.
  split; [exact Hperm |]. split; [exact Hlen |].
  split; [exact Hz |]. split; [exact Hnet |].
  unfold train_long_memory. rewrite Hs. simpl. rewrite Hz. simpl.
  rewrite Hnet. reflexivity.
Qed.

(** [train_long_memory] raises on an empty memory (the five columns cannot
    be unpacked).  On any other memory of transitions with states of 11
    entries and canonical actions it raises nothing: it returns exactly
    when the sampling returns, which it always does on a memory of at most
    16405 transitions (the pool of [random.sample]); it then has trained on
    [min(BATCH_SIZE, len(memory))] transitions taken from the memory, and
    has changed nothing of the agent but its network. *)
Theorem long_memory_update fuel (a : HeadlessAgent) (r : Rng) :
  setsize (Z.of_nat BATCH_SIZE) = 16405 ∧
  (items (memory a) = [] → train_long_memory fuel a r = None) ∧
  (items (memory a) ≠ [] →
   Forall shaped (items (memory a)) →
   (train_long_memory fuel a r = None ↔
    mini_sample fuel BATCH_SIZE (memory a) r = None) ∧
   (Z.of_nat (length (items (memory a))) ≤ 16405 →
    is_Some (train_long_memory fuel a r)) ∧
   (∀ sample r',
      mini_sample fuel BATCH_SIZE (memory a) r = Some (sample, r') →
      ∃ rest args net,
        sample ++ rest ≡ₚ items (memory a) ∧
        length sample = Nat.min BATCH_SIZE (length (items (memory a))) ∧
        unzip sample = Some args ∧
        train_step (model a) (gamma a) args = Some net ∧
        train_long_memory fuel a r = Some (set_model a net, r'))).
Proof.
  split; [exact setsize_BATCH_SIZE |]. split.
  { intros Hempty. unfold train_long_memory, mini_sample.
    rewrite Hempty. reflexivity. }
  intros Hne Hshape.
  assert (Hruns : ∀ sample r',
    mini_sample fuel BATCH_SIZE (memory a) r = Some (sample, r') →
    ∃ rest args net,
      sample ++ rest ≡ₚ items (memory a) ∧
      length sample = Nat.min BATCH_SIZE (length (items (memory a))) ∧
      unzip sample = Some args ∧
      train_step (model a) (gamma a) args = Some net ∧
      train_long_memory fuel a r = Some (set_model a net, r'))
    by (intros sample r'; now apply long_memory_runs).
  split; [| split; [| exact Hruns]].
  - destruct (mini_sample fuel BATCH_SIZE (memory a) r) as [[sample r'] |]
      eqn:Hs.
    + destruct (Hruns sample r' eq_refl) as (? & ? & ? & _ & _ & _ & _ & ->).
      split; discriminate.
    + unfold train_long_memory. rewrite Hs. split; reflexivity.
  - intros Hpool.
    destruct (mini_sample_pool fuel BATCH_SIZE (memory a) r)
      as [[sample r'] Hs]; [rewrite setsize_BATCH_SIZE; exact Hpool |].
    destruct (Hruns sample r' Hs) as (? & ? & ? & _ & _ & _ & _ & ->). eauto.
Qed.

Lemma train_iteration_round depth fuel (t t' : Training) :
  train_iteration depth fuel t = Some t' →
  ∃ state_old action a1 r1 reward done sc g1 r2 state_new a2,
    get_state (game t) = Some state_old ∧
    get_action (set_n_game (agent t) (n_game (agent t) + 1)) state_old (rng t)
    = Some (action, a1, r1) ∧
    play_step_headless depth r1 (game t) action
    = Some ((reward, done, sc), g1, r2) ∧
    get_state g1 = Some state_new ∧
    let tr := mkTransition state_old action
                (if done then -10 else if 0 <? reward then 10 else reward)
                state_new done in
    train_short_memory (remember a1 tr) tr = Some a2 ∧
    if done then
      ∃ g2 r3 a3 r4,
        reset depth r2 = Some (g2, r3) ∧
        train_long_memory fuel a2 r3 = Some (a3, r4) ∧
        t' = {| agent := a3; game := g2; rng := r4;
                game_counter := game_counter t + 1;
                scores := scores t ++ [sc];
                total_score := total_score t + sc;
                record := if record t <? sc then sc else record t |}
    else
      t' = {| agent := a2; game := g1; rng := r2;
              game_counter := game_counter t + 1;
              scores := scores t; total_score := total_score t;
              record := record t |}.
Proof.
  unfold train_iteration. intros Hround.
  destruct (get_state (game t)) as [state_old |] eqn:Hold; simpl in Hround;
    [| discriminate].
  destruct (get_action _ state_old (rng t)) as [[[action a1] r1] |] eqn:Hact;
    simpl in Hround; [| discriminate].
  destruct (play_step_headless depth r1 (game t) action)
    as [[[[[reward done] sc] g1] r2] |] eqn:Hstep; simpl in Hround;
    [| discriminate].
  destruct (get_state g1) as [state_new |] eqn:Hnew; simpl in Hround;
    [| discriminate].
  destruct (train_short_memory _ _) as [a2 |] eqn:Hshort; simpl in Hround;
    [| discriminate].
  exists state_old, action, a1, r1, reward, done, sc, g1, r2, state_new, a2.
  split; [reflexivity |]. split; [exact Hact |]. split; [exact Hstep |].
  split; [exact Hnew |]. cbn zeta. split; [exact Hshort |].
  destruct done.
  - destruct (reset depth r2) as [[g2 r3] |] eqn:Hreset; simpl in Hround;
      [| discriminate].
    destruct (train_long_memory fuel a2 r3) as [[a3 r4] |] eqn:Hlong;
      simpl in Hround; [| discriminate].
    injection Hround as <-. exists g2, r3, a3, r4.
    split; [reflexivity |]. split; [exact Hlong | reflexivity].
  - injection Hround as <-. reflexivity.
Qed.
End RoundFacts.

Lemma long_memory_update_witness :
  let a := mkAgent (H := Rational.rational_tensors) 2 78 (9 # 10)%Q
             (mkDeque 10
                [mkTransition [0; 0; 0; 0; 1; 0; 0; 1; 0; 1; 0] [1; 0; 0] 10
                              [0; 0; 0; 0; 1; 0; 0; 0; 1; 1; 0] false;
                 mkTransition [1; 0; 0; 1; 0; 0; 0; 0; 1; 0; 1] [0; 1; 0]
                              (-10)
                              [0; 0; 0; 0; 0; 1; 0; 0; 1; 0; 1] true])
             Example.straight_net in
  let r := rng_of [] in
  items (memory a) ≠ [] ∧ Forall shaped (items (memory a)) ∧
  Z.of_nat (length (items (memory a))) ≤ 16405 ∧
  train_long_memory 0 a r = Some (a, r) ∧
  is_Some (train_long_memory 0 a r).
Proof.
  intros a r.
  assert (Hne : items (memory a) ≠ []) by discriminate.
  assert (Hshape : Forall shaped (items (memory a))).
  { apply Forall_cons_2; [repeat split; left; reflexivity |].
    apply Forall_cons_2; [repeat split; right; left; reflexivity |].
    apply Forall_nil_2. }
  assert (Hpool : Z.of_nat (length (items (memory a))) ≤ 16405)
    by (vm_compute; discriminate).
  split; [exact Hne |]. split; [exact Hshape |]. split; [exact Hpool |].
  split; [vm_compute; reflexivity |].
  exact (proj1 (proj2 (proj2 (proj2 (long_memory_update 0 a r)) Hne Hshape))
           Hpool).
Defined.

Section LoopInvariant.
Context `{Tensors}.

Lemma foldr_add_snoc l v : foldr Z.add 0 (l ++ [v]) = foldr Z.add 0 l + v.
Proof. induction l as [| w l IH]; simpl; lia. Qed.

Lemma foldr_max_nonneg l : 0 ≤ foldr Z.max 0 l.
Proof. induction l as [| w l IH]; simpl; lia. Qed.

Lemma foldr_max_snoc l v :
  foldr Z.max 0 (l ++ [v]) = Z.max (foldr Z.max 0 l) v.
Proof.
  induction l as [| w l IH]; simpl; [lia |].
  rewrite IH. lia.
Qed.

Lemma append_stored {A} (d : deque A) v n :
  length (items d) = Nat.min n (maxlen d) →
  length (items (append d v)) = Nat.min (S n) (maxlen d).
Proof.
  intros Hlen. rewrite append_items. case_bool_decide as Hlt.
  - rewrite length_drop. rewrite length_app in *. cbn [length] in *. lia.
  - rewrite length_app in *. cbn [length] in *. lia.
Qed.

Lemma append_Forall {A} (P : A → Prop) (d : deque A) v :
  Forall P (items d) → P v → Forall P (items (append d v)).
Proof.
  intros Hd Hv. rewrite append_items.
  assert (Hall : Forall P (items d ++ [v])).
  { apply list.Forall_app. split; [exact Hd |].
    apply Forall_cons_2; [exact Hv | apply Forall_nil_2]. }
  case_bool_decide; [now apply Forall_drop | exact Hall].
Qed.

Lemma playing_score n g : playing n g → 0 ≤ score g ≤ 765.
Proof.
  intros Hp. destruct (playing_sound n g Hp) as [Hs _].
  pose proof (grid_capacity _ (sound_simple g Hs) (sound_inside g Hs)).
  pose proof (sound_long g Hs). pose proof (sound_score g Hs). lia.
Qed.

(** The reward the loop records, from the outcome of the step. *)
Lemma shaped_reward depth r g action reward done sc g' r' :
  play_step_headless depth r g action = Some ((reward, done, sc), g', r') →
  let shaped := if done then -10 else if 0 <? reward then 10 else reward in
  (shaped = -10 ∨ shaped = 0 ∨ shaped = 10) ∧
  (done = true ↔ shaped = -10) ∧
  (done = true → sc = score g).
Proof.
  intros Hstep. apply play_step_cases in Hstep. cbn zeta in Hstep.
  destruct Hstep as [(_ & [= -> -> ->] & _)
                    | [(_ & _ & f & _ & [= -> -> ->] & _)
                      | (_ & _ & [= -> -> ->] & _)]]; cbn;
    repeat split; auto; try discriminate; try lia.
Qed.

Lemma steady_start depth net r t :
  train_start depth net r = Some t → steady 0 t.
Proof.
  unfold train_start. destruct (init depth r) as [[g r'] |] eqn:Hinit;
    simpl; [| discriminate].
  intros [= <-]. split; cbn [agent game game_counter scores total_score
                              record new_agent memory n_game epsilon];
    try reflexivity.
  - exists 0%nat. split; [lia | eapply playing_init, Hinit].
  - apply Forall_nil_2.
  - apply Forall_nil_2.
Qed.

Lemma steady_round depth fuel n t t' :
  steady n t → train_iteration depth fuel t = Some t' → steady (S n) t'.
Proof.
  intros [(m & Hm & Hplay) Hmem Hmax Hstored Hn Hcount Htotal Hrecord
          Hscores Hepis Heps] Hround.
  apply train_iteration_round in Hround
    as (state_old & action & a1 & r1 & reward & done & sc & g1 & r2 &
        state_new & a2 & Hold & Hact & Hstep & Hnew & Hrest).
  cbn zeta in Hrest. destruct Hrest as [Hshort Hrest].
  destruct (get_action_shape
              (set_n_game (agent t) (n_game (agent t) + 1)) state_old (rng t)
              (proj1 (get_state_some_bits _ _ Hold)))
    as (move & r1' & Hact' & Hhot & _).
  rewrite Hact in Hact'. injection Hact' as -> -> ->.
  destruct (shaped_reward _ _ _ _ _ _ _ _ _ Hstep) as (Hrw & Hdone & Hsc).
  set (shaped := if done then -10 else if 0 <? reward then 10 else reward)
    in *.
  set (tr := mkTransition state_old move shaped state_new done) in *.
  assert (Hrec : recorded tr).
  { split; cbn [tr t_state t_next_state t_action t_reward t_done].
    - eapply get_state_some_bits, Hold.
    - eapply get_state_some_bits, Hnew.
    - exact Hhot.
    - exact Hrw.
    - exact Hdone. }
  apply train_short_memory_model in Hshort as [net1 ->].
  set (a0 := set_epsilon (set_n_game (agent t) (n_game (agent t) + 1))
               (Z.max 5 (80 - n_game (set_n_game (agent t)
                                        (n_game (agent t) + 1))))) in *.
  assert (Hfields : ∀ net,
    memory (set_model (remember a0 tr) net) = append (memory (agent t)) tr ∧
    n_game (set_model (remember a0 tr) net) = Z.of_nat (S n) ∧
    epsilon (set_model (remember a0 tr) net)
    = Z.max 5 (80 - Z.of_nat (S n))).
  { intros net. split; [reflexivity |].
    cbn [set_model remember set_memory n_game epsilon a0 set_epsilon
         set_n_game].
    rewrite Hn. split; [lia | f_equal; lia]. }
  assert (Hmem' : Forall recorded (items (append (memory (agent t)) tr)))
    by (now apply append_Forall).
  assert (Hstored' : length (items (append (memory (agent t)) tr))
                     = Nat.min (S n) MAX_MEMORY).
  { rewrite <- Hmax. apply append_stored. now rewrite Hmax. }
  destruct done.
  - destruct Hrest as (g2 & r3 & a3 & r4 & Hreset & Hlong & ->).
    apply train_long_memory_model in Hlong as [net2 ->].
    destruct (Hfields net1) as (Hf1 & Hf2 & Hf3).
    assert (Hsc' : 0 ≤ sc ≤ 765).
    { rewrite (Hsc eq_refl). eapply playing_score, Hplay. }
    split; cbn [agent game game_counter scores total_score record];
      change (memory (set_model (set_model (remember a0 tr) net1) net2))
        with (memory (set_model (remember a0 tr) net1));
      change (n_game (set_model (set_model (remember a0 tr) net1) net2))
        with (n_game (set_model (remember a0 tr) net1));
      change (epsilon (set_model (set_model (remember a0 tr) net1) net2))
        with (epsilon (set_model (remember a0 tr) net1));
      rewrite ?Hf1.
    + exists 0%nat. split; [lia | eapply playing_init, Hreset].
    + exact Hmem'.
    + exact Hmax.
    + exact Hstored'.
    + exact Hf2.
    + lia.
    + rewrite foldr_add_snoc. lia.
    + rewrite foldr_max_snoc, <- Hrecord.
      destruct (Z.ltb_spec (record t) sc); lia.
    + apply list.Forall_app. split; [exact Hscores |].
      apply Forall_cons_2; [exact Hsc' | apply Forall_nil_2].
    + rewrite length_app. simpl. lia.
    + exact Hf3.
  - subst t'. destruct (Hfields net1) as (Hf1 & Hf2 & Hf3).
    split; cbn [agent game game_counter scores total_score record];
      rewrite ?Hf1.
    + exists (S m). split; [lia |]. eapply playing_step; eauto.
    + exact Hmem'.
    + exact Hmax.
    + exact Hstored'.
    + exact Hf2.
    + lia.
    + exact Htotal.
    + exact Hrecord.
    + exact Hscores.
    + lia.
    + exact Hf3.
Qed.

Lemma training_steady n t : training n t → steady n t.
Proof.
  induction 1 as [depth net r t Hstart | n depth fuel t t' _ IH Hround].
  - eapply steady_start, Hstart.
  - eapply steady_round; eauto.
Qed.

End LoopInvariant.

(** ** What the training loop keeps true *)
Section LoopExtras.
Context `{Tensors}.

Lemma train_iterations_training depth fuel n : ∀ k (t t' : Training),
  training k t → train_iterations depth fuel n t = Some t' →
  training (n + k) t'.
Proof.
  induction n as [| n IH]; intros k t t' Ht; simpl.
  - intros [= <-]. exact Ht.
  - destruct (train_iteration depth fuel t) as [t1 |] eqn:Hit; simpl;
      [| discriminate].
    intros Hrest. replace (S (n + k)) with (n + S k)%nat by lia.
    eapply IH; [| exact Hrest]. eapply training_round; eauto.
Qed.

(** The state reached by [n] rounds from the start of the loop. *)
Lemma run_training depth fuel net r n (t : Training) :
  train_start depth net r ≫= train_iterations depth fuel n = Some t →
  training n t.
Proof.
  destruct (train_start depth net r) as [t0 |] eqn:Hstart; [| discriminate].
  simpl. intros Hrun. replace n with (n + 0)%nat by lia.
  eapply train_iterations_training; [| exact Hrun].
  eapply training_start, Hstart.
Qed.

(** After [n] rounds of the loop, [n_game] and [game_counter] are both [n]:
    they count rounds (steps of the game), not games.  The episodes
    completed are at most [n], and from the first round on epsilon is
    [max(5, 80 - n)], so it is at its floor of 5 from round 75 on. *)
Theorem loop_counts_rounds n (t : Training) :
  training n t →
  n_game (agent t) = Z.of_nat n ∧ game_counter t = Z.of_nat n ∧
  completed_episodes t ≤ Z.of_nat n ∧
  ((1 ≤ n)%nat → epsilon (agent t) = Z.max 5 (80 - Z.of_nat n)) ∧
  ((75 ≤ n)%nat → epsilon (agent t) = 5).
Proof.
  intros Ht. destruct (training_steady n t Ht)
    as [_ _ _ _ Hn Hc _ _ _ Hep Heps].
  split; [exact Hn |]. split; [exact Hc |].
  split; [unfold completed_episodes; lia |].
  destruct n as [| n]; split; intros; try lia; rewrite Heps; lia.
Qed.

(** The statistics of the loop: [total_score] is the sum of the scores
    recorded, [record] is the largest of them (0 when there is none), and
    every score recorded lies between 0 and 765. *)
Theorem loop_score_statistics n (t : Training) :
  training n t →
  total_score t = foldr Z.add 0 (scores t) ∧
  record t = foldr Z.max 0 (scores t) ∧
  Forall (λ s, 0 ≤ s ≤ record t ∧ s ≤ 765) (scores t).
Proof.
  intros Ht. destruct (training_steady n t Ht)
    as [_ _ _ _ _ _ Htot Hrec Hsc _ _].
  split; [exact Htot |]. split; [exact Hrec |].
  rewrite Hrec. clear Hrec Htot.
  induction Hsc as [| s l Hs _ IH]; [apply Forall_nil_2 |].
  apply Forall_cons_2; [simpl; lia |].
  eapply Forall_impl; [| exact IH]. simpl. intros; lia.
Qed.

(** The replay memory after [n] rounds holds [min(n, MAX_MEMORY)]
    transitions, one per round, and each of them has two encoded states of
    11 bits, a canonical action, a reward of -10, 0 or 10, and [done] set
    exactly when the reward is -10. *)
Theorem replay_memory_is_recorded n (t : Training) :
  training n t →
  maxlen (memory (agent t)) = MAX_MEMORY ∧
  length (items (memory (agent t))) = Nat.min n MAX_MEMORY ∧
  Forall recorded (items (memory (agent t))).
Proof.
  intros Ht. destruct (training_steady n t Ht)
    as [_ Hmem Hmax Hst _ _ _ _ _ _ _].
  auto.
Qed.

(** Between two rounds the game of the loop is a game in play: a round
    that ends the game resets it before the next one. *)
Theorem loop_game_is_in_play n (t : Training) :
  training n t → ∃ m, (m ≤ n)%nat ∧ playing m (game t).
Proof.
  intros Ht. exact (steady_game n t (training_steady n t Ht)).
Qed.




End LoopExtras.

Lemma steady_run_training n t : Example.steady_run n = Some t → training n t.
Proof. unfold Example.steady_run. apply run_training. Qed.


Lemma steady_run_80 :
  ∃ t, Example.steady_run 80 = Some t ∧
       scores t = [1; 0; 0; 0; 0] ∧
       length (items (memory (agent t))) = 80%nat ∧
       game t = initial_game (mkPoint 440 120).
Proof.
  assert (Hsome : is_Some (Example.steady_run 80))
    by (apply (bool_decide_unpack _); vm_compute; exact I).
  destruct Hsome as [t Hrun]. exists t. split; [exact Hrun |].
  assert (Hscores : scores <$> Example.steady_run 80 = Some [1; 0; 0; 0; 0])
    by (vm_compute; reflexivity).
  assert (Hmem : (λ t, length (items (memory (agent t))))
                   <$> Example.steady_run 80 = Some 80%nat)
    by (vm_compute; reflexivity).
  assert (Hgame : game <$> Example.steady_run 80
                  = Some (initial_game (mkPoint 440 120)))
    by (vm_compute; reflexivity).
  rewrite Hrun in Hscores, Hmem, Hgame. simpl in Hscores, Hmem, Hgame.
  injection Hscores as Hscores. injection Hmem as Hmem.
  injection Hgame as Hgame. auto.
Qed.

Lemma loop_counts_rounds_witness :
  ∃ t, Example.steady_run 80 = Some t ∧
       completed_episodes t = 5 ∧
       n_game (agent t) = 80 ∧ game_counter t = 80 ∧
       epsilon (agent t) = 5.
Proof.
  destruct steady_run_80 as (t & Hrun & Hscores & _).
  exists t. split; [exact Hrun |].
  split; [unfold completed_episodes; now rewrite Hscores |].
  destruct (loop_counts_rounds 80 t (steady_run_training 80 t Hrun))
    as (Hn & Hc & _ & _ & Heps).
  split; [exact Hn |]. split; [exact Hc |]. apply Heps. lia.
Defined.

Lemma loop_score_statistics_witness :
  ∃ t, Example.steady_run 80 = Some t ∧
       scores t = [1; 0; 0; 0; 0] ∧
       total_score t = 1 ∧ record t = 1 ∧
       Forall (λ s, 0 ≤ s ≤ record t ∧ s ≤ 765) (scores t).
Proof.
  destruct steady_run_80 as (t & Hrun & Hscores & _).
  exists t. split; [exact Hrun |]. split; [exact Hscores |].
  destruct (loop_score_statistics 80 t (steady_run_training 80 t Hrun))
    as (Htot & Hrec & Hall).
  rewrite Hscores in Htot, Hrec. auto.
Defined.

Lemma replay_memory_is_recorded_witness :
  ∃ t, Example.steady_run 80 = Some t ∧
       length (items (memory (agent t))) = 80%nat ∧
       maxlen (memory (agent t)) = MAX_MEMORY ∧
       length (items (memory (agent t))) = Nat.min 80 MAX_MEMORY ∧
       Forall recorded (items (memory (agent t))).
Proof.
  destruct steady_run_80 as (t & Hrun & _ & Hmem & _).
  exists t. split; [exact Hrun |]. split; [exact Hmem |].
  exact (replay_memory_is_recorded 80 t (steady_run_training 80 t Hrun)).
Defined.

Lemma loop_game_is_in_play_witness :
  ∃ t, Example.steady_run 80 = Some t ∧
       game t = initial_game (mkPoint 440 120) ∧
       ∃ m, (m ≤ 80)%nat ∧ playing m (game t).
Proof.
  destruct steady_run_80 as (t & Hrun & _ & _ & Hgame).
  exists t. split; [exact Hrun |]. split; [exact Hgame |].
  exact (loop_game_is_in_play 80 t (steady_run_training 80 t Hrun)).
Defined.



(** ** The danger flags against the environment *)
Section DangerFacts.

Lemma collision_after_move g action :
  sound g →
  is_collision (advance_head g action) None
  = is_collision g (Some (ahead (direction (_move g action)) (head g))).
Proof.
  intros Hs. rewrite is_collision_head, !is_collision_point.
  rewrite advance_head_snake. cbn [drop]. rewrite drop_0.
  change (head (advance_head g action)) with (head (_move g action)).
  rewrite move_head. f_equal.
  set (p := ahead (direction (_move g action)) (head g)).
  assert (Hp : p ≠ head g).
  { unfold p. destruct (head g) as [hx hy].
    destruct (direction (_move g action)); unfold ahead, BLOCK_SIZE;
      cbn [x y]; intros [=]; lia. }
  pose proof (sound_head g Hs) as Hh.
  destruct (snake g) as [| h rest]; [discriminate |].
  injection Hh as ->. cbn [drop]. rewrite drop_0.
  apply bool_decide_ext. rewrite elem_of_cons. tauto.
Qed.

(** In a game in play the danger flags are exact about the step that
    follows.  Entry 0 is 1 exactly when going straight makes the head
    collide.  Entry 2 is 1 exactly when turning LEFT collides if the snake
    heads LEFT or RIGHT, but exactly when turning RIGHT collides if it
    heads UP or DOWN.  Entry 1 is 0 when heading LEFT or RIGHT and is the
    disjunction "straight or right turn collides" when heading UP or DOWN;
    so a collision on the right turn is not encoded apart when heading
    LEFT or RIGHT, nor one on the left turn when heading UP or DOWN. *)
Theorem danger_flags_predict_collisions n g (state : list Z) :
  playing n g → get_state g = Some state →
  let hit action := Z.b2z (is_collision (advance_head g action) None) in
  let sideways := bool_decide (direction g = LEFT ∨ direction g = RIGHT) in
  state !! 0%nat = Some (hit [1; 0; 0]) ∧
  state !! 2%nat
  = Some (if sideways then hit [0; 0; 1] else hit [0; 1; 0]) ∧
  state !! 1%nat
  = Some (if sideways then 0 else Z.max (hit [1; 0; 0]) (hit [0; 1; 0])).
Proof.
  intros Hp Hstate hit sideways. unfold hit.
  destruct (playing_sound n g Hp) as [Hs _].
  destruct (danger_cells g state (head g) Hstate (sound_head g Hs))
    as (H0 & H2 & H1).
  rewrite !(collision_after_move g _ Hs), !move_direction.
  change (array_equal [1; 0; 0] [1; 0; 0]) with true.
  change (array_equal [0; 1; 0] [1; 0; 0]) with false.
  change (array_equal [0; 1; 0] [0; 1; 0]) with true.
  change (array_equal [0; 0; 1] [1; 0; 0]) with false.
  change (array_equal [0; 0; 1] [0; 1; 0]) with false.
  cbn beta iota. split; [exact H0 |]. split.
  - rewrite H2. unfold sideways. cbn.
    destruct (bool_decide (direction g = LEFT ∨ direction g = RIGHT));
      reflexivity.
  - rewrite H1. reflexivity.
Qed.

Lemma danger_flags_predict_collisions_witness :
  let g := mkGame UP (mkPoint 320 220)
                  [mkPoint 320 220; mkPoint 320 240; mkPoint 300 240]
                  0 (mkPoint 100 100) 1 in
  get_state g = Some [0; 0; 0; 0; 0; 1; 0; 1; 0; 1; 0] ∧
  [0; 0; 0; 0; 0; 1; 0; 1; 0; 1; 0] !! 2%nat
  = Some (Z.b2z (is_collision (advance_head g [0; 1; 0]) None)).
Proof.
  intros g. split; [reflexivity |].
  assert (Hplay : playing 1 g).
  { apply (playing_step 0 1 (rng_of []) (initial_game (mkPoint 100 100))
             [0; 0; 1] 0 0 g (rng_of [])); [| reflexivity].
    apply (playing_init 1 (rng_of [5; 5]) _
             (advance (advance (rng_of [5; 5])))).
    reflexivity. }
  exact (proj1 (proj2 (danger_flags_predict_collisions 1 g _ Hplay eq_refl))).
Defined.
End DangerFacts.

(** ** Placing the food, and the cell the tail leaves *)
Section PlacementFacts.

Lemma skip_cells_draw n r : skip_cells (S n) r = (draw_cell (skip_cells n r)).2.
Proof. reflexivity. Qed.

(** [_place_food] returns the first of its attempts that draws a cell off
    the snake, having consumed the draws of the attempts made; it raises
    [RecursionError] exactly when each of the [depth] attempts the call
    depth allows for draws a cell of the snake. *)
Theorem place_food_first_free depth r body :
  (_place_food depth r body = None ↔
   ∀ i, (i < depth)%nat → attempt i r ∈ body) ∧
  (∀ k, (k < depth)%nat →
        (∀ i, (i < k)%nat → attempt i r ∈ body) → attempt k r ∉ body →
        _place_food depth r body
        = Some (attempt k r, skip_cells (S k) r)).
Proof.
  revert r. induction depth as [| d IH]; intros r.
  { split; [split; [intros _ i Hi; lia | reflexivity] | intros k Hk; lia]. }
  cbn [_place_food].
  change (draw_cell r) with (draw_cell (skip_cells 0 r)).
  destruct (draw_cell (skip_cells 0 r)) as [c r1] eqn:Hc.
  assert (Hc0 : attempt 0 r = c) by (unfold attempt; now rewrite Hc).
  assert (Hr1 : (draw_cell r).2 = r1)
    by (change r with (skip_cells 0 r) at 1; now rewrite Hc).
  assert (Hshift : ∀ i, attempt (S i) r = attempt i r1)
    by (intros i; now rewrite attempt_succ, Hr1).
  destruct (IH r1) as [IHnone IHsome].
  case_bool_decide as Hin; split.
  - rewrite IHnone. split.
    + intros Hall [| i] Hi; [now rewrite Hc0 |].
      rewrite Hshift. apply Hall. lia.
    + intros Hall i Hi. rewrite <- Hshift. apply Hall. lia.
  - intros [| k] Hk Hbefore Hfree; [rewrite Hc0 in Hfree; contradiction |].
    rewrite Hshift in Hfree.
    rewrite (IHsome k ltac:(lia)); [| | exact Hfree].
    + rewrite <- Hshift. do 2 f_equal.
      rewrite !skip_cells_succ, Hr1. reflexivity.
    + intros i Hi. rewrite <- Hshift. apply Hbefore. lia.
  - split; [discriminate |]. intros Hall.
    specialize (Hall 0%nat ltac:(lia)). rewrite Hc0 in Hall. contradiction.
  - intros [| k] Hk Hbefore Hfree.
    + rewrite Hc0. do 2 f_equal. rewrite skip_cells_succ, Hr1. reflexivity.
    + specialize (Hbefore 0%nat ltac:(lia)). rewrite Hc0 in Hbefore.
      contradiction.
Qed.

Lemma place_food_first_free_witness :
  let body := [mkPoint 320 240; mkPoint 300 240; mkPoint 280 240] in
  let r := rng_of [16; 12; 14; 12; 3; 4] in
  (2 < 5)%nat ∧ (attempt 2 r ∉ body) ∧
  _place_food 5 r body = Some (mkPoint 60 80, skip_cells 3 r).
Proof.
  intros body r.
  assert (Hfree : attempt 2 r ∉ body).
  { apply (bool_decide_eq_false_1 _). vm_compute. reflexivity. }
  split; [lia |]. split; [exact Hfree |].
  apply (proj2 (place_food_first_free 5 r body) 2%nat); [lia | | exact Hfree].
  intros [| [| i]] Hi; [| | lia];
    apply (bool_decide_eq_true_1 _); vm_compute; reflexivity.
Defined.

(** The collision test of a step runs before the tail is popped: moving
    the head onto the cell of the last segment ends the game, although
    that segment would have left the cell in this very step. *)
Theorem tail_cell_is_a_collision depth r g action :
  snake g !! (length (snake g) - 1)%nat
  = Some (head (advance_head g action)) →
  play_step_headless depth r g action
  = Some ((-1, true, score g), advance_head g action, r).
Proof.
  intros Hlast. unfold play_step_headless.
  replace (game_over (advance_head g action)) with true; [reflexivity |].
  symmetry. apply game_over_terminal. right. left.
  rewrite advance_head_snake. cbn [drop]. rewrite drop_0.
  eapply list_elem_of_lookup_2, Hlast.
Qed.

Lemma tail_cell_is_a_collision_witness :
  let g := mkGame UP (mkPoint 320 240)
                  [mkPoint 320 240; mkPoint 320 260; mkPoint 300 260;
                   mkPoint 300 240]
                  1 (mkPoint 100 100) 9 in
  snake g !! (length (snake g) - 1)%nat
  = Some (head (advance_head g [0; 0; 1])) ∧
  play_step_headless 1 (rng_of []) g [0; 0; 1]
  = Some ((-1, true, 1), advance_head g [0; 0; 1], rng_of []).
Proof.
  intros g.
  assert (Hlast : snake g !! (length (snake g) - 1)%nat
                  = Some (head (advance_head g [0; 0; 1])))
    by reflexivity.
  split; [exact Hlast |].
  exact (tail_cell_is_a_collision 1 (rng_of []) g [0; 0; 1] Hlast).
Defined.
End PlacementFacts.
